(** * httpcloak: cookie jar, TLS session cache, warmup planner, fast C binding

    A shallow embedding of the parts of httpcloak that the specification
    makes promises about:

    - [session.CookieJar] (Set, Get, GetAll, SetSimple, Clear, ClearExpired,
      Count, Export, Import, ImportV4, BuildCookieHeader),
    - [transport.PersistableSessionCache] (Get, Put, Export, Import, Clear, Count),
    - [session.parseSubresources], [groupByPriority], [buildSubresourceHeaders],
    - the fast C binding: the [final_url] copy, the handle table and its
      accessors.

    Conventions.  A Go [string] is a byte sequence and is a Rocq [string];
    a Go [map] is a [gmap]; a [time.Time] is an instant on the integer time
    line ([Z], nanoseconds), so [t.Before(u)] is [t < u]; [time.Now()] is an
    explicit argument [now].  The mutexes only serialise the methods: each
    method is modelled as one atomic state transformer. *)

From Stdlib Require Import ZArith Ascii String List Sorted Permutation Lia.
From stdpp Require Import base option list gmap strings sorting.

Local Open Scope string_scope.
Local Open Scope list_scope.
Local Open Scope Z_scope.

#[local] Set Warnings "-clear-no-such-hyp".

Abbreviation bytes := (list Byte.byte).

(** ** Go's [strings] package on byte strings *)

Module strings.

(** [s[:n]] *)
Fixpoint slice_to (s : string) (n : nat) {struct n} : string :=
  match n, s with
  | O, _ => ""
  | S _, EmptyString => ""
  | S n', String c s' => String c (slice_to s' n')
  end.

(** [s[n:]] *)
Fixpoint slice_from (s : string) (n : nat) {struct n} : string :=
  match n, s with
  | O, _ => s
  | S _, EmptyString => ""
  | S n', String _ s' => slice_from s' n'
  end.

Fixpoint HasPrefix (s prefix : string) {struct prefix} : bool :=
  match prefix, s with
  | EmptyString, _ => true
  | String _ _, EmptyString => false
  | String c p', String d s' => Ascii.eqb d c && HasPrefix s' p'
  end.

(** [len(s) >= len(suffix) && s[len(s)-len(suffix):] == suffix] *)
Definition HasSuffix (s suffix : string) : bool :=
  (String.length suffix <=? String.length s)%nat
  && String.eqb (slice_from s (String.length s - String.length suffix)) suffix.

Definition TrimPrefix (s prefix : string) : string :=
  if HasPrefix s prefix then slice_from s (String.length prefix) else s.

(** [strings.Index(s, string(c))]: first position of the byte, [-1] if absent. *)
Fixpoint IndexByte (s : string) (c : ascii) : Z :=
  match s with
  | EmptyString => -1
  | String d s' =>
      if Ascii.eqb d c then 0
      else let i := IndexByte s' c in if i =? -1 then -1 else i + 1
  end.

(** [strings.LastIndex(s, string(c))]: last position of the byte, [-1] if absent. *)
Fixpoint LastIndexByte (s : string) (c : ascii) : Z :=
  match s with
  | EmptyString => -1
  | String d s' =>
      let i := LastIndexByte s' c in
      if i =? -1 then (if Ascii.eqb d c then 0 else -1) else i + 1
  end.

Definition ContainsByte (s : string) (c : ascii) : bool := 0 <=? IndexByte s c.

(** Lower-casing of one byte: ['A'..'Z'] to ['a'..'z'], every other byte
    kept.  [ToLower] below is Go's [strings.ToLower] on ASCII strings only
    (Go also maps the letters beyond ASCII and rewrites invalid UTF-8); a
    theorem that looks inside [ToLower] therefore speaks of ASCII input and
    says so with [isASCII]. *)
Definition lower_byte (c : ascii) : ascii :=
  let n := nat_of_ascii c in
  if ((65 <=? n) && (n <=? 90))%nat then ascii_of_nat (n + 32) else c.

Fixpoint ToLower (s : string) : string :=
  match s with
  | EmptyString => EmptyString
  | String c s' => String (lower_byte c) (ToLower s')
  end.

(** [strings.Join(parts, sep)] *)
Fixpoint Join (parts : list string) (sep : string) : string :=
  match parts with
  | [] => ""
  | [p] => p
  | p :: rest => p +:+ sep +:+ Join rest sep
  end.

End strings.

(** ** [sort.Slice]

    Go's [sort.Slice] runs insertion sort on short slices and pattern-defeating
    quicksort on long ones; it is not stable.  What its callers may rely on is
    that the result is a rearrangement of the input in which no element is
    [less] than one that precedes it.  The model is the insertion sort of
    [sort.insertionSortLessFunc]: element [i] travels left while it is [less]
    than its left neighbour.  The accumulator holds the sorted prefix with its
    last element first. *)

Section SortSlice.
Context {A : Type} (less : A → A → bool).

Fixpoint sink (x : A) (sorted_rev : list A) : list A :=
  match sorted_rev with
  | [] => [x]
  | y :: rest => if less x y then y :: sink x rest else x :: y :: rest
  end.

Definition sortSlice (data : list A) : list A :=
  rev (fold_left (λ acc x, sink x acc) data []).
End SortSlice.

(** ** Package [fingerprint]: request contexts of subresources *)

Module fingerprint.

Record RequestContext := mkRequestContext {
  Mode : string;
  Dest : string;
  Site : string;
  IsUserTriggered : bool
}.

Record SecFetchHeaders := mkSecFetchHeaders {
  sfSite : string;
  sfMode : string;
  sfDest : string
}.

Definition FetchModeCORS : string := "cors".
Definition FetchModeNoCORS : string := "no-cors".
Definition FetchDestStyle : string := "style".
Definition FetchDestScript : string := "script".
Definition FetchDestImage : string := "image".
Definition FetchDestFont : string := "font".

Section Contexts.
(** The comparison of the page's origin with the subresource's
    (same-origin, same-site or cross-site); its code is not among the
    sources and no statement below depends on what it answers. *)
Variable fetchSite : string → string → string.

(** Modelled from the spec: [fingerprint.StyleContext] is not among the
    sources; the table of section 4.10 gives a stylesheet Sec-Fetch-Dest
    [style] and Sec-Fetch-Mode [no-cors], and the site is the comparison of
    the two origins. *)
Definition StyleContext (pageURL targetURL : string) : RequestContext :=
  {| Mode := FetchModeNoCORS; Dest := FetchDestStyle;
     Site := fetchSite pageURL targetURL; IsUserTriggered := false |}.

(** Modelled from the spec: [fingerprint.ScriptContext] is not among the
    sources; the table gives a script [script] and [no-cors]. *)
Definition ScriptContext (pageURL targetURL : string) : RequestContext :=
  {| Mode := FetchModeNoCORS; Dest := FetchDestScript;
     Site := fetchSite pageURL targetURL; IsUserTriggered := false |}.

(** Modelled from the spec: [fingerprint.ImageContext] is not among the
    sources; the table gives an image [image] and [no-cors]. *)
Definition ImageContext (pageURL targetURL : string) : RequestContext :=
  {| Mode := FetchModeNoCORS; Dest := FetchDestImage;
     Site := fetchSite pageURL targetURL; IsUserTriggered := false |}.

(** Modelled from the spec: [fingerprint.FontContext] is not among the
    sources; the table gives a font [font] and [cors], and the test
    [TestFontContext] says the same and that it is not user-triggered. *)
Definition FontContext (pageURL targetURL : string) : RequestContext :=
  {| Mode := FetchModeCORS; Dest := FetchDestFont;
     Site := fetchSite pageURL targetURL; IsUserTriggered := false |}.

End Contexts.

(** Modelled from the spec: [fingerprint.GenerateSecFetchHeaders] is not
    among the sources; the three Sec-Fetch values are those of the context. *)
Definition GenerateSecFetchHeaders (ctx : RequestContext) : SecFetchHeaders :=
  {| sfSite := Site ctx; sfMode := Mode ctx; sfDest := Dest ctx |}.

End fingerprint.

(** ** Package [session]: the cookie jar and the warmup planner *)

Module session.

Record CookieData := mkCookieData {
  Name : string;
  Value : string;
  Domain : string;
  HostOnly : bool;
  Path : string;
  Expires : option Z;
  MaxAge : Z;
  Secure : bool;
  HttpOnly : bool;
  SameSite : string;
  CreatedAt : Z
}.

(** [CookieState], the serialised cookie of session/state.go. *)
Record CookieState := mkCookieState {
  csName : string;
  csValue : string;
  csDomain : string;
  csPath : string;
  csExpires : option Z;
  csMaxAge : Z;
  csSecure : bool;
  csHttpOnly : bool;
  csSameSite : string;
  csCreatedAt : option Z
}.

(** [CookieJar.cookies]: domain, then [path + "\x00" + name]. *)
Abbreviation CookieJar := (gmap string (gmap string CookieData)).

Definition NewCookieJar : CookieJar := ∅.

Definition cookieKey (path name : string) : string :=
  path +:+ String zero name.

(** The host normalisation that opens both [Set] and [Get]: lower-case, then
    cut a trailing [:port] unless the last colon lies inside IPv6 brackets. *)
Definition normalizeRequestHost (requestHost : string) : string :=
  let requestHost := strings.ToLower requestHost in
  let idx := strings.LastIndexByte requestHost ":" in
  if negb (idx =? -1) then
    if negb (strings.ContainsByte requestHost "]")
       || (strings.IndexByte requestHost "]" <? idx)
    then strings.slice_to requestHost (Z.to_nat idx)
    else requestHost
  else requestHost.

Definition isDomainMatch (host domain : string) : bool :=
  if String.eqb host domain then true
  else if strings.HasSuffix host ("." +:+ domain) then true
  else false.

Definition isPathMatch (requestPath cookiePath : string) : bool :=
  if String.eqb requestPath cookiePath then true
  else if strings.HasPrefix requestPath cookiePath then
    if strings.HasSuffix cookiePath "/" then true
    else if (String.length cookiePath <? String.length requestPath)%nat
            && bool_decide (String.get (String.length cookiePath) requestPath = Some "/"%char)
    then true
    else false
  else false.

Definition domainMatchesHost (cookieDomain requestHost : string) : bool :=
  if String.eqb cookieDomain "" then true
  else if String.eqb cookieDomain requestHost then true
  else if strings.HasPrefix cookieDomain "." then
    let domainWithoutDot := strings.slice_from cookieDomain 1 in
    if String.eqb requestHost domainWithoutDot then true
    else if strings.HasSuffix requestHost cookieDomain then true
    else false
  else false.

(** [c.Expires != nil && c.Expires.Before(now)] *)
Definition expiredAt (expires : option Z) (now : Z) : bool :=
  match expires with
  | Some e => e <? now
  | None => false
  end.

Definition Set_ (j : CookieJar) (now : Z)
    (requestHost : string) (cookie : CookieData) (requestSecure : bool) : CookieJar :=
  let requestHost := normalizeRequestHost requestHost in
  let effective : option (string * bool) :=
    if String.eqb (Domain cookie) "" then Some (requestHost, true)
    else
      let domain := strings.ToLower (Domain cookie) in
      let domainWithoutDot := strings.TrimPrefix domain "." in
      if negb (isDomainMatch requestHost domainWithoutDot) then None
      else Some ("." +:+ domainWithoutDot, false) in
  match effective with
  | None => j
  | Some (domain, hostOnly) =>
      if Secure cookie && negb requestSecure then j
      else
        let path :=
          match Path cookie with
          | EmptyString => "/"
          | String c _ => if Ascii.eqb c "/" then Path cookie else "/"
          end in
        let stored := {|
          Name := Name cookie; Value := Value cookie;
          Domain := domain; HostOnly := hostOnly; Path := path;
          Expires := Expires cookie; MaxAge := MaxAge cookie;
          Secure := Secure cookie; HttpOnly := HttpOnly cookie;
          SameSite := SameSite cookie; CreatedAt := now |} in
        <[domain := <[cookieKey path (Name cookie) := stored]> (default ∅ (j !! domain))]> j
  end.

(** The comparison handed to [sort.Slice] in [Get]. *)
Definition pathThenAge (a b : CookieData) : bool :=
  if negb (String.length (Path a) =? String.length (Path b))%nat
  then (String.length (Path b) <? String.length (Path a))%nat
  else CreatedAt a <? CreatedAt b.

(** The inner [range domainCookies] of [Get]; [matches] is the slice being
    appended to. *)
Fixpoint rangeDomainCookies (domain requestHost requestPath : string)
    (requestSecure : bool) (now : Z)
    (domainCookies : list (string * CookieData)) (matches : list CookieData)
    : list CookieData :=
  match domainCookies with
  | [] => matches
  | (_, cookie) :: rest =>
      let continue := rangeDomainCookies domain requestHost requestPath requestSecure now rest in
      if HostOnly cookie && negb (String.eqb domain requestHost) then continue matches
      else if negb (isPathMatch requestPath (Path cookie)) then continue matches
      else if Secure cookie && negb requestSecure then continue matches
      else if expiredAt (Expires cookie) now then continue matches
      else continue (matches ++ [cookie])
  end.

(** The outer [range j.cookies] of [Get]. *)
Fixpoint rangeCookies (requestHost requestPath : string) (requestSecure : bool) (now : Z)
    (cookies : list (string * gmap string CookieData)) (matches : list CookieData)
    : list CookieData :=
  match cookies with
  | [] => matches
  | (domain, domainCookies) :: rest =>
      if negb (domainMatchesHost domain requestHost)
      then rangeCookies requestHost requestPath requestSecure now rest matches
      else rangeCookies requestHost requestPath requestSecure now rest
             (rangeDomainCookies domain requestHost requestPath requestSecure now
                (map_to_list domainCookies) matches)
  end.

Definition Get (j : CookieJar) (now : Z)
    (requestHost requestPath : string) (requestSecure : bool) : list CookieData :=
  let requestHost := normalizeRequestHost requestHost in
  let requestPath := if String.eqb requestPath "" then "/" else requestPath in
  let matches := rangeCookies requestHost requestPath requestSecure now (map_to_list j) [] in
  sortSlice pathThenAge matches.

Definition SetSimple (j : CookieJar) (now : Z) (name value : string) : CookieJar :=
  let domain := "" in
  <[domain :=
      <[cookieKey "/" name :=
          {| Name := name; Value := value; Domain := domain; HostOnly := false;
             Path := "/"; Expires := None; MaxAge := 0; Secure := false;
             HttpOnly := false; SameSite := ""; CreatedAt := now |}]>
        (default ∅ (j !! domain))]> j.

Definition BuildCookieHeader (j : CookieJar) (now : Z)
    (requestHost requestPath : string) (requestSecure : bool) : string :=
  let cookies := Get j now requestHost requestPath requestSecure in
  if (length cookies =? 0)%nat then ""
  else
    let parts := fold_left (λ parts c, parts ++ [Name c +:+ "=" +:+ Value c]) cookies [] in
    strings.Join parts "; ".

Definition Clear (j : CookieJar) : CookieJar := ∅.

(** [Count]: the sum of [len(domainCookies)] over the domains. *)
Definition Count (j : CookieJar) : nat :=
  map_fold (λ _ domainCookies count, (count + size domainCookies)%nat) 0%nat j.

(** The inner loop of [Export]: the unexpired cookies of one domain. *)
Fixpoint exportDomainCookies (now : Z)
    (domainCookies : list (string * CookieData)) (cookies : list CookieState)
    : list CookieState :=
  match domainCookies with
  | [] => cookies
  | (_, c) :: rest =>
      if expiredAt (Expires c) now then exportDomainCookies now rest cookies
      else
        let createdAt := CreatedAt c in
        exportDomainCookies now rest
          (cookies ++ [ {| csName := Name c; csValue := Value c; csDomain := Domain c;
                           csPath := Path c; csExpires := Expires c; csMaxAge := MaxAge c;
                           csSecure := Secure c; csHttpOnly := HttpOnly c;
                           csSameSite := SameSite c; csCreatedAt := Some createdAt |} ])
  end.

(** [Export]: each domain writes [result[domain]] for itself only, and only
    when it has an unexpired cookie. *)
Definition Export (j : CookieJar) (now : Z) : gmap string (list CookieState) :=
  omap (λ domainCookies,
          let cookies := exportDomainCookies now (map_to_list domainCookies) [] in
          if (0 <? length cookies)%nat then Some cookies else None) j.

(** The inner loop of [Import]. *)
Fixpoint importDomainCookies (now : Z) (domainCookies : list CookieState)
    (stored : gmap string CookieData) : gmap string CookieData :=
  match domainCookies with
  | [] => stored
  | c :: rest =>
      if expiredAt (csExpires c) now then importDomainCookies now rest stored
      else
        let path := if String.eqb (csPath c) "" then "/" else csPath c in
        let hostOnly := negb (strings.HasPrefix (csDomain c) ".") in
        let createdAt := match csCreatedAt c with Some t => t | None => now end in
        importDomainCookies now rest
          (<[cookieKey path (csName c) :=
               {| Name := csName c; Value := csValue c; Domain := csDomain c;
                  HostOnly := hostOnly; Path := path; Expires := csExpires c;
                  MaxAge := csMaxAge c; Secure := csSecure c; HttpOnly := csHttpOnly c;
                  SameSite := csSameSite c; CreatedAt := createdAt |}]> stored)
  end.

(** The outer loop of [Import]: the domain's map is created when missing,
    before any cookie is looked at. *)
Fixpoint importDomains (now : Z) (cookies : list (string * list CookieState))
    (j : CookieJar) : CookieJar :=
  match cookies with
  | [] => j
  | (domain, domainCookies) :: rest =>
      importDomains now rest
        (<[domain := importDomainCookies now domainCookies (default ∅ (j !! domain))]> j)
  end.

Definition Import (j : CookieJar) (cookies : gmap string (list CookieState)) (now : Z)
    : CookieJar :=
  importDomains now (map_to_list cookies) j.

(** [GetAll]: the inner loop writes [result[cookie.Name] = cookie.Value]. *)
Fixpoint collectNames (domainCookies : list (string * CookieData))
    (result : gmap string string) : gmap string string :=
  match domainCookies with
  | [] => result
  | (_, cookie) :: rest => collectNames rest (<[Name cookie := Value cookie]> result)
  end.

Fixpoint rangeAllCookies (cookies : list (string * gmap string CookieData))
    (result : gmap string string) : gmap string string :=
  match cookies with
  | [] => result
  | (_, domainCookies) :: rest =>
      rangeAllCookies rest (collectNames (map_to_list domainCookies) result)
  end.

Definition GetAll (j : CookieJar) : gmap string string :=
  rangeAllCookies (map_to_list j) ∅.

(** The inner loop of [ClearExpired]: [delete(domainCookies, key)] for every
    expired cookie met while ranging over the domain's map. *)
Fixpoint sweepDomainCookies (now : Z) (entries : list (string * CookieData))
    (domainCookies : gmap string CookieData) : gmap string CookieData :=
  match entries with
  | [] => domainCookies
  | (key, cookie) :: rest =>
      if expiredAt (Expires cookie) now
      then sweepDomainCookies now rest (delete key domainCookies)
      else sweepDomainCookies now rest domainCookies
  end.

(** [ClearExpired]: each domain is swept, and deleted from the jar when
    nothing is left in it. *)
Definition ClearExpired (j : CookieJar) (now : Z) : CookieJar :=
  omap (λ domainCookies,
          let domainCookies :=
            sweepDomainCookies now (map_to_list domainCookies) domainCookies in
          if (size domainCookies =? 0)%nat then None else Some domainCookies) j.

(** [ImportV4]: the flat list of the v4 format. *)
Fixpoint ImportV4 (j : CookieJar) (cookies : list CookieState) (now : Z) : CookieJar :=
  match cookies with
  | [] => j
  | c :: rest =>
      if expiredAt (csExpires c) now then ImportV4 j rest now
      else
        let '(domain, hostOnly) :=
          if String.eqb (csDomain c) "" then ("", false)
          else
            let domain := strings.ToLower (csDomain c) in
            if negb (strings.HasPrefix domain ".") then (domain, true)
            else (domain, false) in
        let path := if String.eqb (csPath c) "" then "/" else csPath c in
        ImportV4
          (<[domain :=
               <[cookieKey path (csName c) :=
                   {| Name := csName c; Value := csValue c; Domain := domain;
                      HostOnly := hostOnly; Path := path; Expires := csExpires c;
                      MaxAge := csMaxAge c; Secure := csSecure c;
                      HttpOnly := csHttpOnly c; SameSite := csSameSite c;
                      CreatedAt := now |}]>
                 (default ∅ (j !! domain))]> j)
          rest now
  end.

(** *** session/warmup.go *)

Inductive resourceType := resourceCSS | resourceJS | resourceImage | resourceFont.

Record subresource := mkSubresource {
  url : string;
  typ : resourceType
}.

Definition maxSubresources : nat := 50.

(** [html.TokenType] of golang.org/x/net/html. *)
Inductive TokenType :=
  | ErrorToken | TextToken | StartTagToken | EndTagToken
  | SelfClosingTagToken | CommentToken | DoctypeToken.

(** What the tokenizer exposes of one token: [Next()], [TagName()] and the
    attributes that successive [TagAttr()] calls yield.  [TagName]'s
    [hasAttr] is that the attribute list is not empty. *)
Record Token := mkToken {
  tokenType : TokenType;
  tagName : string;
  attrs : list (string * string)
}.

(** [parseLinkAttrs]: every attribute is read; a later [href], [rel] or [as]
    replaces an earlier one. *)
Definition parseLinkAttrs (z : list (string * string)) : string * string * string :=
  fold_left
    (λ '(href, rel, as_) '(k, val),
       if String.eqb k "href" then (val, rel, as_)
       else if String.eqb k "rel" then (href, strings.ToLower val, as_)
       else if String.eqb k "as" then (href, rel, strings.ToLower val)
       else (href, rel, as_))
    z ("", "", "").

(** [getAttr]: the value of the first attribute called [name], else [""]. *)
Fixpoint getAttr (z : list (string * string)) (name : string) : string :=
  match z with
  | [] => ""
  | (key, val) :: rest => if String.eqb key name then val else getAttr rest name
  end.

(** The [switch rel] of the [link] case: the type, and whether it matched. *)
Definition linkType (rel as_ : string) : resourceType * bool :=
  if String.eqb rel "stylesheet" then (resourceCSS, true)
  else if String.eqb rel "icon" then (resourceImage, true)
  else if String.eqb rel "preload" then
    if String.eqb as_ "style" then (resourceCSS, true)
    else if String.eqb as_ "script" then (resourceJS, true)
    else if String.eqb as_ "image" then (resourceImage, true)
    else if String.eqb as_ "font" then (resourceFont, true)
    else (resourceCSS, false)
  else (resourceCSS, false).

Section Warmup.
(** [resolveURL] of this package (its file is not among the sources) and the
    tokenizer of golang.org/x/net/html, as the token sequence it produces
    for a body. *)
Variable resolveURL : string → string → string.
Variable Tokenizer : bytes → list Token.
Variable fetchSite : string → string → string.

(** [if !seen[resolved] { seen[resolved] = true; resources = append(...) }] *)
Definition addResource (baseURL ref : string) (t : resourceType)
    (seen : gmap string bool) (resources : list subresource)
    : gmap string bool * list subresource :=
  let resolved := resolveURL baseURL ref in
  if negb (default false (seen !! resolved))
  then (<[resolved := true]> seen, resources ++ [ {| url := resolved; typ := t |} ])
  else (seen, resources).

(** The body of the [switch tagName]; [None] is the [continue] of a [link]
    without [href], which skips the size check. *)
Definition visitTag (baseURL : string) (tok : Token)
    (seen : gmap string bool) (resources : list subresource)
    : option (gmap string bool * list subresource) :=
  if String.eqb (tagName tok) "link" then
    let '(href, rel, as_) := parseLinkAttrs (attrs tok) in
    if String.eqb href "" then None
    else
      let '(t, matched) := linkType rel as_ in
      if matched then Some (addResource baseURL href t seen resources)
      else Some (seen, resources)
  else if String.eqb (tagName tok) "script" then
    let src := getAttr (attrs tok) "src" in
    if negb (String.eqb src "") then Some (addResource baseURL src resourceJS seen resources)
    else Some (seen, resources)
  else if String.eqb (tagName tok) "img" then
    let src := getAttr (attrs tok) "src" in
    if negb (String.eqb src "") then Some (addResource baseURL src resourceImage seen resources)
    else Some (seen, resources)
  else Some (seen, resources).

(** The [for] loop of [parseSubresources]; the end of the token list is the
    tokenizer's [ErrorToken] at end of input. *)
Fixpoint scanTokens (baseURL : string) (tokens : list Token)
    (seen : gmap string bool) (resources : list subresource) : list subresource :=
  match tokens with
  | [] => resources
  | tok :: rest =>
      match tokenType tok with
      | ErrorToken => resources
      | StartTagToken | SelfClosingTagToken =>
          match attrs tok with
          | [] => scanTokens baseURL rest seen resources
          | _ :: _ =>
              match visitTag baseURL tok seen resources with
              | None => scanTokens baseURL rest seen resources
              | Some (seen, resources) =>
                  if (maxSubresources <=? length resources)%nat then resources
                  else scanTokens baseURL rest seen resources
              end
          end
      | _ => scanTokens baseURL rest seen resources
      end
  end.

Definition parseSubresources (body : bytes) (baseURL : string) : list subresource :=
  scanTokens baseURL (Tokenizer body) ∅ [].

Definition groupByPriority (resources : list subresource)
    : list subresource * list subresource * list subresource :=
  fold_left
    (λ '(cssAndFonts, scripts, images) r,
       match typ r with
       | resourceCSS | resourceFont => (cssAndFonts ++ [r], scripts, images)
       | resourceJS => (cssAndFonts, scripts ++ [r], images)
       | resourceImage => (cssAndFonts, scripts, images ++ [r])
       end)
    resources ([], [], []).

Definition buildSubresourceHeaders (t : resourceType) (pageURL targetURL : string)
    : gmap string (list string) :=
  let '(reqCtx, accept, priority) :=
    match t with
    | resourceCSS =>
        (fingerprint.StyleContext fetchSite pageURL targetURL, "text/css,*/*;q=0.1", "u=0, i")
    | resourceJS =>
        (fingerprint.ScriptContext fetchSite pageURL targetURL, "*/*", "u=1")
    | resourceImage =>
        (fingerprint.ImageContext fetchSite pageURL targetURL,
         "image/avif,image/webp,image/apng,image/svg+xml,image/*,*/*;q=0.8", "u=2")
    | resourceFont =>
        (fingerprint.FontContext fetchSite pageURL targetURL, "*/*", "u=3")
    end in
  let secFetch := fingerprint.GenerateSecFetchHeaders reqCtx in
  <["Accept" := [accept]]>
    (<["Sec-Fetch-Site" := [fingerprint.sfSite secFetch]]>
      (<["Sec-Fetch-Mode" := [fingerprint.sfMode secFetch]]>
        (<["Sec-Fetch-Dest" := [fingerprint.sfDest secFetch]]>
          (<["Referer" := [pageURL]]>
            (<["Priority" := [priority]]> ∅))))).

End Warmup.

End session.

(** ** Package [transport]: the persistable TLS session cache *)

Module transport.

(** What the cache calls in [utls] and [encoding/base64].  A failing call
    ([err != nil]) is [None]; a [nil] ticket or state returned without error
    is the inner [None] of [ResumptionState]. *)
Class TLSLibrary := {
  ClientSessionState : Type;
  SessionState : Type;
  ResumptionState : ClientSessionState → option (option bytes * option SessionState);
  SessionState_Bytes : SessionState → option bytes;
  ParseSessionState : bytes → option SessionState;
  NewResumptionState : bytes → SessionState → option ClientSessionState;
  EncodeToString : bytes → string;
  DecodeString : string → option bytes
}.

(** 24 hours, in nanoseconds. *)
Definition TLSSessionMaxAge : Z := 24 * 3600 * 1000000000.

Definition TLSSessionCacheMaxSize : nat := 32.

Record TLSSessionState := mkTLSSessionState {
  Ticket : string;
  State : string;
  tsCreatedAt : Z
}.

Section SessionCache.
Context `{TLSLibrary}.

Record cachedSession := mkCachedSession {
  state : option ClientSessionState;
  createdAt : Z
}.

Record PersistableSessionCache := mkCache {
  sessions : gmap string cachedSession;
  accessOrder : list string
}.

Definition NewPersistableSessionCache : PersistableSessionCache :=
  {| sessions := ∅; accessOrder := [] |}.

(** [accessOrder[:i] ++ accessOrder[i+1:]] for the first [i] holding [key]. *)
Fixpoint cutFirst (key : string) (order : list string) : option (list string) :=
  match order with
  | [] => None
  | k :: rest =>
      if String.eqb k key then Some rest
      else match cutFirst key rest with
           | Some rest' => Some (k :: rest')
           | None => None
           end
  end.

Definition moveToEnd (c : PersistableSessionCache) (key : string)
    : PersistableSessionCache :=
  match cutFirst key (accessOrder c) with
  | Some order => {| sessions := sessions c; accessOrder := order ++ [key] |}
  | None => c
  end.

Definition Get (c : PersistableSessionCache) (sessionKey : string)
    : PersistableSessionCache * (option ClientSessionState * bool) :=
  match sessions c !! sessionKey with
  | Some cached => (moveToEnd c sessionKey, (state cached, true))
  | None => (c, (None, false))
  end.

Definition Put (c : PersistableSessionCache) (now : Z)
    (sessionKey : string) (cs : option ClientSessionState) : PersistableSessionCache :=
  match sessions c !! sessionKey with
  | Some _ =>
      moveToEnd
        {| sessions := <[sessionKey := {| state := cs; createdAt := now |}]> (sessions c);
           accessOrder := accessOrder c |}
        sessionKey
  | None =>
      let c :=
        if (TLSSessionCacheMaxSize <=? size (sessions c))%nat then
          match accessOrder c with
          | oldest :: rest =>
              {| sessions := delete oldest (sessions c); accessOrder := rest |}
          | [] => c
          end
        else c in
      {| sessions := <[sessionKey := {| state := cs; createdAt := now |}]> (sessions c);
         accessOrder := accessOrder c ++ [sessionKey] |}
  end.

(** One iteration of [Export]'s loop: the entry written for a session, if any. *)
Definition exportSession (cached : cachedSession) : option TLSSessionState :=
  match state cached with
  | None => None
  | Some cs =>
      match ResumptionState cs with
      | None => None
      | Some (ticket, st) =>
          match st, ticket with
          | Some st, Some ticket =>
              match SessionState_Bytes st with
              | None => None
              | Some stateBytes =>
                  Some {| Ticket := EncodeToString ticket;
                          State := EncodeToString stateBytes;
                          tsCreatedAt := createdAt cached |}
              end
          | _, _ => None
          end
      end
  end.

Definition Export (c : PersistableSessionCache) : gmap string TLSSessionState :=
  omap exportSession (sessions c).

(** The four decoding steps of [Import]; a failure of any of them is a
    [continue]. *)
Definition decodeSession (serialized : TLSSessionState) : option ClientSessionState :=
  match DecodeString (Ticket serialized) with
  | None => None
  | Some ticket =>
      match DecodeString (State serialized) with
      | None => None
      | Some stateBytes =>
          match ParseSessionState stateBytes with
          | None => None
          | Some st => NewResumptionState ticket st
          end
      end
  end.

(** The body of the [range sessions] loop of [Import]. *)
Definition importEntry (now : Z) (c : PersistableSessionCache)
    (key : string) (serialized : TLSSessionState) : PersistableSessionCache :=
  if TLSSessionMaxAge <? now - tsCreatedAt serialized then c
  else
    match decodeSession serialized with
    | None => c
    | Some clientState =>
        {| sessions :=
             <[key := {| state := Some clientState;
                         createdAt := tsCreatedAt serialized |}]> (sessions c);
           accessOrder := accessOrder c ++ [key] |}
    end.

(** The [range sessions] loop of [Import], over the entries in the order
    the map yields them. *)
Fixpoint importSessions (now : Z) (entries : list (string * TLSSessionState))
    (c : PersistableSessionCache) : PersistableSessionCache :=
  match entries with
  | [] => c
  | (key, serialized) :: rest => importSessions now rest (importEntry now c key serialized)
  end.

(** The loop that closes [Import]:
    [for len(c.sessions) > max && len(c.accessOrder) > 0]. *)
Fixpoint enforceMaxSize (sessions : gmap string cachedSession) (order : list string)
    : PersistableSessionCache :=
  match order with
  | [] => {| sessions := sessions; accessOrder := [] |}
  | oldest :: rest =>
      if (TLSSessionCacheMaxSize <? size sessions)%nat
      then enforceMaxSize (delete oldest sessions) rest
      else {| sessions := sessions; accessOrder := order |}
  end.

(** [Import] when the map yields its entries in the order [entries]. *)
Definition ImportInOrder (c : PersistableSessionCache)
    (entries : list (string * TLSSessionState)) (now : Z) : PersistableSessionCache :=
  let c := importSessions now entries c in
  enforceMaxSize (sessions c) (accessOrder c).

Definition Import (c : PersistableSessionCache)
    (sessions : gmap string TLSSessionState) (now : Z) : PersistableSessionCache :=
  ImportInOrder c (map_to_list sessions) now.

Definition Clear (c : PersistableSessionCache) : PersistableSessionCache :=
  {| sessions := ∅; accessOrder := [] |}.

Definition Count (c : PersistableSessionCache) : nat := size (sessions c).

(** The calls a TLS stack makes on the cache between two loads of a
    snapshot. *)
Inductive lruOp :=
  | OpGet (sessionKey : string)
  | OpPut (now : Z) (sessionKey : string) (cs : option ClientSessionState)
  | OpClear.

Definition applyOp (c : PersistableSessionCache) (op : lruOp) : PersistableSessionCache :=
  match op with
  | OpGet sessionKey => (Get c sessionKey).1
  | OpPut now sessionKey cs => Put c now sessionKey cs
  | OpClear => Clear c
  end.

(** [accessOrder] names every cached session once, and nothing else. *)
Definition orderExact (c : PersistableSessionCache) : Prop :=
  NoDup (accessOrder c) ∧ dom (sessions c) = list_to_set (accessOrder c).

(** Every call that changes the cache, [Import] included; the entries of
    an import come in the order the snapshot map yields them. *)
Inductive cacheOp :=
  | OpLRU (op : lruOp)
  | OpImport (entries : list (string * TLSSessionState)) (now : Z).

Definition applyCacheOp (c : PersistableSessionCache) (op : cacheOp)
    : PersistableSessionCache :=
  match op with
  | OpLRU op => applyOp c op
  | OpImport entries now => ImportInOrder c entries now
  end.

End SessionCache.

End transport.

(** A stand-in for [utls] and [encoding/base64], to run the cache on
    concrete inputs: a client session is its ticket and its state bytes, and
    the serialised forms are those bytes themselves. *)
Definition loopback : transport.TLSLibrary :=
  {| transport.ClientSessionState := bytes * bytes;
     transport.SessionState := bytes;
     transport.ResumptionState := λ cs, Some (Some cs.1, Some cs.2);
     transport.SessionState_Bytes := λ st, Some st;
     transport.ParseSessionState := λ b, Some b;
     transport.NewResumptionState := λ ticket st, Some (ticket, st);
     transport.EncodeToString := string_of_list_byte;
     transport.DecodeString := λ s, Some (list_byte_of_string s) |}.

(** Session keys [h2:host00.test:443], [h2:host01.test:443], ... *)
Definition sessionKey (i : nat) : string :=
  "h2:host" +:+ String (ascii_of_nat (48 + i / 10))
                  (String (ascii_of_nat (48 + i mod 10)) ".test:443").

(** A serialised session created at instant [0]. *)
Definition sampleSession : transport.TLSSessionState :=
  {| transport.Ticket := "ticket"; transport.State := "state";
     transport.tsCreatedAt := 0 |}.

(** A client session of the stand-in library, as a handshake would hand it
    to [Put]. *)
Definition sampleClientSession : @transport.ClientSessionState loopback :=
  ([], []).

(** A snapshot of [n] sessions, under the keys [sessionKey 0 .. sessionKey (n-1)]. *)
Definition sampleSnapshot (n : nat) : gmap string transport.TLSSessionState :=
  list_to_map ((λ i, (sessionKey i, sampleSession)) <$> seq 0 n).

(** ** The fast C binding (bindings/clib/httpcloak_fast.go) *)

Module clib.

Record Response := mkResponse {
  StatusCode : Z;
  Protocol : string;
  FinalURL : string;
  Headers : gmap string (list string)
}.

(** The C struct [FastResponseMeta]; [final_url] is the [char[2048]] field,
    one signed byte per cell. *)
Record FastResponseMeta := mkFastResponseMeta {
  status_code : Z;
  body_len : Z;
  headers_len : Z;
  protocol : Z;
  final_url : list Z
}.

Record FastResponse := mkFastResponse {
  meta : FastResponseMeta;
  body : bytes;
  bodyLen : nat;
  headers : gmap string (list string)
}.

(** The handle table: [fastResponses] and [fastResponseID]. *)
Record handles := mkHandles {
  fastResponses : gmap Z FastResponse;
  fastResponseID : Z
}.

Definition protoH1 : Z := 1.
Definition protoH2 : Z := 2.
Definition protoH3 : Z := 3.

Definition protocolToInt (p : string) : Z :=
  if String.eqb p "h1" || String.eqb p "http/1.1" || String.eqb p "HTTP/1.1" then protoH1
  else if String.eqb p "h2" || String.eqb p "http/2" || String.eqb p "HTTP/2" then protoH2
  else if String.eqb p "h3" || String.eqb p "http/3" || String.eqb p "HTTP/3" then protoH3
  else protoH2.

(** Conversion to [C.int32_t] and to [C.char] (cgo's [int8]): two's
    complement wrap-around. *)
Definition int32_t (n : Z) : Z := (n + 2 ^ 31) mod 2 ^ 32 - 2 ^ 31.
Definition C_char (b : Z) : Z := (b + 2 ^ 7) mod 2 ^ 8 - 2 ^ 7.

(** [[]byte(s)], each byte as a number in [0, 256). *)
Fixpoint byteValues (s : string) : list Z :=
  match s with
  | EmptyString => []
  | String c s' => Z.of_nat (nat_of_ascii c) :: byteValues s'
  end.

(** [for i := 0; i < len(src); i++ { dst[i] = C.char(src[i]) }], entered at
    index [i] with [src] the bytes still to copy. *)
Fixpoint copyChars (src : list Z) (i : nat) (dst : list Z) : list Z :=
  match src with
  | [] => dst
  | b :: rest => copyChars rest (S i) (<[i := C_char b]> dst)
  end.

(** "Copy final URL directly into C struct". *)
Definition copyFinalURL (finalURL : string) (final_url : list Z) : list Z :=
  let finalURLBytes := byteValues finalURL in
  if (length finalURLBytes <? 2047)%nat then
    <[length finalURLBytes := 0]> (copyChars finalURLBytes 0 final_url)
  else <[0%nat := 0]> final_url.

(** "Count headers". *)
Definition countHeaders (h : gmap string (list string)) : Z :=
  map_fold (λ _ vals headerCount, headerCount + Z.of_nat (length vals)) 0 h.

(** [httpcloak_get_fast_finish].  [malloced] is the block [C.malloc] returned
    for the metadata, with whatever it held. *)
Definition httpcloak_get_fast_finish (t : handles) (malloced : FastResponseMeta)
    (resp : Response) (bodyBytes : bytes) : handles * Z :=
  let meta :=
    {| status_code := int32_t (StatusCode resp);
       body_len := int32_t (Z.of_nat (length bodyBytes));
       protocol := int32_t (protocolToInt (Protocol resp));
       final_url := copyFinalURL (FinalURL resp) (final_url malloced);
       headers_len := int32_t (countHeaders (Headers resp)) |} in
  let fr := {| meta := meta; body := bodyBytes; bodyLen := length bodyBytes;
               headers := Headers resp |} in
  let id := fastResponseID t + 1 in
  ({| fastResponses := <[id := fr]> (fastResponses t); fastResponseID := id |}, id).

(** [httpcloak_get_fast], from the outcome of the request on: [None] when
    the session handle is unknown or [session.Do] failed, else the response
    and the body read from it.  The metadata is filled by the same statements
    as in [httpcloak_get_fast_finish], written out a second time. *)
Definition httpcloak_get_fast (t : handles) (malloced : FastResponseMeta)
    (outcome : option (Response * bytes)) : handles * Z :=
  match outcome with
  | None => (t, -1)
  | Some (resp, bodyBytes) =>
      let finalURLBytes := byteValues (FinalURL resp) in
      let final_url :=
        if (length finalURLBytes <? 2047)%nat then
          <[length finalURLBytes := 0]> (copyChars finalURLBytes 0 (final_url malloced))
        else <[0%nat := 0]> (final_url malloced) in
      let meta :=
        {| status_code := int32_t (StatusCode resp);
           body_len := int32_t (Z.of_nat (length bodyBytes));
           protocol := int32_t (protocolToInt (Protocol resp));
           final_url := final_url;
           headers_len := int32_t (countHeaders (Headers resp)) |} in
      let fr := {| meta := meta; body := bodyBytes; bodyLen := length bodyBytes;
                   headers := Headers resp |} in
      let id := fastResponseID t + 1 in
      ({| fastResponses := <[id := fr]> (fastResponses t); fastResponseID := id |}, id)
  end.

Definition httpcloak_fast_get_meta (t : handles) (handle : Z) : option FastResponseMeta :=
  meta <$> fastResponses t !! handle.

(** How C reads [final_url]: the characters before the first NUL. *)
Fixpoint C_string (buf : list Z) : list Z :=
  match buf with
  | [] => []
  | c :: rest => if c =? 0 then [] else c :: C_string rest
  end.

(** [httpcloak_fast_get_body_ptr]: [None] is the nil pointer. *)
Definition httpcloak_fast_get_body_ptr (t : handles) (handle : Z) : option bytes :=
  match fastResponses t !! handle with
  | Some resp => if (bodyLen resp =? 0)%nat then None else Some (body resp)
  | None => None
  end.

(** [httpcloak_fast_get_body_len]; [C.int] is cgo's 32-bit [int]. *)
Definition httpcloak_fast_get_body_len (t : handles) (handle : Z) : Z :=
  match fastResponses t !! handle with
  | Some resp => int32_t (Z.of_nat (bodyLen resp))
  | None => 0
  end.

(** [httpcloak_fast_free]: the table forgets the handle (the C blocks it
    pointed to are released). *)
Definition httpcloak_fast_free (t : handles) (handle : Z) : handles :=
  match fastResponses t !! handle with
  | Some _ =>
      {| fastResponses := delete handle (fastResponses t);
         fastResponseID := fastResponseID t |}
  | None => t
  end.

(** The calls that change the handle table: the two that hand out a handle
    and [httpcloak_fast_free]. *)
Inductive handleOp :=
  | OpFinish (malloced : FastResponseMeta) (resp : Response) (bodyBytes : bytes)
  | OpGetFast (malloced : FastResponseMeta) (outcome : option (Response * bytes))
  | OpFree (handle : Z).

Definition applyHandleOp (t : handles) (op : handleOp) : handles :=
  match op with
  | OpFinish malloced resp bodyBytes =>
      (httpcloak_get_fast_finish t malloced resp bodyBytes).1
  | OpGetFast malloced outcome => (httpcloak_get_fast t malloced outcome).1
  | OpFree handle => httpcloak_fast_free t handle
  end.

(** The value a call returns to C, for the calls that return one. *)
Definition returned (t : handles) (op : handleOp) : option Z :=
  match op with
  | OpFinish malloced resp bodyBytes =>
      Some (httpcloak_get_fast_finish t malloced resp bodyBytes).2
  | OpGetFast malloced outcome => Some (httpcloak_get_fast t malloced outcome).2
  | OpFree _ => None
  end.

(** The table when the library is loaded: [make(map[int64]*FastResponse)]
    and the zero counter. *)
Definition noHandles : handles := {| fastResponses := ∅; fastResponseID := 0 |}.

End clib.

(** ** The spec's words for the cookie rules of section 4.8

    These three predicates are written from the specification, to be
    compared with [domainMatchesHost], [isPathMatch] and the expiry test of
    the code. *)

(** "A cookie with host_only = true is returned only for an exact-host
    request; a domain cookie (leading dot) is returned for the domain itself
    and any subdomain": the two domain rules of the specification, and
    nothing else. *)
Definition spec_domain_rules (domain host : string) (hostOnly : bool) : Prop :=
  (domain = host ∨
   ∃ base, domain = "." +:+ base ∧ (host = base ∨ ∃ sub, host = sub +:+ domain))
  ∧ (hostOnly = true → domain = host).

(** The two rules together with the case they leave out: a cookie stored
    under the empty domain (by [SetSimple] or [ImportV4]) is global, it
    matches every host.  This is the domain test of the code. *)
Definition spec_domain_match (domain host : string) (hostOnly : bool) : Prop :=
  (domain = "" ∨ domain = host ∨
   ∃ base, domain = "." +:+ base ∧ (host = base ∨ ∃ sub, host = sub +:+ domain))
  ∧ (hostOnly = true → domain = host).

(** "request-path equals cookie-path, or request-path has cookie-path as a
    prefix AND the character at the boundary is [/], or cookie-path ends in
    [/]": the boundary is where the prefix ends, and the slash may stand on
    either side of it. *)
Definition spec_path_match (requestPath cookiePath : string) : Prop :=
  requestPath = cookiePath ∨
  ∃ rest, requestPath = cookiePath +:+ rest
          ∧ ((∃ rest', rest = String "/" rest') ∨ (∃ pre, cookiePath = pre +:+ "/")).

(** "not expired": no expiry, or an expiry that is not before [now]. *)
Definition spec_not_expired (expires : option Z) (now : Z) : Prop :=
  ∀ e, expires = Some e → now ≤ e.

(** RFC 6265 section 5.4, item 2: longer paths first, and among equal path
    lengths earlier creation first. *)
Definition spec_before (a b : session.CookieData) : Prop :=
  (String.length (session.Path b) < String.length (session.Path a))%nat
  ∨ (String.length (session.Path a) = String.length (session.Path b)
     ∧ session.CreatedAt a ≤ session.CreatedAt b).

(** "[name=value; name=value; ...]" *)
Fixpoint spec_cookie_header (cookies : list session.CookieData) : string :=
  match cookies with
  | [] => ""
  | [c] => session.Name c +:+ "=" +:+ session.Value c
  | c :: rest => session.Name c +:+ "=" +:+ session.Value c +:+ "; " +:+ spec_cookie_header rest
  end.

(** The four tests of [Get]'s inner loop, as one decision. *)
Definition passes (domain requestHost requestPath : string) (requestSecure : bool)
    (now : Z) (cookie : session.CookieData) : bool :=
  negb (session.HostOnly cookie && negb (String.eqb domain requestHost))
  && session.isPathMatch requestPath (session.Path cookie)
  && negb (session.Secure cookie && negb requestSecure)
  && negb (session.expiredAt (session.Expires cookie) now).

(** The cookie the jar holds for [(domain, key)], if any. *)
Definition jar_lookup (j : session.CookieJar) (domain key : string)
    : option session.CookieData :=
  j !! domain ≫= (λ domainCookies, domainCookies !! key).

(** "request host MUST be equal to or a subdomain of Domain" *)
Definition spec_host_within (host domain : string) : Prop :=
  host = domain ∨ ∃ sub, host = sub +:+ "." +:+ domain.

(** The spec's batches of section 4.10: CSS and fonts first, scripts
    second, images third. *)
Definition spec_batch (t : session.resourceType) : nat :=
  match t with
  | session.resourceCSS | session.resourceFont => 1
  | session.resourceJS => 2
  | session.resourceImage => 3
  end.

(** The spec's table of section 4.10: Accept, Sec-Fetch-Dest, Sec-Fetch-Mode
    and Priority of each type. *)
Definition spec_header_table (t : session.resourceType)
    : string * string * string * string :=
  match t with
  | session.resourceCSS => ("text/css,*/*;q=0.1", "style", "no-cors", "u=0, i")
  | session.resourceJS => ("*/*", "script", "no-cors", "u=1")
  | session.resourceImage =>
      ("image/avif,image/webp,image/apng,image/svg+xml,image/*,*/*;q=0.8",
       "image", "no-cors", "u=2")
  | session.resourceFont => ("*/*", "font", "cors", "u=3")
  end.

(** The key [Import] files a serialised cookie under. *)
Definition importKey (c : session.CookieState) : string :=
  session.cookieKey (if String.eqb (session.csPath c) "" then "/" else session.csPath c)
    (session.csName c).

(** The byte [c] occurs in [s]. *)
Definition occurs (c : ascii) (s : string) : Prop :=
  ∃ front back, s = front +:+ String c back.

(** The domain key and the host-only flag [ImportV4] gives a v4 cookie. *)
Definition v4Domain (c : session.CookieState) : string :=
  if String.eqb (session.csDomain c) "" then ""
  else strings.ToLower (session.csDomain c).

(** The cookie [ImportV4] stores for a v4 cookie, at instant [now]. *)
Definition v4Cookie (c : session.CookieState) (now : Z) : session.CookieData :=
  {| session.Name := session.csName c; session.Value := session.csValue c;
     session.Domain := v4Domain c;
     session.HostOnly :=
       negb (String.eqb (session.csDomain c) "")
       && negb (strings.HasPrefix (strings.ToLower (session.csDomain c)) ".");
     session.Path := if String.eqb (session.csPath c) "" then "/" else session.csPath c;
     session.Expires := session.csExpires c; session.MaxAge := session.csMaxAge c;
     session.Secure := session.csSecure c; session.HttpOnly := session.csHttpOnly c;
     session.SameSite := session.csSameSite c; session.CreatedAt := now |}.

(** The cookie [Set] stores for [cookie], under [domain] and with the
    host-only flag [hostOnly], at instant [now]. *)
Definition setCookie (cookie : session.CookieData) (domain : string) (hostOnly : bool)
    (now : Z) : session.CookieData :=
  {| session.Name := session.Name cookie; session.Value := session.Value cookie;
     session.Domain := domain; session.HostOnly := hostOnly;
     session.Path :=
       match session.Path cookie with
       | EmptyString => "/"
       | String c _ => if Ascii.eqb c "/" then session.Path cookie else "/"
       end;
     session.Expires := session.Expires cookie; session.MaxAge := session.MaxAge cookie;
     session.Secure := session.Secure cookie; session.HttpOnly := session.HttpOnly cookie;
     session.SameSite := session.SameSite cookie; session.CreatedAt := now |}.

(** ** What a tag asks the warm-up to fetch, in words

    A start tag or self-closing tag asks for a subresource when it is a
    [script] or [img] whose first [src] attribute is not empty, or a [link]
    whose last [href] attribute is not empty and whose last [rel] attribute
    reads, in lower case, [stylesheet], [icon], or [preload] with a last
    [as] attribute among [style], [script], [image] and [font]. *)

Definition firstAttr (z : list (string * string)) (name val : string) : Prop :=
  ∃ pre post, z = pre ++ (name, val) :: post ∧ ∀ v, (name, v) ∉ pre.

Definition lastAttr (z : list (string * string)) (name val : string) : Prop :=
  ∃ pre post, z = pre ++ (name, val) :: post ∧ ∀ v, (name, v) ∉ post.

Definition wants (tok : session.Token) (ref : string) (t : session.resourceType) : Prop :=
  ref ≠ ""
  ∧ ((session.tagName tok = "script" ∧ firstAttr (session.attrs tok) "src" ref
      ∧ t = session.resourceJS)
     ∨ (session.tagName tok = "img" ∧ firstAttr (session.attrs tok) "src" ref
        ∧ t = session.resourceImage)
     ∨ (session.tagName tok = "link" ∧ lastAttr (session.attrs tok) "href" ref
        ∧ ∃ rel, lastAttr (session.attrs tok) "rel" rel
          ∧ ((strings.ToLower rel = "stylesheet" ∧ t = session.resourceCSS)
             ∨ (strings.ToLower rel = "icon" ∧ t = session.resourceImage)
             ∨ (strings.ToLower rel = "preload"
                ∧ ∃ as_, lastAttr (session.attrs tok) "as" as_
                  ∧ ((strings.ToLower as_ = "style" ∧ t = session.resourceCSS)
                     ∨ (strings.ToLower as_ = "script" ∧ t = session.resourceJS)
                     ∨ (strings.ToLower as_ = "image" ∧ t = session.resourceImage)
                     ∨ (strings.ToLower as_ = "font" ∧ t = session.resourceFont)))))).

Definition asks (tok : session.Token) (ref : string) (t : session.resourceType) : Prop :=
  (session.tokenType tok = session.StartTagToken
   ∨ session.tokenType tok = session.SelfClosingTagToken)
  ∧ wants tok ref t.

(** [seen] marks no URL that is not in [resources]. *)
Definition seenSound (seen : gmap string bool) (resources : list session.subresource)
    : Prop :=
  ∀ u, default false (seen !! u) = true → u ∈ session.url <$> resources.

(** Strings on which the byte-wise [strings.ToLower] is Go's. *)
Fixpoint isASCII (s : string) : bool :=
  match s with
  | EmptyString => true
  | String c s' => (nat_of_ascii c <? 128)%nat && isASCII s'
  end.

(** The stored cookies a request matches: what [(domain, key)] holds, when
    it passes the four tests of section 4.8 (with the global cookies). *)
Definition matched (j : session.CookieJar) (now : Z) (requestHost requestPath : string)
    (requestSecure : bool) (domain key : string) (c : session.CookieData) : Prop :=
  jar_lookup j domain key = Some c
  ∧ spec_domain_match domain (session.normalizeRequestHost requestHost) (session.HostOnly c)
  ∧ spec_path_match (if String.eqb requestPath "" then "/" else requestPath) (session.Path c)
  ∧ ¬ (session.Secure c = true ∧ requestSecure = false)
  ∧ spec_not_expired (session.Expires c) now.

(** ** Recency of use, for the TLS cache

    [uses op key]: the call [op] is a [Get] or a [Put] of [key].
    [lastUse ops key]: the position, counted from 1, of the last call of
    [ops] that uses [key]; 0 when none does. *)
Definition uses `{transport.TLSLibrary} (op : transport.lruOp) (key : string) : bool :=
  match op with
  | transport.OpGet k => String.eqb k key
  | transport.OpPut _ k _ => String.eqb k key
  | transport.OpClear => false
  end.

Fixpoint lastUse `{transport.TLSLibrary} (ops : list transport.lruOp) (key : string)
    : nat :=
  match ops with
  | [] => 0
  | op :: rest =>
      match lastUse rest key with
      | O => if uses op key then 1 else 0
      | S n => S (S n)
      end
  end.

(** A call that uses [key] and no other key. *)
Definition usesOnly `{transport.TLSLibrary} (op : transport.lruOp) (key : string) : Prop :=
  uses op key = true ∧ ∀ a, a ≠ key → uses op a = false.

(** Every live handle of the fast binding lies between 1 and the counter. *)
Definition handlesBelow (t : clib.handles) : Prop :=
  0 ≤ clib.fastResponseID t
  ∧ ∀ h, is_Some (clib.fastResponses t !! h) → 1 ≤ h ≤ clib.fastResponseID t.

(** * Properties *)

(** ** Strings *)

Section StringFacts.
Import strings.

Lemma append_nil_l (b : string) : "" +:+ b = b.
Proof. reflexivity. Qed.

Lemma append_cons (c : ascii) (a b : string) : String c a +:+ b = String c (a +:+ b).
Proof. reflexivity. Qed.

Lemma length_append (a b : string) :
  String.length (a +:+ b) = (String.length a + String.length b)%nat.
Proof.
  induction a as [|c a IH]; [done |].
  rewrite append_cons. simpl. by rewrite IH.
Qed.

Lemma append_empty_r (a : string) : a +:+ "" = a.
Proof. induction a as [|c a IH]; [done |]. by rewrite append_cons, IH. Qed.

Lemma append_assoc (a b c : string) : (a +:+ b) +:+ c = a +:+ (b +:+ c).
Proof. induction a as [|x a IH]; [done |]. by rewrite !append_cons, IH. Qed.

Lemma HasPrefix_true (s p : string) :
  HasPrefix s p = true ↔ ∃ rest, s = p +:+ rest.
Proof.
  revert s. induction p as [|c p IH]; intros s; simpl.
  - split; [intros _; by exists s | done].
  - destruct s as [|d s].
    + split; [done | intros [rest Hr]; discriminate Hr].
    + rewrite andb_true_iff, Ascii.eqb_eq, IH. split.
      * intros [-> [rest ->]]. by exists rest.
      * intros [rest Hr]. rewrite append_cons in Hr. injection Hr as -> ->. eauto.
Qed.

Lemma slice_from_append (a b : string) : slice_from (a +:+ b) (String.length a) = b.
Proof.
  induction a as [|c a IH]; [by destruct b |].
  rewrite append_cons. simpl. apply IH.
Qed.

Lemma slice_to_from (s : string) (n : nat) : slice_to s n +:+ slice_from s n = s.
Proof.
  revert s. induction n as [|n IH]; intros s; simpl; [done |].
  destruct s as [|c s]; [done |]. by rewrite append_cons, IH.
Qed.

Lemma HasSuffix_true (s x : string) :
  HasSuffix s x = true ↔ ∃ front, s = front +:+ x.
Proof.
  unfold HasSuffix. rewrite andb_true_iff, Nat.leb_le, String.eqb_eq. split.
  - intros [_ Hx]. exists (slice_to s (String.length s - String.length x)).
    pose proof (slice_to_from s (String.length s - String.length x)) as E.
    by rewrite Hx in E.
  - intros [front ->]. rewrite length_append. split; [lia |].
    replace (String.length front + String.length x - String.length x)%nat
      with (String.length front) by lia.
    apply slice_from_append.
Qed.

Lemma get_append_boundary (a rest : string) :
  String.get (String.length a) (a +:+ rest) = String.get 0 rest.
Proof.
  induction a as [|c a IH]; [done |].
  rewrite append_cons. simpl. apply IH.
Qed.

Lemma slice_from_1_dot (d : string) :
  HasPrefix d "." = true → d = "." +:+ slice_from d 1.
Proof.
  destruct d as [|c d]; simpl; [done |].
  rewrite andb_true_r, Ascii.eqb_eq. intros ->. by destruct d.
Qed.

End StringFacts.

(** ** [sort.Slice] returns a sorted rearrangement *)

Section SortFacts.
Context {A : Type} (less : A → A → bool).

Lemma sink_perm (x : A) (acc : list A) : sink less x acc ≡ₚ x :: acc.
Proof.
  induction acc as [|y acc IH]; simpl; [done |].
  destruct (less x y); [| done].
  rewrite IH. apply Permutation_swap.
Qed.

Lemma sortSlice_perm (data : list A) : sortSlice less data ≡ₚ data.
Proof.
  unfold sortSlice.
  assert (G : ∀ acc, fold_left (λ acc x, sink less x acc) data acc ≡ₚ rev data ++ acc).
  { induction data as [|x data IH]; intros acc; simpl; [done |].
    rewrite IH, sink_perm, <- app_assoc. simpl.
    by rewrite <- Permutation_middle. }
  rewrite <- Permutation_rev, G, app_nil_r. symmetry. apply Permutation_rev.
Qed.

Lemma elem_of_sortSlice (x : A) (data : list A) : x ∈ sortSlice less data ↔ x ∈ data.
Proof. by rewrite sortSlice_perm. Qed.

(** [less] is a strict weak order: asymmetric, and "not less" is transitive. *)
Hypothesis less_asym : ∀ a b, less a b = true → less b a = false.
Hypothesis not_less_trans : ∀ a b c, less a b = false → less b c = false → less a c = false.

Lemma sink_sorted (x : A) (acc : list A) :
  StronglySorted (λ a b, less a b = false) acc →
  StronglySorted (λ a b, less a b = false) (sink less x acc).
Proof.
  induction 1 as [|y acc Hs IH Hy]; simpl.
  - repeat constructor.
  - destruct (less x y) eqn:Hxy.
    + constructor; [done |].
      eapply Forall_forall. intros z Hz. rewrite sink_perm in Hz.
      apply elem_of_cons in Hz as [-> | Hz]; [by apply less_asym |].
      by eapply Forall_forall in Hy.
    + constructor; [by constructor |].
      constructor; [done |].
      eapply Forall_impl; [exact Hy |]. simpl. intros z Hz. by eapply not_less_trans.
Qed.

Lemma StronglySorted_rev_flip (R : A → A → Prop) (l : list A) :
  StronglySorted R l → StronglySorted (flip R) (rev l).
Proof.
  induction 1 as [|x l Hs IH Hx]; simpl; [constructor |].
  apply StronglySorted_app_2; [| done | repeat constructor].
  intros a b Ha Hb. apply list_elem_of_singleton in Hb as ->.
  rewrite <- Permutation_rev in Ha. unfold flip. by eapply Forall_forall in Hx.
Qed.

Lemma sortSlice_sorted (data : list A) :
  StronglySorted (λ a b, less b a = false) (sortSlice less data).
Proof.
  unfold sortSlice.
  apply (StronglySorted_rev_flip (λ a b, less a b = false)).
  assert (G : ∀ acc, StronglySorted (λ a b, less a b = false) acc →
                     StronglySorted (λ a b, less a b = false)
                       (fold_left (λ acc x, sink less x acc) data acc)).
  { induction data as [|x data IH]; intros acc Hacc; simpl; [done |].
    apply IH. by apply sink_sorted. }
  apply G. constructor.
Qed.

End SortFacts.

(** ** The cookie jar *)

Section CookieJarFacts.
Import session.

Lemma isPathMatch_spec (requestPath cookiePath : string) :
  isPathMatch requestPath cookiePath = true ↔ spec_path_match requestPath cookiePath.
Proof.
  unfold isPathMatch, spec_path_match.
  destruct (String.eqb requestPath cookiePath) eqn:Heq.
  { apply String.eqb_eq in Heq. tauto. }
  apply String.eqb_neq in Heq.
  destruct (strings.HasPrefix requestPath cookiePath) eqn:Hpre.
  - apply HasPrefix_true in Hpre as [rest ->].
    destruct (strings.HasSuffix cookiePath "/") eqn:Hsuf.
    + apply HasSuffix_true in Hsuf. split; [| done]. intros _. right. eauto.
    + rewrite get_append_boundary, length_append.
      split.
      * intros Hb. right. exists rest. split; [done |]. left.
        destruct rest as [|c rest]; simpl in Hb.
        { rewrite andb_false_r in Hb. discriminate. }
        destruct (_ <? _)%nat; simpl in Hb; [| discriminate].
        case_bool_decide as Hc; [| discriminate]. injection Hc as ->. eauto.
      * intros [? | (rest0 & Hr & [[rest' ->] | Hp])]; [done | |].
        -- assert (rest = String "/" rest') as ->.
           { clear -Hr. induction cookiePath as [|c cp IH]; [done |].
             rewrite !append_cons in Hr. injection Hr as Hr. auto. }
           simpl.
           destruct (_ <? _)%nat eqn:Hlt; [done |].
           apply Nat.ltb_ge in Hlt. lia.
        -- apply HasSuffix_true in Hp. congruence.
  - split; [done |]. intros [? | (rest & -> & _)]; [done |].
    assert (strings.HasPrefix (cookiePath +:+ rest) cookiePath = true)
      by (apply HasPrefix_true; eauto).
    congruence.
Qed.

Lemma domainMatchesHost_spec (domain host : string) :
  domainMatchesHost domain host = true ↔
  domain = "" ∨ domain = host ∨
  ∃ base, domain = "." +:+ base ∧ (host = base ∨ ∃ sub, host = sub +:+ domain).
Proof.
  unfold domainMatchesHost.
  destruct (String.eqb domain "") eqn:He.
  { apply String.eqb_eq in He. tauto. }
  apply String.eqb_neq in He.
  destruct (String.eqb domain host) eqn:Hh.
  { apply String.eqb_eq in Hh. tauto. }
  apply String.eqb_neq in Hh.
  destruct (strings.HasPrefix domain ".") eqn:Hdot.
  - pose proof (slice_from_1_dot _ Hdot) as Hd.
    destruct (String.eqb host (strings.slice_from domain 1)) eqn:Hb.
    { apply String.eqb_eq in Hb. split; [| done]. intros _. right. right. eauto. }
    apply String.eqb_neq in Hb.
    destruct (strings.HasSuffix host domain) eqn:Hs.
    + apply HasSuffix_true in Hs. split; [| done]. intros _. right. right. eauto.
    + split; [done |]. intros [? | [? | (base & Hbase & [-> | Hsub])]]; [done | done | |].
      * rewrite Hbase in Hb. by destruct base.
      * apply HasSuffix_true in Hsub. congruence.
  - split; [done |]. intros [? | [? | (base & -> & _)]]; [done | done |].
    discriminate Hdot.
Qed.

Lemma expiredAt_false (expires : option Z) (now : Z) :
  expiredAt expires now = false ↔ spec_not_expired expires now.
Proof.
  unfold expiredAt, spec_not_expired. destruct expires as [e|].
  - rewrite Z.ltb_ge. split; [intros ? ? [= <-]; lia | eauto].
  - split; [done | done].
Qed.

Lemma rangeDomainCookies_cons domain host path secure now k (c : CookieData) l acc :
  rangeDomainCookies domain host path secure now ((k, c) :: l) acc =
  rangeDomainCookies domain host path secure now l
    (if passes domain host path secure now c then acc ++ [c] else acc).
Proof.
  unfold passes. simpl.
  destruct (HostOnly c && negb (String.eqb domain host)); [done |].
  destruct (isPathMatch path (Path c)); [| done].
  destruct (Secure c && negb secure); [done |].
  by destruct (expiredAt (Expires c) now).
Qed.

Lemma rangeDomainCookies_elem domain host path secure now l acc (x : CookieData) :
  x ∈ rangeDomainCookies domain host path secure now l acc ↔
  x ∈ acc ∨ ∃ k, (k, x) ∈ l ∧ passes domain host path secure now x = true.
Proof.
  revert acc. induction l as [|[k c] l IH]; intros acc.
  { simpl. split; [auto | intros [? | (k & Hk & _)]; [done | by apply elem_of_nil in Hk]]. }
  rewrite rangeDomainCookies_cons, IH.
  destruct (passes domain host path secure now c) eqn:Hc.
  - rewrite elem_of_app, list_elem_of_singleton. split.
    + intros [[? | ->] | (k0 & Hk0 & Hp)]; [auto | |].
      * right. exists k. split; [apply elem_of_cons; by left | done].
      * right. exists k0. split; [apply elem_of_cons; by right | done].
    + intros [? | (k0 & Hk0 & Hp)]; [auto |].
      apply elem_of_cons in Hk0 as [[= -> ->] | ?]; [auto | eauto].
  - split; intros [? | (k0 & Hk0 & Hp)]; auto.
    + right. exists k0. split; [apply elem_of_cons; by right | done].
    + apply elem_of_cons in Hk0 as [[= -> ->] | ?]; [congruence | eauto].
Qed.

Lemma rangeCookies_elem host path secure now l acc (x : CookieData) :
  x ∈ rangeCookies host path secure now l acc ↔
  x ∈ acc ∨ ∃ domain dc k, (domain, dc) ∈ l ∧ dc !! k = Some x
                           ∧ domainMatchesHost domain host = true
                           ∧ passes domain host path secure now x = true.
Proof.
  revert acc. induction l as [|[d dc] l IH]; intros acc; simpl.
  { split; [auto | intros [? | (d & dc & k & Hk & _)]; [done | by apply elem_of_nil in Hk]]. }
  destruct (domainMatchesHost d host) eqn:Hd; simpl; rewrite IH.
  - rewrite rangeDomainCookies_elem. split.
    + intros [[? | (k & Hk & Hp)] | (d0 & dc0 & k & Hin & Hrest)]; [auto | |].
      * right. exists d, dc, k. apply elem_of_map_to_list in Hk.
        split; [apply elem_of_cons; by left | done].
      * right. exists d0, dc0, k. split; [apply elem_of_cons; by right | done].
    + intros [? | (d0 & dc0 & k & Hin & Hk & Hm & Hp)]; [auto |].
      apply elem_of_cons in Hin as [[= -> ->] | Hin].
      * left. right. exists k. by rewrite elem_of_map_to_list.
      * right. exists d0, dc0, k. done.
  - split.
    + intros [? | (d0 & dc0 & k & Hin & Hrest)]; [auto |].
      right. exists d0, dc0, k. split; [apply elem_of_cons; by right | done].
    + intros [? | (d0 & dc0 & k & Hin & Hk & Hm & Hp)]; [auto |].
      apply elem_of_cons in Hin as [[= -> ->] | Hin]; [congruence |].
      right. exists d0, dc0, k. done.
Qed.

Lemma passes_spec domain host path secure now (c : CookieData) :
  domainMatchesHost domain host = true ∧ passes domain host path secure now c = true ↔
  spec_domain_match domain host (HostOnly c)
  ∧ spec_path_match path (Path c)
  ∧ ¬ (Secure c = true ∧ secure = false)
  ∧ spec_not_expired (Expires c) now.
Proof.
  unfold passes, spec_domain_match.
  rewrite !andb_true_iff, !negb_true_iff, domainMatchesHost_spec, isPathMatch_spec,
    expiredAt_false.
  assert (Hho : HostOnly c && negb (String.eqb domain host) = false
                ↔ (HostOnly c = true → domain = host)).
  { destruct (HostOnly c); simpl; [| done].
    rewrite negb_false_iff, String.eqb_eq. intuition congruence. }
  assert (Hsec : Secure c && negb secure = false ↔ ¬ (Secure c = true ∧ secure = false)).
  { destruct (Secure c), secure; simpl; intuition congruence. }
  rewrite Hho, Hsec. tauto.
Qed.

End CookieJarFacts.

Lemma Get_elem_of (j : session.CookieJar) (now : Z)
    (requestHost requestPath : string) (requestSecure : bool) (c : session.CookieData) :
  c ∈ session.Get j now requestHost requestPath requestSecure ↔
  ∃ (d : string) (domainCookies : gmap string session.CookieData) (k : string),
    j !! d = Some domainCookies ∧ domainCookies !! k = Some c
    ∧ spec_domain_match d (session.normalizeRequestHost requestHost) (session.HostOnly c)
    ∧ spec_path_match (if String.eqb requestPath "" then "/" else requestPath) (session.Path c)
    ∧ ¬ (session.Secure c = true ∧ requestSecure = false)
    ∧ spec_not_expired (session.Expires c) now.
Proof.
  unfold session.Get. rewrite elem_of_sortSlice, rangeCookies_elem. split.
  - intros [Hnil | (d & dc & k & Hin & Hk & Hm & Hp)]; [by apply elem_of_nil in Hnil |].
    exists d, dc, k. apply elem_of_map_to_list in Hin.
    split; [done |]. split; [done |]. by apply passes_spec.
  - intros (d & dc & k & Hd & Hk & Hspec). right. exists d, dc, k.
    apply passes_spec in Hspec as [Hm Hp].
    by rewrite elem_of_map_to_list.
Qed.

(** C1, amended.  For every jar, every cookie [c] and every request, [Get]
    returns [c] exactly when [c] is stored in the jar, under some domain [d],
    and: [d] matches the request host by one of the two domain rules or [d]
    is the empty domain of the global cookies (a host-only cookie only when
    [d] is that host), [c]'s path matches the request path, [c] is not a
    Secure cookie asked for over plain HTTP, and [c] has not expired at
    [now].  The request host and path are the ones [Get] works with: the
    host lower-cased and without its port, the empty path read as [/]. *)
Theorem Get_includes_iff (j : session.CookieJar) (now : Z)
    (requestHost requestPath : string) (requestSecure : bool) (c : session.CookieData) :
  c ∈ session.Get j now requestHost requestPath requestSecure ↔
  ∃ (d : string) (domainCookies : gmap string session.CookieData) (k : string),
    j !! d = Some domainCookies ∧ domainCookies !! k = Some c
    ∧ spec_domain_match d (session.normalizeRequestHost requestHost) (session.HostOnly c)
    ∧ spec_path_match (if String.eqb requestPath "" then "/" else requestPath) (session.Path c)
    ∧ ¬ (session.Secure c = true ∧ requestSecure = false)
    ∧ spec_not_expired (session.Expires c) now.
Proof. apply Get_elem_of. Qed.

(** C1, as stated, fails: with the two domain rules alone a cookie is sent
    only to its own host or, with a leading dot, to its domain and the
    subdomains.  The cookie of [SetSimple] is stored under the empty domain
    and nowhere else, the empty domain matches [example.com] by neither
    rule, and [Get] returns the cookie for [example.com] all the same. *)
Lemma Get_sends_global_cookie_to_every_host :
  ∃ c : session.CookieData,
    session.Get (session.SetSimple ∅ 7 "sid" "abc") 9 "example.com" "/" false = [c]
    ∧ session.Domain c = ""
    ∧ session.HostOnly c = false
    ∧ (∀ d domainCookies k,
         session.SetSimple ∅ 7 "sid" "abc" !! d = Some domainCookies →
         domainCookies !! k = Some c → d = "")
    ∧ ¬ spec_domain_rules "" (session.normalizeRequestHost "example.com")
          (session.HostOnly c).
Proof.
  eexists. split; [vm_compute; reflexivity |].
  split; [reflexivity |]. split; [reflexivity |]. split.
  - intros d domainCookies k Hd _. unfold session.SetSimple in Hd.
    destruct (decide (d = "")) as [-> | Hne]; [done |].
    rewrite lookup_insert_ne in Hd by done. by rewrite lookup_empty in Hd.
  - intros [[Heq | (base & Hbase & _)] _]; [by vm_compute in Heq | discriminate Hbase].
Qed.

Section CookieOrderFacts.
Import session.

Lemma pathThenAge_asym (a b : CookieData) :
  pathThenAge a b = true → pathThenAge b a = false.
Proof.
  unfold pathThenAge.
  destruct (String.length (Path a) =? String.length (Path b))%nat eqn:Hab;
    [apply Nat.eqb_eq in Hab | apply Nat.eqb_neq in Hab]; simpl.
  - rewrite Hab, Nat.eqb_refl. simpl. rewrite Z.ltb_lt, Z.ltb_ge. lia.
  - destruct (String.length (Path b) =? String.length (Path a))%nat eqn:Hba;
      [apply Nat.eqb_eq in Hba; lia |]. simpl.
    rewrite Nat.ltb_lt, Nat.ltb_ge. lia.
Qed.

Lemma pathThenAge_false (a b : CookieData) :
  pathThenAge b a = false ↔ spec_before a b.
Proof.
  unfold pathThenAge, spec_before.
  destruct (String.length (Path b) =? String.length (Path a))%nat eqn:Hba;
    [apply Nat.eqb_eq in Hba | apply Nat.eqb_neq in Hba]; simpl.
  - rewrite Z.ltb_ge. lia.
  - rewrite Nat.ltb_ge. lia.
Qed.

Lemma pathThenAge_not_less_trans (a b c : CookieData) :
  pathThenAge a b = false → pathThenAge b c = false → pathThenAge a c = false.
Proof. rewrite !pathThenAge_false. unfold spec_before. lia. Qed.

Lemma StronglySorted_weaken {A} (R S : A → A → Prop) (l : list A) :
  (∀ a b, R a b → S a b) → StronglySorted R l → StronglySorted S l.
Proof.
  intros HRS. induction 1 as [|x l Hs IH Hx]; constructor; [done |].
  eapply Forall_impl; [exact Hx | auto].
Qed.

Lemma collect_parts (cookies : list CookieData) (parts : list string) :
  fold_left (λ parts c, parts ++ [Name c +:+ "=" +:+ Value c]) cookies parts
  = parts ++ ((λ c, Name c +:+ "=" +:+ Value c) <$> cookies).
Proof.
  revert parts. induction cookies as [|c cookies IH]; intros parts; simpl.
  - by rewrite app_nil_r.
  - by rewrite IH, <- app_assoc.
Qed.

Lemma Join_parts (cookies : list CookieData) :
  strings.Join ((λ c, Name c +:+ "=" +:+ Value c) <$> cookies) "; "
  = spec_cookie_header cookies.
Proof.
  induction cookies as [|c cookies IH]; [done |].
  destruct cookies as [|c' cookies]; [done |].
  change (strings.Join ((λ c, Name c +:+ "=" +:+ Value c) <$> c :: c' :: cookies) "; ")
    with ((Name c +:+ "=" +:+ Value c) +:+ "; "
          +:+ strings.Join ((λ c, Name c +:+ "=" +:+ Value c) <$> c' :: cookies) "; ").
  rewrite IH. simpl. by rewrite !append_assoc.
Qed.

End CookieOrderFacts.

Section CookieMatchFacts.
Import session.

Lemma rangeDomainCookies_filter domain host path secure now
    (l : list (string * CookieData)) (acc : list CookieData) :
  rangeDomainCookies domain host path secure now l acc
  = acc ++ (filter (λ kc, passes domain host path secure now kc.2 = true) l).*2.
Proof.
  revert acc. induction l as [|[k c] l IH]; intros acc; [simpl; by rewrite app_nil_r |].
  rewrite rangeDomainCookies_cons, IH, filter_cons. simpl.
  destruct (passes domain host path secure now c) eqn:Hp.
  - rewrite decide_True by done. simpl. by rewrite <- app_assoc.
  - by rewrite decide_False by congruence.
Qed.

(** The loops of [Get] append one entry for each slot [(domain, key)] of
    the jar whose cookie passes, and nothing else. *)
Lemma rangeCookies_slots host path secure now
    (l : list (string * gmap string CookieData)) (acc : list CookieData) :
  NoDup l.*1 →
  ∃ slots : list (string * string * CookieData),
    rangeCookies host path secure now l acc = acc ++ slots.*2
    ∧ NoDup slots.*1
    ∧ ∀ d k c, (d, k, c) ∈ slots ↔
        ∃ dc, (d, dc) ∈ l ∧ dc !! k = Some c ∧ domainMatchesHost d host = true
              ∧ passes d host path secure now c = true.
Proof.
  revert acc. induction l as [|[d dc] l IH]; intros acc Hnd.
  { exists []. simpl. rewrite app_nil_r. split; [done |]. split; [constructor |].
    intros d k c. split; [by intros ?%elem_of_nil |].
    by intros (dc & ?%elem_of_nil & _). }
  rewrite fmap_cons in Hnd. apply NoDup_cons in Hnd as [Hd Hnd]. simpl in Hd.
  cbn [rangeCookies].
  destruct (domainMatchesHost d host) eqn:Hm; simpl.
  - destruct (IH (rangeDomainCookies d host path secure now (map_to_list dc) acc) Hnd)
      as (slots & Heq & Hnd' & Hiff).
    set (here := filter (λ kc : string * CookieData,
                           passes d host path secure now kc.2 = true) (map_to_list dc)).
    exists (((λ kc : string * CookieData, (d, kc.1, kc.2)) <$> here) ++ slots).
    split; [| split].
    + rewrite Heq, rangeDomainCookies_filter, fmap_app, <- app_assoc. do 2 f_equal.
      rewrite <- list_fmap_compose. by apply list_fmap_ext.
    + rewrite fmap_app. apply NoDup_app. split; [| split; [| done]].
      * rewrite <- list_fmap_compose.
        assert (Heq2 : (fst ∘ (λ kc : string * CookieData, (d, kc.1, kc.2))) <$> here
                       = pair d <$> here.*1).
        { rewrite <- list_fmap_compose. by apply list_fmap_ext. }
        rewrite Heq2. apply NoDup_fmap_2; [by intros a b [= ->] |].
        eapply sublist_NoDup; [apply (NoDup_fst_map_to_list dc) |].
        apply fmap_sublist, sublist_filter.
      * intros x Hx Hx'. apply list_elem_of_fmap in Hx as ([[d0 k0] c0] & -> & Hx).
        apply list_elem_of_fmap in Hx as ([k1 c1] & [= -> -> ->] & _).
        apply list_elem_of_fmap in Hx' as ([[d2 k2] c2] & [= <- <-] & Hx').
        apply Hiff in Hx' as (dc' & Hin & _). apply Hd.
        apply list_elem_of_fmap. by exists (d, dc').
    + intros d0 k c. rewrite elem_of_app, Hiff. split.
      * intros [Hin | (dc' & Hin & Hrest)].
        -- apply list_elem_of_fmap in Hin as ([k1 c1] & [= -> -> ->] & Hin).
           apply list_elem_of_filter in Hin as [Hp Hin]. simpl in Hp.
           apply elem_of_map_to_list in Hin.
           exists dc. split; [by left | done].
        -- exists dc'. split; [by right | done].
      * intros (dc' & Hin & Hk & Hm' & Hp).
        apply elem_of_cons in Hin as [[= -> ->] | Hin].
        -- left. apply list_elem_of_fmap. exists (k, c). split; [done |].
           apply list_elem_of_filter. split; [done | by apply elem_of_map_to_list].
        -- right. by exists dc'.
  - destruct (IH acc Hnd) as (slots & Heq & Hnd' & Hiff).
    exists slots. split; [done |]. split; [done |].
    intros d0 k c. rewrite Hiff. split.
    + intros (dc' & Hin & Hrest). exists dc'. split; [by right | done].
    + intros (dc' & Hin & Hk & Hm' & Hp).
      apply elem_of_cons in Hin as [[= -> ->] | Hin]; [congruence |].
      by exists dc'.
Qed.

(** [Get] returns, in some order, one entry for each slot of the jar whose
    cookie the request matches. *)
Lemma Get_slots (j : CookieJar) (now : Z) (requestHost requestPath : string)
    (requestSecure : bool) :
  ∃ slots : list (string * string * CookieData),
    NoDup slots.*1
    ∧ (∀ d k c, (d, k, c) ∈ slots
                ↔ matched j now requestHost requestPath requestSecure d k c)
    ∧ Get j now requestHost requestPath requestSecure ≡ₚ slots.*2.
Proof.
  unfold Get.
  destruct (rangeCookies_slots (normalizeRequestHost requestHost)
              (if String.eqb requestPath "" then "/" else requestPath)
              requestSecure now (map_to_list j) [] (NoDup_fst_map_to_list j))
    as (slots & Heq & Hnd & Hiff).
  exists slots. split; [done |]. split.
  - intros d k c. rewrite Hiff. unfold matched, jar_lookup. split.
    + intros (dc & Hin & Hk & Hm & Hp). apply elem_of_map_to_list in Hin.
      rewrite Hin. simpl. split; [done |]. by apply passes_spec.
    + intros (Hlook & Hspec). destruct (j !! d) as [dc|] eqn:Hd; [| done].
      simpl in Hlook. exists dc. split; [by apply elem_of_map_to_list |].
      split; [done |]. by apply passes_spec.
  - rewrite sortSlice_perm, Heq. done.
Qed.

End CookieMatchFacts.

(** C8. For every jar and request, the list [Get] returns is sorted: of two
    cookies the earlier one has the longer path, or a path of the same length
    and a creation time that is not later.  [BuildCookieHeader] renders
    exactly that list, in that order, as [name=value] pairs joined by ["; "].
    And that list is made of the matched cookies, each once: it holds, in
    the sorted order, one entry for each slot [(domain, key)] of the jar
    whose cookie the request matches, and no other entry. *)
Theorem Get_sorted_BuildCookieHeader (j : session.CookieJar) (now : Z)
    (requestHost requestPath : string) (requestSecure : bool) :
  StronglySorted spec_before (session.Get j now requestHost requestPath requestSecure)
  ∧ session.BuildCookieHeader j now requestHost requestPath requestSecure
    = spec_cookie_header (session.Get j now requestHost requestPath requestSecure)
  ∧ ∃ slots : list (string * string * session.CookieData),
      NoDup slots.*1
      ∧ (∀ d k c, (d, k, c) ∈ slots
                  ↔ matched j now requestHost requestPath requestSecure d k c)
      ∧ session.Get j now requestHost requestPath requestSecure ≡ₚ slots.*2.
Proof.
  split; [| split; [| apply Get_slots]].
  - unfold session.Get.
    eapply StronglySorted_weaken;
      [| apply sortSlice_sorted;
         [apply pathThenAge_asym | apply pathThenAge_not_less_trans]].
    intros a b. apply pathThenAge_false.
  - unfold session.BuildCookieHeader.
    destruct (session.Get j now requestHost requestPath requestSecure) as [|c l]; [done |].
    cbv zeta. change (length (c :: l) =? 0)%nat with false. cbv iota.
    rewrite collect_parts. apply Join_parts.
Qed.

Section CookieStoreFacts.
Import session.

Lemma jar_lookup_store (j : CookieJar) (d k : string) (v : CookieData) (d' k' : string) :
  jar_lookup (<[d := <[k := v]> (default ∅ (j !! d))]> j) d' k'
  = if decide ((d', k') = (d, k)) then Some v else jar_lookup j d' k'.
Proof.
  unfold jar_lookup. destruct (decide (d' = d)) as [-> | Hd].
  - rewrite lookup_insert_eq. simpl. destruct (decide (k' = k)) as [-> | Hk].
    + rewrite lookup_insert_eq. by rewrite decide_True.
    + rewrite lookup_insert_ne by done. rewrite decide_False by congruence.
      by destruct (j !! d).
  - rewrite lookup_insert_ne by done. by rewrite decide_False by congruence.
Qed.

Lemma isDomainMatch_spec (host domain : string) :
  isDomainMatch host domain = true ↔ spec_host_within host domain.
Proof.
  unfold isDomainMatch, spec_host_within.
  destruct (String.eqb host domain) eqn:He.
  { apply String.eqb_eq in He. tauto. }
  apply String.eqb_neq in He.
  destruct (strings.HasSuffix host ("." +:+ domain)) eqn:Hs.
  - apply HasSuffix_true in Hs. tauto.
  - split; [done |]. intros [? | Hsub]; [done |].
    apply HasSuffix_true in Hsub. congruence.
Qed.

End CookieStoreFacts.

(** C2. [Set] returns the jar as it was when the cookie is Secure and the
    request was not over HTTPS, or when the Domain attribute is not empty and
    the request host is neither that domain nor a subdomain of it.  In every
    other case one cookie is written and every other [(domain, key)] of the
    jar keeps what it held; the cookie written is host-only under the request
    host when the Domain attribute is empty, and not host-only under the
    dotted domain when it is not.  The request host is the normalised one
    (lower case, no port); the domain of the attribute is compared in lower
    case and without its leading dot. *)
Theorem Set_rejects_or_stores_one (j : session.CookieJar) (now : Z)
    (requestHost : string) (cookie : session.CookieData) (requestSecure : bool) :
  let host := session.normalizeRequestHost requestHost in
  let attr := strings.TrimPrefix (strings.ToLower (session.Domain cookie)) "." in
  let j' := session.Set_ j now requestHost cookie requestSecure in
  let rejected :=
    (session.Secure cookie = true ∧ requestSecure = false)
    ∨ (session.Domain cookie ≠ "" ∧ ¬ spec_host_within host attr) in
  (rejected → j' = j)
  ∧ (¬ rejected →
     ∃ stored : session.CookieData,
       let d := session.Domain stored in
       let k := session.cookieKey (session.Path stored) (session.Name stored) in
       jar_lookup j' d k = Some stored
       ∧ (∀ d' k', (d', k') ≠ (d, k) → jar_lookup j' d' k' = jar_lookup j d' k')
       ∧ (session.Domain cookie = "" →
          session.HostOnly stored = true ∧ session.Domain stored = host)
       ∧ (session.Domain cookie ≠ "" →
          session.HostOnly stored = false ∧ session.Domain stored = "." +:+ attr)
       ∧ session.Name stored = session.Name cookie
       ∧ session.Value stored = session.Value cookie
       ∧ session.Secure stored = session.Secure cookie
       ∧ session.Expires stored = session.Expires cookie
       ∧ session.CreatedAt stored = now).
Proof.
  intros host attr j' rejected. subst j' rejected. unfold session.Set_.
  fold host. fold attr.
  destruct (String.eqb (session.Domain cookie) "") eqn:Hdom;
    [apply String.eqb_eq in Hdom | apply String.eqb_neq in Hdom].
  - destruct (session.Secure cookie && negb requestSecure) eqn:Hsec.
    + split; [done |]. intros Hn. exfalso. apply Hn. left.
      by destruct (session.Secure cookie), requestSecure.
    + split.
      { intros [[Hs ->] | [? _]]; [by rewrite Hs in Hsec | done]. }
      intros _. eexists. cbv zeta. simpl.
      split; [rewrite jar_lookup_store; by rewrite decide_True |].
      split; [intros d' k' Hne; rewrite jar_lookup_store; by rewrite decide_False |].
      done.
  - destruct (session.isDomainMatch host attr) eqn:Hmatch; simpl.
    + apply isDomainMatch_spec in Hmatch.
      destruct (session.Secure cookie && negb requestSecure) eqn:Hsec.
      * split; [done |]. intros Hn. exfalso. apply Hn. left.
        by destruct (session.Secure cookie), requestSecure.
      * split.
        { intros [[Hs ->] | [_ ?]]; [by rewrite Hs in Hsec | done]. }
        intros _. eexists. cbv zeta. simpl.
        split; [rewrite jar_lookup_store; by rewrite decide_True |].
        split; [intros d' k' Hne; rewrite jar_lookup_store; by rewrite decide_False |].
        done.
    + split; [done |]. intros Hn. exfalso. apply Hn. right. split; [done |].
      rewrite <- isDomainMatch_spec. congruence.
Qed.

(** C9, as the code has it.  The cookie that [SetSimple] writes lies under
    the empty domain, and [Get] returns it for every request host, both
    secure flags, and every request path that is empty or begins with [/]. *)
Theorem SetSimple_sent_to_every_origin (j : session.CookieJar) (now : Z)
    (name value : string) (now' : Z)
    (requestHost requestPath : string) (requestSecure : bool) :
  (requestPath = "" ∨ ∃ rest, requestPath = String "/" rest) →
  let j' := session.SetSimple j now name value in
  let c := {| session.Name := name; session.Value := value; session.Domain := "";
              session.HostOnly := false; session.Path := "/"; session.Expires := None;
              session.MaxAge := 0; session.Secure := false; session.HttpOnly := false;
              session.SameSite := ""; session.CreatedAt := now |} in
  jar_lookup j' "" (session.cookieKey "/" name) = Some c
  ∧ c ∈ session.Get j' now' requestHost requestPath requestSecure.
Proof.
  intros Hpath j' c. subst j'. unfold session.SetSimple.
  split; [rewrite jar_lookup_store; by rewrite decide_True |].
  apply Get_elem_of. eexists "", _, (session.cookieKey "/" name).
  split; [apply lookup_insert_eq |].
  split; [apply lookup_insert_eq |].
  split; [split; [by left | done] |].
  split; [| split; [by intros [? _] | by intros ? ?]].
  destruct Hpath as [-> | [rest ->]]; [by left |]. simpl.
  right. exists rest. split; [done |]. right. by exists "".
Qed.

Lemma SetSimple_sent_to_every_origin_witness :
  jar_lookup (session.SetSimple ∅ 7 "sid" "abc") "" (session.cookieKey "/" "sid")
  = Some {| session.Name := "sid"; session.Value := "abc"; session.Domain := "";
            session.HostOnly := false; session.Path := "/"; session.Expires := None;
            session.MaxAge := 0; session.Secure := false; session.HttpOnly := false;
            session.SameSite := ""; session.CreatedAt := 7 |}
  ∧ {| session.Name := "sid"; session.Value := "abc"; session.Domain := "";
       session.HostOnly := false; session.Path := "/"; session.Expires := None;
       session.MaxAge := 0; session.Secure := false; session.HttpOnly := false;
       session.SameSite := ""; session.CreatedAt := 7 |}
    ∈ session.Get (session.SetSimple ∅ 7 "sid" "abc") 9 "Shop.Example.com:8443" "/cart" false.
Proof.
  apply (SetSimple_sent_to_every_origin ∅ 7 "sid" "abc" 9 "Shop.Example.com:8443" "/cart" false).
  right. by exists "cart".
Defined.

(** C9, as stated, fails: a request path that does not begin with [/] (and
    is not empty) does not match the cookie's path [/], so the cookie is not
    returned. *)
Lemma SetSimple_not_sent_for_relative_path :
  session.Get (session.SetSimple ∅ 7 "sid" "abc") 9 "example.com" "index.html" false = [].
Proof. vm_compute. reflexivity. Qed.

(** ** The TLS session cache *)

Section SessionCacheFacts.
Import transport.
Context `{TLSLibrary}.

Lemma importEntry_other now c key s key' :
  key' ≠ key → sessions (importEntry now c key s) !! key' = sessions c !! key'.
Proof.
  intros Hne. unfold importEntry.
  destruct (TLSSessionMaxAge <? now - tsCreatedAt s); [done |].
  destruct (decodeSession s); [| done].
  simpl. by rewrite lookup_insert_ne.
Qed.

Lemma importSessions_absent now entries c key :
  key ∉ entries.*1 → sessions (importSessions now entries c) !! key = sessions c !! key.
Proof.
  revert c. induction entries as [|[k s] entries IH]; intros c Hk; simpl; [done |].
  simpl in Hk. apply not_elem_of_cons in Hk as [Hne Hk].
  rewrite IH by done. by apply importEntry_other.
Qed.

Lemma importSessions_present now entries c key s :
  NoDup entries.*1 → (key, s) ∈ entries →
  sessions (importSessions now entries c) !! key = sessions (importEntry now c key s) !! key.
Proof.
  revert c. induction entries as [|[k s'] entries IH]; intros c Hnd Hin; simpl.
  { by apply elem_of_nil in Hin. }
  simpl in Hnd. apply NoDup_cons in Hnd as [Hk Hnd].
  apply elem_of_cons in Hin as [[= -> ->] | Hin].
  - by apply importSessions_absent.
  - rewrite IH by done.
    assert (key ≠ k).
    { intros ->. apply Hk. apply list_elem_of_fmap. by exists (k, s). }
    unfold importEntry at 1 3.
    destruct (TLSSessionMaxAge <? now - tsCreatedAt s); [by apply importEntry_other |].
    destruct (decodeSession s); [| by apply importEntry_other].
    simpl. by rewrite !lookup_insert_eq.
Qed.

Lemma enforceMaxSize_subseteq (m : gmap string cachedSession) (order : list string) :
  sessions (enforceMaxSize m order) ⊆ m.
Proof.
  revert m. induction order as [|oldest order IH]; intros m; simpl; [done |].
  destruct (TLSSessionCacheMaxSize <? size m)%nat; [| done].
  etrans; [apply IH | apply delete_subseteq].
Qed.

Lemma enforceMaxSize_within (m : gmap string cachedSession) (order : list string) :
  (size m ≤ TLSSessionCacheMaxSize)%nat →
  enforceMaxSize m order = {| sessions := m; accessOrder := order |}.
Proof.
  intros Hle. destruct order as [|oldest order]; simpl; [done |].
  destruct (TLSSessionCacheMaxSize <? size m)%nat eqn:Hlt; [| done].
  apply Nat.ltb_lt in Hlt. lia.
Qed.

End SessionCacheFacts.

(** C4, as the code has it.  Whatever order the map yields its entries in:
    an entry created more than 24 hours before [now] is not inserted (a
    session found under its key after [Import] was there before); an entry
    that is not older and whose ticket and state decode is written to the
    cache with its CreatedAt, and is still there when [Import] returns
    provided the cache then holds at most 32 sessions. *)
Theorem Import_age_filter `{transport.TLSLibrary}
    (c : transport.PersistableSessionCache)
    (m : gmap string transport.TLSSessionState)
    (entries : list (string * transport.TLSSessionState)) (now : Z) :
  entries ≡ₚ map_to_list m →
  let loaded := transport.importSessions now entries c in
  let c' := transport.ImportInOrder c entries now in
  (∀ key s x,
     m !! key = Some s →
     transport.TLSSessionMaxAge < now - transport.tsCreatedAt s →
     transport.sessions c' !! key = Some x → transport.sessions c !! key = Some x)
  ∧ (∀ key s cs,
       m !! key = Some s →
       now - transport.tsCreatedAt s ≤ transport.TLSSessionMaxAge →
       transport.decodeSession s = Some cs →
       let inserted := {| transport.state := Some cs;
                          transport.createdAt := transport.tsCreatedAt s |} in
       transport.sessions loaded !! key = Some inserted
       ∧ ((size (transport.sessions loaded) ≤ transport.TLSSessionCacheMaxSize)%nat →
          transport.sessions c' !! key = Some inserted)).
Proof.
  intros Hperm loaded c'.
  assert (Hnd : NoDup entries.*1).
  { rewrite Hperm. apply NoDup_fst_map_to_list. }
  assert (Hin : ∀ key s, m !! key = Some s → (key, s) ∈ entries).
  { intros key s Hs. rewrite Hperm. by apply elem_of_map_to_list. }
  split.
  - intros key s x Hs Hold Hx.
    eapply lookup_weaken in Hx; [| apply enforceMaxSize_subseteq].
    fold loaded in Hx. subst loaded.
    rewrite (importSessions_present now entries c key s) in Hx by auto.
    unfold transport.importEntry in Hx.
    apply Z.ltb_lt in Hold. by rewrite Hold in Hx.
  - intros key s cs Hs Hyoung Hdec inserted.
    assert (Hl : transport.sessions loaded !! key = Some inserted).
    { subst loaded. rewrite (importSessions_present now entries c key s) by auto.
      unfold transport.importEntry.
      apply Z.ltb_ge in Hyoung. rewrite Hyoung, Hdec. simpl.
      by rewrite lookup_insert_eq. }
    split; [done |]. intros Hsize. subst c'. unfold transport.ImportInOrder.
    fold loaded. by rewrite enforceMaxSize_within.
Qed.

Lemma Import_age_filter_witness :
  let c := transport.NewPersistableSessionCache (H := loopback) in
  let m := sampleSnapshot 2 in
  let now := 5 in
  let loaded := transport.importSessions now (map_to_list m) c in
  let c' := transport.ImportInOrder c (map_to_list m) now in
  (∀ key s x,
     m !! key = Some s →
     transport.TLSSessionMaxAge < now - transport.tsCreatedAt s →
     transport.sessions c' !! key = Some x → transport.sessions c !! key = Some x)
  ∧ (∀ key s cs,
       m !! key = Some s →
       now - transport.tsCreatedAt s ≤ transport.TLSSessionMaxAge →
       transport.decodeSession s = Some cs →
       let inserted := {| transport.state := Some cs;
                          transport.createdAt := transport.tsCreatedAt s |} in
       transport.sessions loaded !! key = Some inserted
       ∧ ((size (transport.sessions loaded) ≤ transport.TLSSessionCacheMaxSize)%nat →
          transport.sessions c' !! key = Some inserted)).
Proof.
  apply (Import_age_filter (H := loopback)). reflexivity.
Defined.

(** C4, as stated, fails: of 33 sessions that are one nanosecond old and all
    decode, imported into the empty cache, only 32 are in the cache when
    [Import] returns. *)
Lemma Import_drops_young_session_over_capacity :
  size (sampleSnapshot 33) = 33%nat
  ∧ map_Forall (λ _ s, 1 - transport.tsCreatedAt s ≤ transport.TLSSessionMaxAge
                       ∧ is_Some (transport.decodeSession (H := loopback) s))
      (sampleSnapshot 33)
  ∧ transport.Count
      (transport.Import (transport.NewPersistableSessionCache (H := loopback))
         (sampleSnapshot 33) 1) = 32%nat.
Proof.
  split; [by vm_compute |]. split; [| by vm_compute].
  intros key s Hs. unfold sampleSnapshot in Hs.
  apply elem_of_list_to_map_2 in Hs. apply list_elem_of_fmap in Hs as (i & [= -> ->] & _).
  split; [by vm_compute | by eexists].
Qed.

(** C5 at its failing input.  From the empty cache: the same one-session
    snapshot is imported twice, then 33 new keys are put.  [Import] has
    appended the key to [accessOrder] both times, so the second eviction of
    [Put] removes a name that no longer has a session, and the cache ends
    with 33 sessions. *)
Lemma Count_exceeds_max_after_reimport :
  let snapshot := sampleSnapshot 1 in
  let c0 := transport.NewPersistableSessionCache (H := loopback) in
  let c1 := transport.Import c0 snapshot 1 in
  let c2 := transport.Import c1 snapshot 2 in
  let c3 := fold_left (λ c i, transport.Put c 3 (sessionKey i) (Some sampleClientSession))
              (seq 1 33) c2 in
  transport.accessOrder c2 = [sessionKey 0; sessionKey 0]
  ∧ transport.Count c2 = 1%nat
  ∧ transport.Count c3 = 33%nat.
Proof. by vm_compute. Qed.

(** C3 at its failing input.  A cookie set with [SetSimple] is global: it is
    not host-only and [Get] returns it for [example.com].  After [Export] and
    [Import] into an empty jar the same cookie is host-only under the empty
    domain, and [Get] no longer returns it.  And a second [Import] of the
    same TLS snapshot is not a no-op: the cache's access order grows. *)
Lemma export_import_loses_global_cookie :
  let j := session.SetSimple ∅ 7 "sid" "abc" in
  let j' := session.Import ∅ (session.Export j 8) 9 in
  let key := session.cookieKey "/" "sid" in
  let c1 := transport.Import (transport.NewPersistableSessionCache (H := loopback))
              (sampleSnapshot 1) 1 in
  let c2 := transport.Import c1 (sampleSnapshot 1) 1 in
  session.HostOnly <$> jar_lookup j "" key = Some false
  ∧ session.HostOnly <$> jar_lookup j' "" key = Some true
  ∧ session.Value <$> session.Get j 10 "example.com" "/" false = ["abc"]
  ∧ session.Get j' 10 "example.com" "/" false = []
  ∧ transport.accessOrder c1 = [sessionKey 0]
  ∧ transport.accessOrder c2 = [sessionKey 0; sessionKey 0].
Proof. by vm_compute. Qed.

(** ** The warmup planner *)

Section WarmupFacts.
Import session.
Variable resolveURL : string → string → string.

Lemma addResource_inv baseURL ref t seen resources seen' resources' :
  addResource resolveURL baseURL ref t seen resources = (seen', resources') →
  NoDup (url <$> resources) →
  (∀ u, u ∈ url <$> resources → seen !! u = Some true) →
  NoDup (url <$> resources')
  ∧ (∀ u, u ∈ url <$> resources' → seen' !! u = Some true)
  ∧ (length resources' ≤ S (length resources))%nat.
Proof.
  unfold addResource. intros Hadd Hnd Hseen.
  destruct (seen !! resolveURL baseURL ref) as [b|] eqn:Hs; simpl in Hadd.
  - destruct b; simpl in Hadd; injection Hadd as <- <-.
    + split; [done |]. split; [done | lia].
    + rewrite fmap_app, length_app. simpl. split; [| split; [| lia]].
      * apply NoDup_app. split; [done |]. split; [| apply NoDup_singleton].
        intros u Hu ->%list_elem_of_singleton. apply Hseen in Hu. congruence.
      * intros u [Hu | ->%list_elem_of_singleton]%elem_of_app.
        -- rewrite lookup_insert_ne; [by apply Hseen |].
           intros <-. apply Hseen in Hu. congruence.
        -- apply lookup_insert_eq.
  - injection Hadd as <- <-.
    rewrite fmap_app, length_app. simpl. split; [| split; [| lia]].
    + apply NoDup_app. split; [done |]. split; [| apply NoDup_singleton].
      intros u Hu ->%list_elem_of_singleton. apply Hseen in Hu. congruence.
    + intros u [Hu | ->%list_elem_of_singleton]%elem_of_app.
      * rewrite lookup_insert_ne; [by apply Hseen |].
        intros <-. apply Hseen in Hu. congruence.
      * apply lookup_insert_eq.
Qed.

Lemma visitTag_inv baseURL tok seen resources seen' resources' :
  visitTag resolveURL baseURL tok seen resources = Some (seen', resources') →
  NoDup (url <$> resources) →
  (∀ u, u ∈ url <$> resources → seen !! u = Some true) →
  NoDup (url <$> resources')
  ∧ (∀ u, u ∈ url <$> resources' → seen' !! u = Some true)
  ∧ (length resources' ≤ S (length resources))%nat.
Proof.
  unfold visitTag. intros Hv Hnd Hseen.
  assert (Hsame : ∀ P : Prop, Some (seen, resources) = Some (seen', resources') →
            NoDup (url <$> resources')
            ∧ (∀ u, u ∈ url <$> resources' → seen' !! u = Some true)
            ∧ (length resources' ≤ S (length resources))%nat).
  { intros _ [= <- <-]. split; [done |]. split; [done | lia]. }
  repeat match type of Hv with
  | context [String.eqb ?a ?b] => destruct (String.eqb a b)
  | context [let '(_, _) := ?p in _] => destruct p
  | (if ?b then _ else _) = _ => destruct b
  | negb _ = _ => simpl in Hv
  end; simpl in Hv; try discriminate Hv; try (by apply (Hsame True));
  injection Hv as Hv; by eapply addResource_inv.
Qed.

Lemma scanTokens_inv baseURL tokens seen resources :
  NoDup (url <$> resources) →
  (∀ u, u ∈ url <$> resources → seen !! u = Some true) →
  (length resources < maxSubresources)%nat →
  NoDup (url <$> scanTokens resolveURL baseURL tokens seen resources)
  ∧ (length (scanTokens resolveURL baseURL tokens seen resources) ≤ maxSubresources)%nat.
Proof.
  revert seen resources. induction tokens as [|tok tokens IH];
    intros seen resources Hnd Hseen Hlen; cbn [scanTokens].
  { split; [done | lia]. }
  destruct (tokenType tok); try (by apply IH); try (split; [done | lia]).
  all: destruct (attrs tok) as [|a0 rest] eqn:Hattrs; [by apply IH |].
  all: destruct (visitTag resolveURL baseURL tok seen resources) as [[seen' resources']|]
         eqn:Hv; [| by apply IH].
  all: destruct (visitTag_inv _ _ _ _ _ _ Hv Hnd Hseen) as (Hnd' & Hseen' & Hlen').
  all: destruct (maxSubresources <=? length resources')%nat eqn:Hcap;
         [split; [done | lia] |].
  all: apply Nat.leb_gt in Hcap; by apply IH.
Qed.

Lemma groupByPriority_acc (resources css js img : list subresource) :
  fold_left
    (λ '(cssAndFonts, scripts, images) r,
       match typ r with
       | resourceCSS | resourceFont => (cssAndFonts ++ [r], scripts, images)
       | resourceJS => (cssAndFonts, scripts ++ [r], images)
       | resourceImage => (cssAndFonts, scripts, images ++ [r])
       end)
    resources (css, js, img)
  = (css ++ filter (λ r, spec_batch (typ r) = 1%nat) resources,
     js ++ filter (λ r, spec_batch (typ r) = 2%nat) resources,
     img ++ filter (λ r, spec_batch (typ r) = 3%nat) resources).
Proof.
  revert css js img. induction resources as [|r resources IH]; intros css js img.
  { simpl. by rewrite !app_nil_r. }
  simpl fold_left. rewrite !filter_cons.
  destruct (typ r) eqn:Ht; rewrite IH; simpl; by rewrite <- ?app_assoc.
Qed.

End WarmupFacts.

(** C6. Whatever the body and the base URL, [parseSubresources] returns at
    most 50 subresources and their resolved URLs are pairwise distinct;
    [groupByPriority] puts exactly the CSS and font resources in the first
    batch, the scripts in the second and the images in the third, each in
    document order; and both are functions of their arguments alone (no
    clock, no random source, no iteration over a map), so equal inputs give
    the same list, types and batches. *)
Theorem parseSubresources_capped_distinct_batched
    (resolveURL : string → string → string) (Tokenizer : bytes → list session.Token)
    (body : bytes) (baseURL : string) :
  let resources := session.parseSubresources resolveURL Tokenizer body baseURL in
  (length resources ≤ 50)%nat
  ∧ NoDup (session.url <$> resources)
  ∧ session.groupByPriority resources
    = (filter (λ r, spec_batch (session.typ r) = 1%nat) resources,
       filter (λ r, spec_batch (session.typ r) = 2%nat) resources,
       filter (λ r, spec_batch (session.typ r) = 3%nat) resources)
  ∧ (∀ body' baseURL',
       body' = body → baseURL' = baseURL →
       session.parseSubresources resolveURL Tokenizer body' baseURL' = resources
       ∧ session.groupByPriority
           (session.parseSubresources resolveURL Tokenizer body' baseURL')
         = session.groupByPriority resources).
Proof.
  intros resources.
  destruct (scanTokens_inv resolveURL baseURL (Tokenizer body) ∅ []) as [Hnd Hlen].
  { constructor. }
  { intros u Hu. by apply elem_of_nil in Hu. }
  { unfold session.maxSubresources. simpl. lia. }
  split; [exact Hlen |]. split; [exact Hnd |]. split.
  - unfold session.groupByPriority. apply (groupByPriority_acc resources [] [] []).
  - by intros body' baseURL' -> ->.
Qed.

(** C7. For each of the four resource types, whatever the page URL and the
    target URL, [buildSubresourceHeaders] gives Accept, Sec-Fetch-Dest,
    Sec-Fetch-Mode and Priority the values of the spec's table for that type,
    and Referer the page URL; the only other header is Sec-Fetch-Site. *)
Theorem buildSubresourceHeaders_table (fetchSite : string → string → string)
    (t : session.resourceType) (pageURL targetURL : string) :
  let headers := session.buildSubresourceHeaders fetchSite t pageURL targetURL in
  let '(accept, dest, mode, priority) := spec_header_table t in
  headers !! "Accept" = Some [accept]
  ∧ headers !! "Sec-Fetch-Dest" = Some [dest]
  ∧ headers !! "Sec-Fetch-Mode" = Some [mode]
  ∧ headers !! "Priority" = Some [priority]
  ∧ headers !! "Referer" = Some [pageURL]
  ∧ dom headers = {[ "Accept"; "Sec-Fetch-Site"; "Sec-Fetch-Mode"; "Sec-Fetch-Dest";
                     "Referer"; "Priority" ]}.
Proof.
  destruct t; repeat split; vm_compute; reflexivity.
Qed.

(** ** The fast C binding *)

Section FastBindingFacts.
Import clib.

Lemma copyChars_spec (src : list Z) (i : nat) (dst : list Z) :
  (i + length src ≤ length dst)%nat →
  copyChars src i dst = take i dst ++ (C_char <$> src) ++ drop (i + length src) dst.
Proof.
  revert i dst. induction src as [|b src IH]; intros i dst Hlen; simpl.
  - by rewrite Nat.add_0_r, take_drop.
  - simpl in Hlen. rewrite IH by (rewrite length_insert; lia).
    rewrite (take_S_r _ _ (C_char b)) by (apply list_lookup_insert_eq; lia).
    rewrite take_insert_ge by lia.
    rewrite drop_insert_lt by lia.
    rewrite <- app_assoc.
    by replace (i + S (length src))%nat with (S i + length src)%nat by lia.
Qed.

Lemma byteValues_range (s : string) : Forall (λ b, 0 ≤ b < 256) (byteValues s).
Proof.
  induction s as [|c s IH]; simpl; constructor; [| done].
  pose proof (nat_ascii_bounded c). lia.
Qed.

Lemma C_char_nonzero (b : Z) : 0 < b < 256 → C_char b ≠ 0.
Proof.
  intros Hb Hz. unfold C_char in Hz.
  destruct (decide (b < 128)).
  - rewrite Z.mod_small in Hz by lia. lia.
  - replace (b + 2 ^ 7) with ((b - 128) + 1 * 2 ^ 8) in Hz by lia.
    rewrite Z.mod_add, Z.mod_small in Hz by lia. lia.
Qed.

Lemma C_string_cons (c : Z) (rest : list Z) :
  C_string (c :: rest) = if c =? 0 then [] else c :: C_string rest.
Proof. reflexivity. Qed.

Lemma C_string_chars (src rest : list Z) :
  Forall (λ b, 0 < b < 256) src →
  C_string ((C_char <$> src) ++ 0 :: rest) = C_char <$> src.
Proof.
  induction 1 as [|b src Hb Hsrc IH]; [done |].
  rewrite fmap_cons, <- app_comm_cons, C_string_cons, IH.
  apply C_char_nonzero in Hb. apply Z.eqb_neq in Hb. by rewrite Hb.
Qed.

Lemma copyFinalURL_spec (finalURL : string) (buf : list Z) :
  length buf = 2048%nat →
  let url := byteValues finalURL in
  length (copyFinalURL finalURL buf) = 2048%nat
  ∧ ((2047 ≤ length url)%nat → C_string (copyFinalURL finalURL buf) = [])
  ∧ ((length url < 2047)%nat →
     take (length url) (copyFinalURL finalURL buf) = C_char <$> url
     ∧ copyFinalURL finalURL buf !! length url = Some 0
     ∧ (0 ∉ url → C_string (copyFinalURL finalURL buf) = C_char <$> url)).
Proof.
  intros Hbuf url. unfold copyFinalURL. fold url.
  destruct (length url <? 2047)%nat eqn:Hlt;
    [apply Nat.ltb_lt in Hlt | apply Nat.ltb_ge in Hlt].
  - rewrite copyChars_spec by (simpl; lia). simpl.
    assert (Hins : <[length url := 0]> ((C_char <$> url) ++ drop (length url) buf)
                   = (C_char <$> url) ++ 0 :: drop (S (length url)) buf).
    { rewrite insert_app_r_alt by (rewrite length_fmap; lia).
      rewrite length_fmap, Nat.sub_diag. f_equal.
      destruct (drop (length url) buf) as [|x rest] eqn:Hd.
      - apply (f_equal length) in Hd. rewrite length_drop in Hd. simpl in Hd. lia.
      - simpl. f_equal.
        replace (S (length url)) with (length url + 1)%nat by lia.
        by rewrite <- drop_drop, Hd. }
    rewrite Hins.
    split; [| split; [lia |]].
    + rewrite length_app, length_fmap. simpl. rewrite length_drop. lia.
    + intros _. split; [| split].
      * rewrite take_app_length' by (by rewrite length_fmap). done.
      * rewrite lookup_app_r by (rewrite length_fmap; lia).
        by rewrite length_fmap, Nat.sub_diag.
      * intros Hz. apply C_string_chars.
        pose proof (byteValues_range finalURL) as Hr. fold url in Hr.
        apply Forall_forall. intros b Hb.
        assert (b ≠ 0) by (by intros ->).
        eapply Forall_forall in Hr; [| exact Hb]. simpl in Hr. lia.
  - split; [by rewrite length_insert |]. split; [| lia].
    intros _. destruct buf as [|x buf]; [done |]. simpl. done.
Qed.

End FastBindingFacts.

(** C10. Let the block that [malloc] returned hold anything in its 2048
    cells.  On both paths of the fast binding ([httpcloak_get_fast_finish]
    and the body of [httpcloak_get_fast]) the metadata found under the
    returned handle has a [final_url] that C reads as the empty string when
    the final URL has 2047 bytes or more; when it has fewer, its first cells
    are the bytes of the URL, the next cell is NUL, and C reads the whole URL
    back (a URL holds no NUL byte). *)
Theorem final_url_empty_or_whole (t : clib.handles) (malloced : clib.FastResponseMeta)
    (resp : clib.Response) (bodyBytes : bytes) :
  length (clib.final_url malloced) = 2048%nat →
  let url := clib.byteValues (clib.FinalURL resp) in
  let r1 := clib.httpcloak_get_fast_finish t malloced resp bodyBytes in
  let r2 := clib.httpcloak_get_fast t malloced (Some (resp, bodyBytes)) in
  ∃ m1 m2,
    clib.httpcloak_fast_get_meta r1.1 r1.2 = Some m1
    ∧ clib.httpcloak_fast_get_meta r2.1 r2.2 = Some m2
    ∧ clib.final_url m2 = clib.final_url m1
    ∧ length (clib.final_url m1) = 2048%nat
    ∧ ((2047 ≤ length url)%nat → clib.C_string (clib.final_url m1) = [])
    ∧ ((length url < 2047)%nat →
       take (length url) (clib.final_url m1) = clib.C_char <$> url
       ∧ clib.final_url m1 !! length url = Some 0
       ∧ (0 ∉ url → clib.C_string (clib.final_url m1) = clib.C_char <$> url)).
Proof.
  intros Hbuf url r1 r2. subst r1 r2.
  unfold clib.httpcloak_get_fast_finish, clib.httpcloak_get_fast,
    clib.httpcloak_fast_get_meta. simpl.
  rewrite !lookup_insert_eq. simpl.
  eexists _, _. split; [done |]. split; [done |]. split; [done |]. simpl.
  apply (copyFinalURL_spec (clib.FinalURL resp) (clib.final_url malloced) Hbuf).
Qed.

Lemma final_url_empty_or_whole_witness :
  let t := {| clib.fastResponses := ∅; clib.fastResponseID := 0 |} in
  let malloced := {| clib.status_code := 0; clib.body_len := 0; clib.headers_len := 0;
                     clib.protocol := 0; clib.final_url := replicate 2048 (-86) |} in
  let resp := {| clib.StatusCode := 200; clib.Protocol := "h2";
                 clib.FinalURL := "https://example.test/"; clib.Headers := ∅ |} in
  let url := clib.byteValues (clib.FinalURL resp) in
  let r1 := clib.httpcloak_get_fast_finish t malloced resp [] in
  let r2 := clib.httpcloak_get_fast t malloced (Some (resp, [])) in
  ∃ m1 m2,
    clib.httpcloak_fast_get_meta r1.1 r1.2 = Some m1
    ∧ clib.httpcloak_fast_get_meta r2.1 r2.2 = Some m2
    ∧ clib.final_url m2 = clib.final_url m1
    ∧ length (clib.final_url m1) = 2048%nat
    ∧ ((2047 ≤ length url)%nat → clib.C_string (clib.final_url m1) = [])
    ∧ ((length url < 2047)%nat →
       take (length url) (clib.final_url m1) = clib.C_char <$> url
       ∧ clib.final_url m1 !! length url = Some 0
       ∧ (0 ∉ url → clib.C_string (clib.final_url m1) = clib.C_char <$> url)).
Proof.
  apply (final_url_empty_or_whole
           {| clib.fastResponses := ∅; clib.fastResponseID := 0 |}
           {| clib.status_code := 0; clib.body_len := 0; clib.headers_len := 0;
              clib.protocol := 0; clib.final_url := replicate 2048 (-86) |}
           {| clib.StatusCode := 200; clib.Protocol := "h2";
              clib.FinalURL := "https://example.test/"; clib.Headers := ∅ |} []).
  apply length_replicate.
Defined.

(** ** The size bound of the TLS session cache, away from [Import] *)

Section LRUFacts.
Import transport.
Context `{TLSLibrary}.

Lemma cutFirst_Some key order rest :
  cutFirst key order = Some rest → order ≡ₚ key :: rest.
Proof.
  revert rest. induction order as [|k order IH]; intros rest; simpl; [done |].
  destruct (String.eqb k key) eqn:Hk.
  - apply String.eqb_eq in Hk as ->. by intros [= ->].
  - destruct (cutFirst key order) as [rest'|]; [| done].
    intros [= <-]. rewrite (IH rest' eq_refl). apply Permutation_swap.
Qed.

Lemma orderExact_size (c : PersistableSessionCache) :
  orderExact c → size (sessions c) = length (accessOrder c).
Proof.
  intros [Hnd Hdom]. rewrite <- size_dom, Hdom. by apply size_list_to_set.
Qed.

Lemma moveToEnd_exact (c : PersistableSessionCache) (key : string) :
  orderExact c → orderExact (moveToEnd c key) ∧ sessions (moveToEnd c key) = sessions c.
Proof.
  intros [Hnd Hdom]. unfold moveToEnd.
  destruct (cutFirst key (accessOrder c)) as [rest|] eqn:Hcut; [| done].
  apply cutFirst_Some in Hcut. split; [| done]. split; simpl.
  - rewrite Hcut in Hnd. by rewrite <- Permutation_cons_append.
  - rewrite Hdom, Hcut. apply set_eq. intros k.
    rewrite !elem_of_list_to_set, elem_of_app, elem_of_cons, list_elem_of_singleton. tauto.
Qed.

Lemma Put_exact (c : PersistableSessionCache) (now : Z) (key : string)
    (cs : option ClientSessionState) :
  orderExact c → (Count c ≤ TLSSessionCacheMaxSize)%nat →
  orderExact (Put c now key cs) ∧ (Count (Put c now key cs) ≤ TLSSessionCacheMaxSize)%nat.
Proof.
  intros Hex Hcount. pose proof (orderExact_size c Hex) as Hsize.
  destruct Hex as [Hnd Hdom]. unfold Put, Count in *.
  destruct (sessions c !! key) as [old|] eqn:Hkey.
  - destruct (moveToEnd_exact
      {| sessions := <[key := {| state := cs; createdAt := now |}]> (sessions c);
         accessOrder := accessOrder c |} key) as [Hex' Hs'].
    { split; simpl; [done |]. rewrite dom_insert_L, <- Hdom.
      apply elem_of_dom_2 in Hkey. set_solver. }
    split; [done |]. rewrite Hs'. simpl.
    rewrite <- size_dom, dom_insert_L.
    apply elem_of_dom_2 in Hkey.
    replace ({[key]} ∪ dom (sessions c)) with (dom (sessions c)) by set_solver.
    by rewrite size_dom.
  - assert (Hfresh : key ∉ accessOrder c).
    { intros Hin. apply not_elem_of_dom in Hkey. apply Hkey. rewrite Hdom.
      by apply elem_of_list_to_set. }
    destruct (TLSSessionCacheMaxSize <=? size (sessions c))%nat eqn:Hcap.
    + apply Nat.leb_le in Hcap.
      destruct (accessOrder c) as [|oldest rest] eqn:Horder.
      { simpl in Hsize. unfold TLSSessionCacheMaxSize in Hcap. lia. }
      apply NoDup_cons in Hnd as [Hold Hrest].
      apply not_elem_of_cons in Hfresh as [Hne Hfresh].
      assert (Holdin : is_Some (sessions c !! oldest)).
      { apply elem_of_dom. rewrite Hdom. set_solver. }
      unfold orderExact. simpl. split; [split |].
      * apply NoDup_app. split; [done |]. split; [| apply NoDup_singleton].
        by intros k Hk ->%list_elem_of_singleton.
      * rewrite dom_insert_L, dom_delete_L, Hdom. apply set_eq. intros k.
        rewrite elem_of_union, elem_of_difference, !elem_of_list_to_set,
          elem_of_app, elem_of_cons, !elem_of_singleton, list_elem_of_singleton.
        split; [intros [-> | [[-> | ?] ?]]; tauto |].
        intros [Hk | ->]; [| by left]. right. split; [by right |]. by intros ->.
      * rewrite map_size_insert_None by (by rewrite lookup_delete_ne).
        rewrite map_size_delete_Some by done. simpl in Hsize.
        unfold TLSSessionCacheMaxSize in *. lia.
    + apply Nat.leb_gt in Hcap. unfold orderExact. simpl. split; [split |].
      * apply NoDup_app. split; [done |]. split; [| apply NoDup_singleton].
        by intros k Hk ->%list_elem_of_singleton.
      * rewrite dom_insert_L, Hdom, list_to_set_app_L. simpl. set_solver.
      * rewrite map_size_insert_None by done. lia.
Qed.

Lemma applyOp_exact (c : PersistableSessionCache) (op : lruOp) :
  orderExact c → (Count c ≤ TLSSessionCacheMaxSize)%nat →
  orderExact (applyOp c op) ∧ (Count (applyOp c op) ≤ TLSSessionCacheMaxSize)%nat.
Proof.
  intros Hex Hcount. destruct op as [key | now key cs |]; simpl.
  - unfold Get. destruct (sessions c !! key); simpl; [| done].
    destruct (moveToEnd_exact c key Hex) as [Hex' Hs'].
    split; [done |]. unfold Count. by rewrite Hs'.
  - by apply Put_exact.
  - split; [split; simpl; [constructor | set_solver] |].
    unfold Count, Clear. simpl. rewrite map_size_empty. lia.
Qed.

(** X1. Away from [Import], the bound of C5 holds: after any sequence of [Get],
    [Put] and [Clear] from the empty cache, [Count] is at most 32 and
    [accessOrder] names every cached session exactly once. *)
Theorem Count_bounded_without_Import (ops : list lruOp) :
  let c := fold_left applyOp ops NewPersistableSessionCache in
  (Count c ≤ 32)%nat ∧ orderExact c.
Proof.
  cbv zeta.
  assert (G : ∀ c, orderExact c → (Count c ≤ TLSSessionCacheMaxSize)%nat →
            (Count (fold_left applyOp ops c) ≤ TLSSessionCacheMaxSize)%nat
            ∧ orderExact (fold_left applyOp ops c)).
  { induction ops as [|op ops IH]; intros c Hex Hcount; simpl; [done |].
    destruct (applyOp_exact c op Hex Hcount). by apply IH. }
  apply G.
  - split; simpl; [constructor | set_solver].
  - unfold Count. simpl. rewrite map_size_empty. lia.
Qed.

(** The eviction branch of [Put]. *)
Lemma Put_at_capacity (c : PersistableSessionCache) (now : Z)
    (key oldest : string) (rest : list string) (cs : option ClientSessionState) :
  sessions c !! key = None →
  (32 ≤ size (sessions c))%nat →
  accessOrder c = oldest :: rest →
  Put c now key cs
  = {| sessions := <[key := {| state := cs; createdAt := now |}]>
                     (delete oldest (sessions c));
       accessOrder := rest ++ [key] |}.
Proof.
  intros Hkey Hcap Horder. unfold Put. rewrite Hkey.
  apply Nat.leb_le in Hcap. unfold TLSSessionCacheMaxSize. rewrite Hcap, Horder. done.
Qed.

End LRUFacts.

(** ** What [Export] and [Import] of the cookie jar do keep *)

Section CookieSnapshotFacts.
Import session.

(** The serialised form [Export] writes for a cookie. *)
Lemma exportDomainCookies_spec (now : Z) (l : list (string * CookieData))
    (acc : list CookieState) :
  exportDomainCookies now l acc
  = acc ++ ((λ kc : string * CookieData,
               {| csName := Name kc.2; csValue := Value kc.2; csDomain := Domain kc.2;
                  csPath := Path kc.2; csExpires := Expires kc.2; csMaxAge := MaxAge kc.2;
                  csSecure := Secure kc.2; csHttpOnly := HttpOnly kc.2;
                  csSameSite := SameSite kc.2; csCreatedAt := Some (CreatedAt kc.2) |})
            <$> filter (λ kc, expiredAt (Expires kc.2) now = false) l).
Proof.
  revert acc. induction l as [|[k c] l IH]; intros acc; simpl.
  { by rewrite app_nil_r. }
  rewrite filter_cons. simpl.
  destruct (expiredAt (Expires c) now) eqn:He.
  - rewrite IH. by rewrite decide_False by done.
  - rewrite IH, decide_True by done. by rewrite <- app_assoc.
Qed.

Lemma importDomainCookies_absent (now : Z) (l : list CookieState)
    (m : gmap string CookieData) (k : string) :
  k ∉ importKey <$> l → importDomainCookies now l m !! k = m !! k.
Proof.
  revert m. induction l as [|c l IH]; intros m Hk; simpl; [done |].
  rewrite fmap_cons in Hk. apply not_elem_of_cons in Hk as [Hne Hk].
  destruct (expiredAt (csExpires c) now); rewrite IH by done; [done |].
  by rewrite lookup_insert_ne.
Qed.

Lemma importDomainCookies_present (now : Z) (l : list CookieState)
    (m : gmap string CookieData) (c : CookieState) :
  NoDup (importKey <$> l) → c ∈ l → expiredAt (csExpires c) now = false →
  importDomainCookies now l m !! importKey c
  = Some {| Name := csName c; Value := csValue c; Domain := csDomain c;
            HostOnly := negb (strings.HasPrefix (csDomain c) ".");
            Path := if String.eqb (csPath c) "" then "/" else csPath c;
            Expires := csExpires c; MaxAge := csMaxAge c; Secure := csSecure c;
            HttpOnly := csHttpOnly c; SameSite := csSameSite c;
            CreatedAt := match csCreatedAt c with Some t => t | None => now end |}.
Proof.
  revert m. induction l as [|c0 l IH]; intros m Hnd Hin Hlive.
  { by apply elem_of_nil in Hin. }
  rewrite fmap_cons in Hnd. apply NoDup_cons in Hnd as [Hfresh Hnd].
  apply elem_of_cons in Hin as [-> | Hin].
  - simpl. rewrite Hlive, importDomainCookies_absent by done.
    apply lookup_insert_eq.
  - simpl. destruct (expiredAt (csExpires c0) now); by apply IH.
Qed.

Lemma importDomains_absent (now : Z) (l : list (string * list CookieState))
    (j : CookieJar) (d : string) :
  d ∉ l.*1 → importDomains now l j !! d = j !! d.
Proof.
  revert j. induction l as [|[d0 cs] l IH]; intros j Hd; simpl; [done |].
  simpl in Hd. apply not_elem_of_cons in Hd as [Hne Hd].
  rewrite IH by done. by rewrite lookup_insert_ne.
Qed.

Lemma importDomains_present (now : Z) (l : list (string * list CookieState))
    (j : CookieJar) (d : string) (cs : list CookieState) :
  NoDup l.*1 → (d, cs) ∈ l →
  importDomains now l j !! d = Some (importDomainCookies now cs (default ∅ (j !! d))).
Proof.
  revert j. induction l as [|[d0 cs0] l IH]; intros j Hnd Hin.
  { by apply elem_of_nil in Hin. }
  simpl in Hnd. apply NoDup_cons in Hnd as [Hfresh Hnd].
  apply elem_of_cons in Hin as [[= -> ->] | Hin]; simpl.
  - rewrite importDomains_absent by done. apply lookup_insert_eq.
  - rewrite IH by done. rewrite lookup_insert_ne; [done |].
    intros ->. apply Hfresh. apply list_elem_of_fmap. by exists (d, cs).
Qed.

(** [Import] of one domain's list only adds to the map: it is the union of
    what the list brings with what was there. *)
Lemma importDomainCookies_union (now : Z) (l : list CookieState)
    (m : gmap string CookieData) :
  importDomainCookies now l m = importDomainCookies now l ∅ ∪ m.
Proof.
  revert m. induction l as [|c l IH]; intros m; simpl.
  { by rewrite (left_id_L ∅ (∪)). }
  destruct (expiredAt (csExpires c) now); [apply IH |].
  rewrite IH. rewrite (IH (<[_ := _]> ∅)).
  rewrite <- (assoc_L (∪)). f_equal.
  rewrite insert_empty. apply insert_union_singleton_l.
Qed.

Lemma importDomainCookies_twice (now : Z) (l : list CookieState)
    (m : gmap string CookieData) :
  importDomainCookies now l (importDomainCookies now l m) = importDomainCookies now l m.
Proof.
  rewrite (importDomainCookies_union now l (importDomainCookies now l m)).
  rewrite (importDomainCookies_union now l m).
  by rewrite (assoc_L (∪)), (idemp_L (∪)).
Qed.

End CookieSnapshotFacts.

(** X3. The part of C3 that holds for cookies.  Take a jar whose cookies lie
    under the key [Set] files them under ([path + NUL + name], with a path
    that is not empty).  A cookie of it that has not expired at export time
    nor at import time is found again, under the same domain and key, after
    [Export] and [Import] into the empty jar, with every field as it was,
    except that [HostOnly] is recomputed from the leading dot of its domain. *)
Theorem cookie_export_import (j : session.CookieJar) (now now' : Z)
    (d k : string) (domainCookies : gmap string session.CookieData)
    (c : session.CookieData) :
  j !! d = Some domainCookies → domainCookies !! k = Some c →
  (∀ k' c', domainCookies !! k' = Some c' →
            k' = session.cookieKey (session.Path c') (session.Name c')
            ∧ session.Path c' ≠ "") →
  session.expiredAt (session.Expires c) now = false →
  session.expiredAt (session.Expires c) now' = false →
  jar_lookup (session.Import ∅ (session.Export j now) now') d k
  = Some {| session.Name := session.Name c; session.Value := session.Value c;
            session.Domain := session.Domain c;
            session.HostOnly := negb (strings.HasPrefix (session.Domain c) ".");
            session.Path := session.Path c; session.Expires := session.Expires c;
            session.MaxAge := session.MaxAge c; session.Secure := session.Secure c;
            session.HttpOnly := session.HttpOnly c; session.SameSite := session.SameSite c;
            session.CreatedAt := session.CreatedAt c |}.
Proof.
  intros Hd Hk Hkeys Hlive Hlive'.
  set (toState := λ kc : string * session.CookieData,
         {| session.csName := session.Name kc.2; session.csValue := session.Value kc.2;
            session.csDomain := session.Domain kc.2; session.csPath := session.Path kc.2;
            session.csExpires := session.Expires kc.2; session.csMaxAge := session.MaxAge kc.2;
            session.csSecure := session.Secure kc.2; session.csHttpOnly := session.HttpOnly kc.2;
            session.csSameSite := session.SameSite kc.2;
            session.csCreatedAt := Some (session.CreatedAt kc.2) |}).
  set (live := filter (λ kc : string * session.CookieData,
                         session.expiredAt (session.Expires kc.2) now = false)
                 (map_to_list domainCookies)).
  assert (Hexp : session.exportDomainCookies now (map_to_list domainCookies) []
                 = toState <$> live).
  { by rewrite exportDomainCookies_spec. }
  assert (Hin : (k, c) ∈ live).
  { apply list_elem_of_filter. split; [done |]. by apply elem_of_map_to_list. }
  assert (Hsnap : session.Export j now !! d = Some (toState <$> live)).
  { unfold session.Export. rewrite lookup_omap, Hd. simpl. rewrite Hexp.
    destruct live as [|x live']; [by apply elem_of_nil in Hin | done]. }
  assert (Hkey : ∀ kc, kc ∈ live → importKey (toState kc) = kc.1).
  { intros [k' c'] [_ Hkc%elem_of_map_to_list]%list_elem_of_filter.
    destruct (Hkeys k' c' Hkc) as [-> Hpath]. unfold importKey. simpl.
    apply String.eqb_neq in Hpath. by rewrite Hpath. }
  assert (Hnd : NoDup (importKey <$> (toState <$> live))).
  { rewrite <- list_fmap_compose.
    rewrite (list_fmap_ext (importKey ∘ toState) fst live)
      by (intros i kc Hi; apply Hkey; by eapply list_elem_of_lookup_2).
    subst live. apply NoDup_fmap_fst.
    - intros k0 c1 c2 [_ H1%elem_of_map_to_list]%list_elem_of_filter
        [_ H2%elem_of_map_to_list]%list_elem_of_filter. congruence.
    - apply NoDup_filter, NoDup_map_to_list. }
  unfold jar_lookup, session.Import.
  rewrite (importDomains_present now' _ ∅ d (toState <$> live))
    by (apply NoDup_fst_map_to_list || by apply elem_of_map_to_list).
  simpl. rewrite lookup_empty. simpl.
  pose proof (importDomainCookies_present now' (toState <$> live) ∅ (toState (k, c)) Hnd) as Hp.
  rewrite (Hkey (k, c) Hin) in Hp. simpl in Hp. rewrite Hp.
  - destruct (Hkeys k c Hk) as [_ Hpath]. apply String.eqb_neq in Hpath. by rewrite Hpath.
  - by apply list_elem_of_fmap_2.
  - done.
Qed.

Lemma cookie_export_import_witness :
  let c := {| session.Name := "sid"; session.Value := "abc";
              session.Domain := ".example.test"; session.HostOnly := false;
              session.Path := "/"; session.Expires := Some 100; session.MaxAge := 0;
              session.Secure := true; session.HttpOnly := true;
              session.SameSite := "Lax"; session.CreatedAt := 7 |} in
  let j := session.Set_ ∅ 7 "api.example.test"
             {| session.Name := "sid"; session.Value := "abc";
                session.Domain := "example.test"; session.HostOnly := false;
                session.Path := "/"; session.Expires := Some 100; session.MaxAge := 0;
                session.Secure := true; session.HttpOnly := true;
                session.SameSite := "Lax"; session.CreatedAt := 0 |} true in
  jar_lookup (session.Import ∅ (session.Export j 8) 9) ".example.test"
    (session.cookieKey "/" "sid")
  = Some c.
Proof.
  cbv zeta.
  refine (cookie_export_import _ 8 9 ".example.test" (session.cookieKey "/" "sid")
            {[ session.cookieKey "/" "sid" :=
                 {| session.Name := "sid"; session.Value := "abc";
                    session.Domain := ".example.test"; session.HostOnly := false;
                    session.Path := "/"; session.Expires := Some 100; session.MaxAge := 0;
                    session.Secure := true; session.HttpOnly := true;
                    session.SameSite := "Lax"; session.CreatedAt := 7 |} ]}
            {| session.Name := "sid"; session.Value := "abc";
               session.Domain := ".example.test"; session.HostOnly := false;
               session.Path := "/"; session.Expires := Some 100; session.MaxAge := 0;
               session.Secure := true; session.HttpOnly := true;
               session.SameSite := "Lax"; session.CreatedAt := 7 |}
            _ _ _ _ _).
  - vm_compute. reflexivity.
  - apply lookup_singleton_eq.
  - intros k' c' [<- <-]%lookup_singleton_Some. split; [reflexivity | discriminate].
  - reflexivity.
  - reflexivity.
Defined.

(** X4. The part of C3 that holds for a second import of cookies: importing the
    same snapshot again, at the same instant, changes nothing in the jar. *)
Theorem cookie_reimport_noop (j : session.CookieJar)
    (cookies : gmap string (list session.CookieState)) (now : Z) :
  session.Import (session.Import j cookies now) cookies now = session.Import j cookies now.
Proof.
  unfold session.Import. apply map_eq. intros d.
  destruct (cookies !! d) as [cs|] eqn:Hd.
  - rewrite !(importDomains_present now _ _ d cs)
      by (apply NoDup_fst_map_to_list || by apply elem_of_map_to_list).
    simpl. f_equal. apply importDomainCookies_twice.
  - assert (Hout : d ∉ (map_to_list cookies).*1).
    { intros [[d' cs] [-> Hin%elem_of_map_to_list]]%list_elem_of_fmap.
      simpl in Hd. congruence. }
    by rewrite !importDomains_absent.
Qed.

(** ** What [Export] and [Import] of the TLS cache do keep *)

Section SessionSnapshotFacts.
Import transport.
Context `{TLSLibrary}.

Lemma importSessions_dom now entries c :
  dom (sessions (importSessions now entries c))
  ⊆ dom (sessions c) ∪ list_to_set entries.*1.
Proof.
  revert c. induction entries as [|[k s] entries IH]; intros c; simpl.
  { set_solver. }
  etrans; [apply IH |]. unfold importEntry.
  destruct (TLSSessionMaxAge <? now - tsCreatedAt s); [set_solver |].
  destruct (decodeSession s); [| set_solver].
  simpl. rewrite dom_insert_L. set_solver.
Qed.

Lemma size_list_to_set_le (l : list string) :
  (size (list_to_set l : gset string) ≤ length l)%nat.
Proof.
  induction l as [|x l IH].
  { rewrite list_to_set_nil, size_empty. simpl. lia. }
  rewrite list_to_set_cons, size_union_alt, size_singleton.
  assert (size (list_to_set l ∖ {[x]} : gset string) ≤ size (list_to_set l : gset string))%nat
    by (apply subseteq_size; set_solver).
  simpl. lia.
Qed.

End SessionSnapshotFacts.

(** X5. The part of C3 that holds for TLS sessions.  Assume the library reads
    back what it wrote: base64 decodes what it encoded, and the exported
    bytes of a session parse to a state from which the same client session
    is rebuilt.  Then a cached session that is not older than 24 hours, in a
    cache within its bound, is found again after [Export] and [Import] into
    the empty cache, with its state and its CreatedAt, in whatever order the
    snapshot is walked. *)
Theorem session_export_import `{transport.TLSLibrary}
    (c : transport.PersistableSessionCache) (now t0 : Z) (key : string)
    (cs : transport.ClientSessionState) (ticket stateBytes : bytes)
    (st st' : transport.SessionState)
    (entries : list (string * transport.TLSSessionState)) :
  (∀ b, transport.DecodeString (transport.EncodeToString b) = Some b) →
  transport.sessions c !! key = Some {| transport.state := Some cs; transport.createdAt := t0 |} →
  transport.ResumptionState cs = Some (Some ticket, Some st) →
  transport.SessionState_Bytes st = Some stateBytes →
  transport.ParseSessionState stateBytes = Some st' →
  transport.NewResumptionState ticket st' = Some cs →
  now - t0 ≤ transport.TLSSessionMaxAge →
  (transport.Count c ≤ 32)%nat →
  entries ≡ₚ map_to_list (transport.Export c) →
  transport.sessions
    (transport.ImportInOrder transport.NewPersistableSessionCache entries now) !! key
  = Some {| transport.state := Some cs; transport.createdAt := t0 |}.
Proof.
  intros Hb64 Hkey Hres Hbytes Hparse Hnew Hyoung Hcount Hperm.
  set (ser := {| transport.Ticket := transport.EncodeToString ticket;
                 transport.State := transport.EncodeToString stateBytes;
                 transport.tsCreatedAt := t0 |}).
  assert (Hexp : transport.Export c !! key = Some ser).
  { unfold transport.Export. rewrite lookup_omap, Hkey. simpl.
    unfold transport.exportSession. simpl. by rewrite Hres, Hbytes. }
  assert (Hdec : transport.decodeSession ser = Some cs).
  { unfold transport.decodeSession. simpl. by rewrite !Hb64, Hparse. }
  assert (Hnd : NoDup entries.*1) by (rewrite Hperm; apply NoDup_fst_map_to_list).
  assert (Hin : (key, ser) ∈ entries) by (rewrite Hperm; by apply elem_of_map_to_list).
  unfold transport.ImportInOrder.
  rewrite enforceMaxSize_within.
  - simpl. rewrite (importSessions_present now entries _ key ser) by done.
    unfold transport.importEntry. apply Z.ltb_ge in Hyoung. simpl.
    rewrite Hyoung, Hdec. simpl. apply lookup_insert_eq.
  - rewrite <- size_dom.
    etrans; [apply subseteq_size, importSessions_dom |]. simpl.
    rewrite dom_empty_L, (left_id_L ∅ (∪)).
    etrans; [apply size_list_to_set_le |].
    rewrite length_fmap, Hperm, length_map_to_list.
    etrans; [| exact Hcount]. unfold transport.Count, transport.Export.
    rewrite <- !size_dom. apply subseteq_size, dom_omap_subseteq.
Qed.

Lemma session_export_import_witness :
  transport.sessions
    (transport.ImportInOrder (transport.NewPersistableSessionCache (H := loopback))
       (map_to_list
          (transport.Export
             (transport.Put (transport.NewPersistableSessionCache (H := loopback))
                3 (sessionKey 0) (Some sampleClientSession))))
       5) !! sessionKey 0
  = Some {| transport.state := Some sampleClientSession; transport.createdAt := 3 |}.
Proof.
  apply (session_export_import (H := loopback)
           (transport.Put (transport.NewPersistableSessionCache (H := loopback))
              3 (sessionKey 0) (Some sampleClientSession))
           5 3 (sessionKey 0) sampleClientSession [] [] [] []).
  - intros b. simpl. by rewrite list_byte_of_string_of_list_byte.
  - reflexivity.
  - reflexivity.
  - reflexivity.
  - reflexivity.
  - reflexivity.
  - vm_compute. discriminate.
  - vm_compute. lia.
  - reflexivity.
Defined.

(** ** [ClearExpired], [GetAll] and [Count] of the cookie jar *)

Section CookieSweepFacts.
Import session.

Lemma sweepDomainCookies_gone now l (m : gmap string CookieData) k :
  m !! k = None → sweepDomainCookies now l m !! k = None.
Proof.
  revert m. induction l as [|[k0 c0] l IH]; intros m Hk; simpl; [done |].
  destruct (expiredAt (Expires c0) now); apply IH; [| done].
  destruct (decide (k0 = k)) as [-> | Hne];
    [apply lookup_delete_eq | by rewrite lookup_delete_ne].
Qed.

Lemma sweepDomainCookies_expired now l (m : gmap string CookieData) k c :
  (k, c) ∈ l → expiredAt (Expires c) now = true →
  sweepDomainCookies now l m !! k = None.
Proof.
  revert m. induction l as [|[k0 c0] l IH]; intros m Hin Hexp.
  { by apply elem_of_nil in Hin. }
  apply elem_of_cons in Hin as [[= <- <-] | Hin]; simpl.
  - rewrite Hexp. apply sweepDomainCookies_gone, lookup_delete_eq.
  - destruct (expiredAt (Expires c0) now); by apply IH.
Qed.

Lemma sweepDomainCookies_kept now l (m : gmap string CookieData) k :
  (∀ c, (k, c) ∈ l → expiredAt (Expires c) now = false) →
  sweepDomainCookies now l m !! k = m !! k.
Proof.
  revert m. induction l as [|[k0 c0] l IH]; intros m Hl; simpl; [done |].
  assert (Hrest : ∀ c, (k, c) ∈ l → expiredAt (Expires c) now = false).
  { intros c Hc. apply Hl. by apply elem_of_cons; right. }
  destruct (expiredAt (Expires c0) now) eqn:He; rewrite IH by done; [| done].
  apply lookup_delete_ne. intros ->.
  rewrite (Hl c0) in He; [done | by apply elem_of_cons; left].
Qed.

Lemma sweepDomainCookies_lookup now (dc : gmap string CookieData) k :
  sweepDomainCookies now (map_to_list dc) dc !! k
  = match dc !! k with
    | Some c => if expiredAt (Expires c) now then None else Some c
    | None => None
    end.
Proof.
  destruct (dc !! k) as [c|] eqn:Hk; [| by apply sweepDomainCookies_gone].
  destruct (expiredAt (Expires c) now) eqn:He.
  - eapply sweepDomainCookies_expired; [by apply elem_of_map_to_list | done].
  - rewrite sweepDomainCookies_kept; [done |].
    intros c' Hc'%elem_of_map_to_list. congruence.
Qed.

Lemma ClearExpired_lookup (j : CookieJar) (now : Z) (d k : string) :
  jar_lookup (ClearExpired j now) d k
  = match jar_lookup j d k with
    | Some c => if expiredAt (Expires c) now then None else Some c
    | None => None
    end.
Proof.
  unfold jar_lookup, ClearExpired. rewrite lookup_omap.
  destruct (j !! d) as [dc|]; simpl; [| done].
  destruct (size (sweepDomainCookies now (map_to_list dc) dc) =? 0)%nat eqn:Hsz; simpl.
  - apply Nat.eqb_eq, map_size_empty_iff in Hsz.
    rewrite <- sweepDomainCookies_lookup, Hsz. by rewrite lookup_empty.
  - apply sweepDomainCookies_lookup.
Qed.

End CookieSweepFacts.

(** X6. [ClearExpired] deletes exactly the cookies that have expired at
    [now]: a [(domain, key)] holds afterwards what it held before unless that
    cookie's expiry is before [now]; and no domain is left with an empty map. *)
Theorem ClearExpired_removes_exactly_expired (j : session.CookieJar) (now : Z) :
  (∀ d k,
     jar_lookup (session.ClearExpired j now) d k
     = match jar_lookup j d k with
       | Some c => if session.expiredAt (session.Expires c) now then None else Some c
       | None => None
       end)
  ∧ (∀ d domainCookies,
       session.ClearExpired j now !! d = Some domainCookies → domainCookies ≠ ∅).
Proof.
  split; [intros d k; apply ClearExpired_lookup |].
  intros d dc. unfold session.ClearExpired. rewrite lookup_omap.
  destruct (j !! d) as [dc0|]; simpl; [| done].
  destruct (size _ =? 0)%nat eqn:Hsz; [done |].
  intros [= <-] Hempty. rewrite Hempty, map_size_empty in Hsz. done.
Qed.

(** X7. Sweeping the jar never changes what is sent: at the instant of the
    sweep or any later one, [Get] returns a cookie from the swept jar exactly
    when it returns it from the jar as it was. *)
Theorem ClearExpired_keeps_Get (j : session.CookieJar) (now now' : Z)
    (requestHost requestPath : string) (requestSecure : bool) (c : session.CookieData) :
  now ≤ now' →
  c ∈ session.Get (session.ClearExpired j now) now' requestHost requestPath requestSecure
  ↔ c ∈ session.Get j now' requestHost requestPath requestSecure.
Proof.
  intros Hle. rewrite !Get_elem_of. split.
  - intros (d & dc & k & Hd & Hk & Hrest).
    assert (Hl : jar_lookup (session.ClearExpired j now) d k = Some c).
    { unfold jar_lookup. by rewrite Hd. }
    rewrite ClearExpired_lookup in Hl. unfold jar_lookup in Hl.
    destruct (j !! d) as [dc0|] eqn:Hd0; simpl in Hl; [| done].
    destruct (dc0 !! k) as [c0|] eqn:Hk0; [| done].
    destruct (session.expiredAt (session.Expires c0) now); [done |].
    injection Hl as ->. by exists d, dc0, k.
  - intros (d & dc & k & Hd & Hk & Hm & Hp & Hs & Hlive).
    assert (Hl : jar_lookup (session.ClearExpired j now) d k = Some c).
    { rewrite ClearExpired_lookup. unfold jar_lookup. rewrite Hd. simpl. rewrite Hk.
      destruct (session.expiredAt (session.Expires c) now) eqn:He; [| done].
      unfold session.expiredAt in He. destruct (session.Expires c) as [e|]; [| done].
      apply Z.ltb_lt in He. specialize (Hlive e eq_refl). lia. }
    unfold jar_lookup in Hl.
    destruct (session.ClearExpired j now !! d) as [dc'|] eqn:Hd'; [| done].
    simpl in Hl. by exists d, dc', k.
Qed.

Lemma ClearExpired_keeps_Get_witness :
  let j := session.Set_ (session.SetSimple ∅ 1 "theme" "dark") 2 "shop.example.test"
             {| session.Name := "sid"; session.Value := "abc"; session.Domain := "";
                session.HostOnly := false; session.Path := "/"; session.Expires := Some 10;
                session.MaxAge := 0; session.Secure := false; session.HttpOnly := false;
                session.SameSite := ""; session.CreatedAt := 0 |} false in
  let c := {| session.Name := "theme"; session.Value := "dark"; session.Domain := "";
              session.HostOnly := false; session.Path := "/"; session.Expires := None;
              session.MaxAge := 0; session.Secure := false; session.HttpOnly := false;
              session.SameSite := ""; session.CreatedAt := 1 |} in
  c ∈ session.Get (session.ClearExpired j 20) 30 "shop.example.test" "/" false
  ↔ c ∈ session.Get j 30 "shop.example.test" "/" false.
Proof.
  cbv zeta. apply ClearExpired_keeps_Get. lia.
Defined.

Section CookieCountFacts.
Import session.

Lemma collectNames_sound l (r : gmap string string) n v :
  collectNames l r !! n = Some v →
  r !! n = Some v ∨ ∃ k c, (k, c) ∈ l ∧ Name c = n ∧ Value c = v.
Proof.
  revert r. induction l as [|[k0 c0] l IH]; intros r; simpl; [auto |].
  intros [Hr | (k & c & Hin & Hn & Hv)]%IH.
  - destruct (decide (Name c0 = n)) as [Hn | Hn].
    + rewrite Hn, lookup_insert_eq in Hr. injection Hr as <-.
      right. exists k0, c0. split; [apply elem_of_cons; by left | done].
    + rewrite lookup_insert_ne in Hr by done. by left.
  - right. exists k, c. split; [apply elem_of_cons; by right | done].
Qed.

Lemma collectNames_mono l (r : gmap string string) n :
  is_Some (r !! n) → is_Some (collectNames l r !! n).
Proof.
  revert r. induction l as [|[k0 c0] l IH]; intros r Hr; simpl; [done |].
  apply IH. destruct (decide (Name c0 = n)) as [<- | Hn].
  - rewrite lookup_insert_eq. by eexists.
  - by rewrite lookup_insert_ne.
Qed.

Lemma collectNames_complete l (r : gmap string string) k c :
  (k, c) ∈ l → is_Some (collectNames l r !! Name c).
Proof.
  revert r. induction l as [|[k0 c0] l IH]; intros r Hin.
  { by apply elem_of_nil in Hin. }
  apply elem_of_cons in Hin as [[= <- <-] | Hin]; simpl; [| by apply IH].
  apply collectNames_mono. rewrite lookup_insert_eq. by eexists.
Qed.

Lemma rangeAllCookies_sound l (r : gmap string string) n v :
  rangeAllCookies l r !! n = Some v →
  r !! n = Some v ∨ ∃ d dc k c, (d, dc) ∈ l ∧ dc !! k = Some c ∧ Name c = n ∧ Value c = v.
Proof.
  revert r. induction l as [|[d0 dc0] l IH]; intros r; simpl; [auto |].
  intros [Hr | (d & dc & k & c & Hin & Hrest)]%IH.
  - apply collectNames_sound in Hr as [Hr | (k & c & Hin%elem_of_map_to_list & Hn & Hv)];
      [by left |].
    right. exists d0, dc0, k, c. split; [apply elem_of_cons; by left | done].
  - right. exists d, dc, k, c. split; [apply elem_of_cons; by right | done].
Qed.

Lemma rangeAllCookies_mono l (r : gmap string string) n :
  is_Some (r !! n) → is_Some (rangeAllCookies l r !! n).
Proof.
  revert r. induction l as [|[d0 dc0] l IH]; intros r Hr; simpl; [done |].
  by apply IH, collectNames_mono.
Qed.

Lemma rangeAllCookies_complete l (r : gmap string string) d dc k c :
  (d, dc) ∈ l → dc !! k = Some c → is_Some (rangeAllCookies l r !! Name c).
Proof.
  revert r. induction l as [|[d0 dc0] l IH]; intros r Hin Hk.
  { by apply elem_of_nil in Hin. }
  apply elem_of_cons in Hin as [[= <- <-] | Hin]; simpl; [| by eapply IH].
  apply rangeAllCookies_mono. eapply collectNames_complete.
  by apply elem_of_map_to_list.
Qed.

Lemma jar_lookup_Some (j : CookieJar) d k c :
  jar_lookup j d k = Some c ↔ ∃ dc, j !! d = Some dc ∧ dc !! k = Some c.
Proof.
  unfold jar_lookup. destruct (j !! d) as [dc|]; simpl.
  - split; [by exists dc | by intros (dc' & [= <-] & ?)].
  - split; [done | by intros (dc' & ? & ?)].
Qed.

Lemma Count_insert (j : CookieJar) (d : string) (m : gmap string CookieData) :
  (Count (<[d := m]> j) + size (default ∅ (j !! d)) = Count j + size m)%nat.
Proof.
  unfold Count.
  assert (Hcomm : ∀ (j1 j2 : string) (z1 z2 : gmap string CookieData) (y : nat),
            (y + size z2 + size z1 = y + size z1 + size z2)%nat) by (intros; lia).
  destruct (j !! d) as [dc0|] eqn:Hd; simpl.
  - set (f := λ (_ : string) (domainCookies : gmap string CookieData) (count : nat),
                (count + size domainCookies)%nat).
    assert (H1 : map_fold f 0%nat (<[d := m]> j)
                 = (map_fold f 0%nat (delete d j) + size m)%nat).
    { rewrite <- insert_delete_eq.
      apply (map_fold_insert_L f); [intros; unfold f; lia | apply lookup_delete_eq]. }
    assert (H2 : map_fold f 0%nat j = (map_fold f 0%nat (delete d j) + size dc0)%nat).
    { rewrite <- (insert_delete_id j d dc0 Hd) at 1.
      apply (map_fold_insert_L f); [intros; unfold f; lia | apply lookup_delete_eq]. }
    lia.
  - rewrite map_fold_insert_L by auto. rewrite map_size_empty. lia.
Qed.

Lemma Count_store (j : CookieJar) (d k : string) (v : CookieData) :
  (Count j ≤ Count (<[d := <[k := v]> (default ∅ (j !! d))]> j) ≤ Count j + 1)%nat.
Proof.
  pose proof (Count_insert j d (<[k := v]> (default ∅ (j !! d)))) as Hc.
  rewrite map_size_insert in Hc.
  destruct (default ∅ (j !! d) !! k); simpl in Hc; lia.
Qed.

End CookieCountFacts.

(** X8. [GetAll] lists the names in the jar: every entry of its result is the
    name and value of a stored cookie, every stored cookie's name is a key of
    the result, and a name whose cookies all carry one value is mapped to
    that value (for a name with several values, the map's iteration order
    decides which one is shown). *)
Theorem GetAll_names_of_stored (j : session.CookieJar) :
  (∀ n v, session.GetAll j !! n = Some v →
          ∃ d k c, jar_lookup j d k = Some c ∧ session.Name c = n ∧ session.Value c = v)
  ∧ (∀ d k c, jar_lookup j d k = Some c → is_Some (session.GetAll j !! session.Name c))
  ∧ (∀ d k c,
       jar_lookup j d k = Some c →
       (∀ d' k' c', jar_lookup j d' k' = Some c' →
                    session.Name c' = session.Name c → session.Value c' = session.Value c) →
       session.GetAll j !! session.Name c = Some (session.Value c)).
Proof.
  assert (Hsound : ∀ n v, session.GetAll j !! n = Some v →
            ∃ d k c, jar_lookup j d k = Some c ∧ session.Name c = n ∧ session.Value c = v).
  { intros n v [Hr | (d & dc & k & c & Hin%elem_of_map_to_list & Hk & Hn & Hv)]
      %rangeAllCookies_sound; [by rewrite lookup_empty in Hr |].
    exists d, k, c. split; [apply jar_lookup_Some; eauto | done]. }
  assert (Hcomplete : ∀ d k c, jar_lookup j d k = Some c →
            is_Some (session.GetAll j !! session.Name c)).
  { intros d k c (dc & Hd & Hk)%jar_lookup_Some.
    eapply rangeAllCookies_complete; [by apply elem_of_map_to_list | done]. }
  split; [done |]. split; [done |].
  intros d k c Hc Huniq. destruct (Hcomplete d k c Hc) as [v Hv].
  rewrite Hv. f_equal.
  destruct (Hsound _ _ Hv) as (d' & k' & c' & Hc' & Hn & <-). by apply (Huniq d' k').
Qed.

(** X9. [Set] and [SetSimple] never remove a cookie and add at most one:
    [Count] stays or grows by one; and a Secure cookie received over plain
    HTTP leaves [Count] as it was. *)
Theorem Set_Count_grows_by_at_most_one (j : session.CookieJar) (now : Z)
    (requestHost : string) (cookie : session.CookieData) (requestSecure : bool)
    (name value : string) :
  (session.Count j ≤ session.Count (session.Set_ j now requestHost cookie requestSecure)
   ≤ session.Count j + 1)%nat
  ∧ (session.Count j ≤ session.Count (session.SetSimple j now name value)
     ≤ session.Count j + 1)%nat
  ∧ (session.Secure cookie = true → requestSecure = false →
     session.Count (session.Set_ j now requestHost cookie requestSecure) = session.Count j).
Proof.
  split; [| split].
  - unfold session.Set_.
    destruct (String.eqb (session.Domain cookie) "").
    + destruct (session.Secure cookie && negb requestSecure); [lia | apply Count_store].
    + destruct (negb _); [lia |].
      destruct (session.Secure cookie && negb requestSecure); [lia | apply Count_store].
  - apply Count_store.
  - intros Hs ->. unfold session.Set_. rewrite Hs. simpl.
    destruct (String.eqb (session.Domain cookie) ""); [done |].
    by destruct (negb _).
Qed.

(** ** [Set] followed by [Get]; [ImportV4] *)

Section SetGetFacts.
Import session.

(** An accepted [Set] is one store of [setCookie] under its domain. *)
Lemma Set_accepted (j : CookieJar) (now : Z) (requestHost : string)
    (cookie : CookieData) (requestSecure : bool) :
  let host := normalizeRequestHost requestHost in
  let attr := strings.TrimPrefix (strings.ToLower (Domain cookie)) "." in
  ¬ ((Secure cookie = true ∧ requestSecure = false)
     ∨ (Domain cookie ≠ "" ∧ ¬ spec_host_within host attr)) →
  ∃ d hostOnly,
    Set_ j now requestHost cookie requestSecure
    = <[d := <[cookieKey (Path (setCookie cookie d hostOnly now)) (Name cookie)
                 := setCookie cookie d hostOnly now]> (default ∅ (j !! d))]> j
    ∧ spec_domain_match d host hostOnly
    ∧ (Secure cookie = true → requestSecure = true).
Proof.
  intros host attr Hacc. unfold Set_. fold host. fold attr.
  assert (Hsec : Secure cookie && negb requestSecure = false).
  { destruct (Secure cookie) eqn:Hs, requestSecure; try done.
    exfalso. apply Hacc. by left. }
  assert (Hsec' : Secure cookie = true → requestSecure = true).
  { intros Hs. rewrite Hs in Hsec. by destruct requestSecure. }
  destruct (String.eqb (Domain cookie) "") eqn:Hdom;
    [apply String.eqb_eq in Hdom | apply String.eqb_neq in Hdom].
  - rewrite Hsec. exists host, true. split; [done |]. split; [| done].
    split; [by right; left | done].
  - destruct (isDomainMatch host attr) eqn:Hm.
    + apply isDomainMatch_spec in Hm. simpl. rewrite Hsec.
      exists ("." +:+ attr), false. split; [done |]. split; [| done].
      split; [| done]. right. right. exists attr. split; [done |].
      destruct Hm as [-> | [sub ->]]; [by left | right; by exists sub].
    + exfalso. apply Hacc. right. split; [done |].
      rewrite <- isDomainMatch_spec. congruence.
Qed.

Lemma ImportV4_cons_live (j : CookieJar) (c : CookieState) (rest : list CookieState)
    (now : Z) :
  expiredAt (csExpires c) now = false →
  ImportV4 j (c :: rest) now
  = ImportV4 (<[v4Domain c := <[importKey c := v4Cookie c now]>
                                (default ∅ (j !! v4Domain c))]> j) rest now.
Proof.
  intros Hlive. cbn [ImportV4]. rewrite Hlive. unfold v4Cookie, v4Domain, importKey.
  destruct (String.eqb (csDomain c) ""); [done |].
  by destruct (strings.HasPrefix (strings.ToLower (csDomain c)) ".").
Qed.

Lemma ImportV4_app (j : CookieJar) (l1 l2 : list CookieState) (now : Z) :
  ImportV4 j (l1 ++ l2) now = ImportV4 (ImportV4 j l1 now) l2 now.
Proof.
  revert j. induction l1 as [|c l1 IH]; intros j; [done |].
  destruct (expiredAt (csExpires c) now) eqn:He.
  - simpl. rewrite He. apply IH.
  - rewrite <- app_comm_cons, !ImportV4_cons_live by done. apply IH.
Qed.

Lemma ImportV4_untouched (j : CookieJar) (l : list CookieState) (now : Z) (d k : string) :
  (∀ c, c ∈ l → expiredAt (csExpires c) now = true ∨ (v4Domain c, importKey c) ≠ (d, k)) →
  jar_lookup (ImportV4 j l now) d k = jar_lookup j d k.
Proof.
  revert j. induction l as [|c l IH]; intros j Hl; [done |].
  assert (Hrest : ∀ c', c' ∈ l →
            expiredAt (csExpires c') now = true ∨ (v4Domain c', importKey c') ≠ (d, k)).
  { intros c' Hc'. apply Hl. by apply elem_of_cons; right. }
  destruct (expiredAt (csExpires c) now) eqn:He.
  - simpl. rewrite He. by apply IH.
  - rewrite ImportV4_cons_live, IH, jar_lookup_store by done.
    apply decide_False. intros Heq.
    destruct (Hl c) as [? | Hne]; [by apply elem_of_cons; left | congruence |].
    by apply Hne.
Qed.

End SetGetFacts.

(** X10. A cookie that [Set] accepts goes back to the host that set it: for
    the same request host, over the same scheme, [Get] returns the stored
    cookie as long as it has not expired and the request path matches its
    path.  And [Set] shows nothing else to anyone: whatever [Get] returns
    from the new jar it returned from the old one, unless it is the stored
    cookie and its domain matches the request host. *)
Theorem Set_then_Get (j : session.CookieJar) (now : Z) (requestHost : string)
    (cookie : session.CookieData) (requestSecure : bool) :
  ¬ ((session.Secure cookie = true ∧ requestSecure = false)
     ∨ (session.Domain cookie ≠ ""
        ∧ ¬ spec_host_within (session.normalizeRequestHost requestHost)
              (strings.TrimPrefix (strings.ToLower (session.Domain cookie)) "."))) →
  let j' := session.Set_ j now requestHost cookie requestSecure in
  ∃ stored : session.CookieData,
    session.Name stored = session.Name cookie
    ∧ session.Value stored = session.Value cookie
    ∧ (∀ now' requestPath,
         spec_not_expired (session.Expires cookie) now' →
         spec_path_match (if String.eqb requestPath "" then "/" else requestPath)
           (session.Path stored) →
         stored ∈ session.Get j' now' requestHost requestPath requestSecure)
    ∧ (∀ now' host' path' secure' c',
         c' ∈ session.Get j' now' host' path' secure' →
         c' ∈ session.Get j now' host' path' secure'
         ∨ (c' = stored
            ∧ spec_domain_match (session.Domain stored)
                (session.normalizeRequestHost host') (session.HostOnly stored))).
Proof.
  intros Hacc j'. subst j'.
  destruct (Set_accepted j now requestHost cookie requestSecure Hacc)
    as (d & hostOnly & -> & Hmatch & Hsec).
  exists (setCookie cookie d hostOnly now).
  split; [done |]. split; [done |]. split.
  - intros now' requestPath Hlive Hpath. apply Get_elem_of.
    eexists d, _, _. split; [apply lookup_insert_eq |].
    split; [apply lookup_insert_eq |].
    split; [done |]. split; [done |]. split; [| done].
    simpl. intros [Hs ->]. by specialize (Hsec Hs).
  - intros now' host' path' secure' c' (d' & dc' & k' & Hd' & Hk' & Hm & Hrest)%Get_elem_of.
    assert (Hl : jar_lookup
                   (<[d := <[session.cookieKey
                               (session.Path (setCookie cookie d hostOnly now))
                               (session.Name cookie)
                             := setCookie cookie d hostOnly now]>
                            (default ∅ (j !! d))]> j) d' k' = Some c').
    { apply jar_lookup_Some. eauto. }
    rewrite jar_lookup_store in Hl. case_decide as Heq.
    + injection Heq as -> ->. injection Hl as <-. right. done.
    + left. apply jar_lookup_Some in Hl as (dc0 & Hd0 & Hk0).
      apply Get_elem_of. exists d', dc0, k'. done.
Qed.

Lemma Set_then_Get_witness :
  let cookie := {| session.Name := "sid"; session.Value := "abc";
                   session.Domain := "Example.test"; session.HostOnly := false;
                   session.Path := "/"; session.Expires := None; session.MaxAge := 0;
                   session.Secure := false; session.HttpOnly := false;
                   session.SameSite := ""; session.CreatedAt := 0 |} in
  let j' := session.Set_ ∅ 3 "API.example.test:8443" cookie false in
  ∃ stored : session.CookieData,
    session.Name stored = "sid"
    ∧ session.Value stored = "abc"
    ∧ (∀ now' requestPath,
         spec_not_expired None now' →
         spec_path_match (if String.eqb requestPath "" then "/" else requestPath)
           (session.Path stored) →
         stored ∈ session.Get j' now' "API.example.test:8443" requestPath false)
    ∧ (∀ now' host' path' secure' c',
         c' ∈ session.Get j' now' host' path' secure' →
         c' ∈ session.Get ∅ now' host' path' secure'
         ∨ (c' = stored
            ∧ spec_domain_match (session.Domain stored)
                (session.normalizeRequestHost host') (session.HostOnly stored))).
Proof.
  cbv zeta.
  apply (Set_then_Get ∅ 3 "API.example.test:8443"
           {| session.Name := "sid"; session.Value := "abc";
              session.Domain := "Example.test"; session.HostOnly := false;
              session.Path := "/"; session.Expires := None; session.MaxAge := 0;
              session.Secure := false; session.HttpOnly := false;
              session.SameSite := ""; session.CreatedAt := 0 |} false).
  intros [[Hs _] | [_ Hout]]; [discriminate Hs |].
  apply Hout. right. by exists "api".
Defined.

(** X11. [ImportV4] files each unexpired v4 cookie under its lower-cased
    domain with the creation time [now]; the cookie found under a domain and
    key afterwards is the last unexpired one of the list with that domain
    and key.  A cookie without domain is stored as a global cookie (not
    host-only), one with a domain that has no leading dot as host-only; the
    global one is then returned by [Get] for every request host. *)
Theorem ImportV4_last_wins (j : session.CookieJar) (before after : list session.CookieState)
    (c : session.CookieState) (now : Z) :
  session.expiredAt (session.csExpires c) now = false →
  (∀ c', c' ∈ after →
         session.expiredAt (session.csExpires c') now = true
         ∨ (v4Domain c', importKey c') ≠ (v4Domain c, importKey c)) →
  let j' := session.ImportV4 j (before ++ c :: after) now in
  jar_lookup j' (v4Domain c) (importKey c) = Some (v4Cookie c now)
  ∧ (session.csDomain c = "" →
     session.HostOnly (v4Cookie c now) = false
     ∧ ∀ now' requestHost requestPath requestSecure,
         spec_path_match (if String.eqb requestPath "" then "/" else requestPath)
           (session.Path (v4Cookie c now)) →
         ¬ (session.csSecure c = true ∧ requestSecure = false) →
         spec_not_expired (session.csExpires c) now' →
         v4Cookie c now ∈ session.Get j' now' requestHost requestPath requestSecure).
Proof.
  intros Hlive Hafter j'.
  assert (Hl : jar_lookup j' (v4Domain c) (importKey c) = Some (v4Cookie c now)).
  { subst j'. rewrite ImportV4_app, ImportV4_cons_live, ImportV4_untouched by done.
    rewrite jar_lookup_store. by apply decide_True. }
  split; [done |]. intros Hdom. split.
  { unfold v4Cookie. simpl. by rewrite Hdom. }
  intros now' requestHost requestPath requestSecure Hpath Hsec Hlive'.
  apply jar_lookup_Some in Hl as (dc & Hd & Hk). apply Get_elem_of.
  exists (v4Domain c), dc, (importKey c).
  split; [done |]. split; [done |]. split; [| done].
  unfold v4Domain, v4Cookie. simpl. rewrite Hdom. simpl. split; [by left | done].
Qed.

Lemma ImportV4_last_wins_witness :
  let c := {| session.csName := "lang"; session.csValue := "en"; session.csDomain := "";
              session.csPath := ""; session.csExpires := Some 100; session.csMaxAge := 0;
              session.csSecure := false; session.csHttpOnly := false;
              session.csSameSite := ""; session.csCreatedAt := None |} in
  let j' := session.ImportV4 ∅ ([] ++ c :: []) 5 in
  jar_lookup j' (v4Domain c) (importKey c) = Some (v4Cookie c 5)
  ∧ (session.csDomain c = "" →
     session.HostOnly (v4Cookie c 5) = false
     ∧ ∀ now' requestHost requestPath requestSecure,
         spec_path_match (if String.eqb requestPath "" then "/" else requestPath)
           (session.Path (v4Cookie c 5)) →
         ¬ (session.csSecure c = true ∧ requestSecure = false) →
         spec_not_expired (session.csExpires c) now' →
         v4Cookie c 5 ∈ session.Get j' now' requestHost requestPath requestSecure).
Proof.
  cbv zeta.
  apply (ImportV4_last_wins ∅ [] []
           {| session.csName := "lang"; session.csValue := "en"; session.csDomain := "";
              session.csPath := ""; session.csExpires := Some 100; session.csMaxAge := 0;
              session.csSecure := false; session.csHttpOnly := false;
              session.csSameSite := ""; session.csCreatedAt := None |} 5).
  - reflexivity.
  - intros c' Hc'. by apply elem_of_nil in Hc'.
Defined.

(** ** The host normalisation of [Set] and [Get] *)

Section HostFacts.
Import strings.

Lemma lower_byte_colon (c : ascii) : lower_byte c = ":"%char ↔ c = ":"%char.
Proof.
  destruct c as [[] [] [] [] [] [] [] []]; vm_compute; split; intros E;
    (discriminate E || reflexivity).
Qed.

Lemma lower_byte_bracket (c : ascii) : lower_byte c = "]"%char ↔ c = "]"%char.
Proof.
  destruct c as [[] [] [] [] [] [] [] []]; vm_compute; split; intros E;
    (discriminate E || reflexivity).
Qed.

Lemma ToLower_append (a b : string) : ToLower (a +:+ b) = ToLower a +:+ ToLower b.
Proof.
  induction a as [|c a IH]; [done |].
  rewrite append_cons. simpl. by rewrite IH, append_cons.
Qed.

Lemma length_ToLower (s : string) : String.length (ToLower s) = String.length s.
Proof. induction s as [|c s IH]; simpl; [done | by rewrite IH]. Qed.

Lemma occurs_cons (x c : ascii) (s : string) :
  occurs x (String c s) ↔ c = x ∨ occurs x s.
Proof.
  split.
  - intros ([|f front] & back & E).
    + injection E as -> _. by left.
    + rewrite append_cons in E. injection E as _ ->. right. by exists front, back.
  - intros [-> | (front & back & ->)].
    + by exists "", s.
    + exists (String c front), back. by rewrite append_cons.
Qed.

Lemma occurs_empty (x : ascii) : ¬ occurs x "".
Proof. intros ([|f front] & back & E); discriminate E. Qed.

Lemma occurs_ToLower (x : ascii) (s : string) :
  (∀ c, lower_byte c = x ↔ c = x) → occurs x (ToLower s) ↔ occurs x s.
Proof.
  intros Hx. induction s as [|c s IH]; simpl.
  - split; intros H; by apply occurs_empty in H.
  - by rewrite !occurs_cons, IH, Hx.
Qed.

Lemma IndexByte_range (s : string) (x : ascii) :
  -1 ≤ IndexByte s x < Z.of_nat (String.length s).
Proof.
  induction s as [|c s IH]; simpl; [lia |].
  destruct (Ascii.eqb c x); [lia |].
  destruct (IndexByte s x =? -1) eqn:E; [lia |]. apply Z.eqb_neq in E. lia.
Qed.

Lemma LastIndexByte_range (s : string) (x : ascii) :
  -1 ≤ LastIndexByte s x < Z.of_nat (String.length s).
Proof.
  induction s as [|c s IH]; simpl; [lia |].
  destruct (LastIndexByte s x =? -1) eqn:E.
  - destruct (Ascii.eqb c x); lia.
  - apply Z.eqb_neq in E. lia.
Qed.

Lemma IndexByte_absent (s : string) (x : ascii) :
  IndexByte s x = -1 ↔ ¬ occurs x s.
Proof.
  induction s as [|c s IH]; simpl.
  - split; [intros _; apply occurs_empty | done].
  - rewrite occurs_cons. destruct (Ascii.eqb c x) eqn:Ec.
    + apply Ascii.eqb_eq in Ec. split; [lia | tauto].
    + apply Ascii.eqb_neq in Ec. pose proof (IndexByte_range s x).
      destruct (IndexByte s x =? -1) eqn:E.
      * apply Z.eqb_eq in E. tauto.
      * apply Z.eqb_neq in E. split; [lia |]. intros Hn. exfalso. apply E, IH. tauto.
Qed.

Lemma LastIndexByte_absent (s : string) (x : ascii) :
  LastIndexByte s x = -1 ↔ ¬ occurs x s.
Proof.
  induction s as [|c s IH]; simpl.
  - split; [intros _; apply occurs_empty | done].
  - rewrite occurs_cons. pose proof (LastIndexByte_range s x).
    destruct (LastIndexByte s x =? -1) eqn:E.
    + apply Z.eqb_eq in E. destruct (Ascii.eqb c x) eqn:Ec.
      * apply Ascii.eqb_eq in Ec. split; [lia | tauto].
      * apply Ascii.eqb_neq in Ec. tauto.
    + apply Z.eqb_neq in E. split; [lia |]. intros Hn. exfalso. apply E, IH. tauto.
Qed.

(** The last occurrence in [a ++ rest] when [rest] holds one: shifted by [a]. *)
Lemma LastIndexByte_append_in (a rest : string) (x : ascii) :
  LastIndexByte rest x ≠ -1 →
  LastIndexByte (a +:+ rest) x = Z.of_nat (String.length a) + LastIndexByte rest x.
Proof.
  intros Hr. induction a as [|c a IH]; [rewrite append_nil_l; simpl; lia |].
  rewrite append_cons. simpl. rewrite IH.
  pose proof (LastIndexByte_range rest x).
  destruct (_ =? -1) eqn:E; [apply Z.eqb_eq in E |]; lia.
Qed.

Lemma LastIndexByte_append_out (a rest : string) (x : ascii) :
  LastIndexByte rest x = -1 → LastIndexByte (a +:+ rest) x = LastIndexByte a x.
Proof.
  intros Hr. induction a as [|c a IH]; [done |].
  rewrite append_cons. simpl. by rewrite IH.
Qed.

Lemma IndexByte_append_in (a rest : string) (x : ascii) :
  ¬ occurs x a → IndexByte rest x ≠ -1 →
  IndexByte (a +:+ rest) x = Z.of_nat (String.length a) + IndexByte rest x.
Proof.
  intros Ha Hr. induction a as [|c a IH]; [rewrite append_nil_l; simpl; lia |].
  rewrite occurs_cons in Ha. rewrite append_cons. simpl.
  destruct (Ascii.eqb c x) eqn:Ec; [apply Ascii.eqb_eq in Ec; tauto |].
  rewrite IH by tauto. pose proof (IndexByte_range rest x).
  destruct (_ =? -1) eqn:E; [apply Z.eqb_eq in E |]; lia.
Qed.

Lemma IndexByte_append_out (a rest : string) (x : ascii) :
  IndexByte rest x = -1 →
  IndexByte (a +:+ rest) x = -1
  ∨ 0 ≤ IndexByte (a +:+ rest) x < Z.of_nat (String.length a).
Proof.
  intros Hr. induction a as [|c a IH]; [by left |].
  rewrite append_cons. simpl. destruct (Ascii.eqb c x); [lia |].
  destruct (_ =? -1) eqn:E; [by left |]. apply Z.eqb_neq in E. lia.
Qed.

Lemma slice_to_append (a b : string) : slice_to (a +:+ b) (String.length a) = a.
Proof.
  induction a as [|c a IH]; [done |].
  rewrite append_cons. simpl. by rewrite IH.
Qed.

End HostFacts.

(** X12. The host that [Set] and [Get] work with, for ASCII hosts (on which
    the byte-wise [ToLower] is Go's).  A host without a colon is only
    lower-cased.  A trailing [:port] is cut (the port holds no colon and no
    closing bracket), whatever stands before it, so [[::1]:443] loses its
    port.  A bracketed IPv6 address without port is kept whole: when every
    colon stands before the first closing bracket, nothing is cut. *)
Theorem normalizeRequestHost_strips_port (host port front back : string) :
  isASCII host = true → isASCII port = true →
  isASCII front = true → isASCII back = true →
  (¬ occurs ":" host →
   session.normalizeRequestHost host = strings.ToLower host)
  ∧ (¬ occurs ":" port → ¬ occurs "]" port →
     session.normalizeRequestHost (host +:+ ":" +:+ port) = strings.ToLower host)
  ∧ (¬ occurs "]" front → ¬ occurs ":" back →
     session.normalizeRequestHost (front +:+ "]" +:+ back)
     = strings.ToLower (front +:+ "]" +:+ back)).
Proof.
  intros _ _ _ _. unfold session.normalizeRequestHost. split; [| split].
  - intros Hc. rewrite <- (occurs_ToLower _ _ lower_byte_colon) in Hc.
    apply LastIndexByte_absent in Hc. by rewrite Hc.
  - intros Hc Hb.
    rewrite <- (occurs_ToLower _ _ lower_byte_colon) in Hc.
    rewrite <- (occurs_ToLower _ _ lower_byte_bracket) in Hb.
    rewrite ToLower_append.
    change (strings.ToLower (":" +:+ port)) with (String ":" (strings.ToLower port)).
    set (H := strings.ToLower host). set (P := strings.ToLower port) in *.
    assert (Hidx : strings.LastIndexByte (H +:+ String ":" P) ":" = Z.of_nat (String.length H)).
    { rewrite LastIndexByte_append_in.
      - simpl. apply LastIndexByte_absent in Hc. rewrite Hc. simpl. lia.
      - simpl. apply LastIndexByte_absent in Hc. by rewrite Hc. }
    rewrite Hidx.
    assert (Hbr : strings.IndexByte (String ":" P) "]" = -1).
    { simpl. apply IndexByte_absent in Hb. by rewrite Hb. }
    assert (Hcut : negb (strings.ContainsByte (H +:+ String ":" P) "]")
                   || (strings.IndexByte (H +:+ String ":" P) "]" <? Z.of_nat (String.length H))
                   = true).
    { unfold strings.ContainsByte.
      destruct (IndexByte_append_out H _ "]" Hbr) as [-> | Hin]; [done |].
      apply orb_true_iff. right. apply Z.ltb_lt. lia. }
    rewrite Hcut, Nat2Z.id, slice_to_append.
    destruct (Z.of_nat (String.length H) =? -1) eqn:E; [apply Z.eqb_eq in E; lia | done].
  - intros Hb Hc.
    rewrite <- (occurs_ToLower _ _ lower_byte_bracket) in Hb.
    rewrite <- (occurs_ToLower _ _ lower_byte_colon) in Hc.
    rewrite ToLower_append.
    change (strings.ToLower ("]" +:+ back)) with (String "]" (strings.ToLower back)).
    set (F := strings.ToLower front) in *. set (B := strings.ToLower back) in *.
    assert (Hidx : strings.LastIndexByte (F +:+ String "]" B) ":" = strings.LastIndexByte F ":").
    { apply LastIndexByte_append_out. simpl.
      apply LastIndexByte_absent in Hc. by rewrite Hc. }
    assert (Hbr : strings.IndexByte (F +:+ String "]" B) "]" = Z.of_nat (String.length F)).
    { rewrite IndexByte_append_in; [simpl; lia | done | done]. }
    rewrite Hidx, Hbr. pose proof (LastIndexByte_range F ":") as Hr.
    destruct (strings.LastIndexByte F ":" =? -1) eqn:E; [done |]. simpl.
    unfold strings.ContainsByte. rewrite Hbr.
    destruct (0 <=? Z.of_nat (String.length F)) eqn:E0; [| apply Z.leb_gt in E0; lia].
    simpl. destruct (_ <? _) eqn:E1; [apply Z.ltb_lt in E1; lia | done].
Qed.

Lemma normalizeRequestHost_strips_port_witness :
  (¬ occurs ":" "Example.COM" →
   session.normalizeRequestHost "Example.COM" = strings.ToLower "Example.COM")
  ∧ (¬ occurs ":" "8443" → ¬ occurs "]" "8443" →
     session.normalizeRequestHost ("Example.COM" +:+ ":" +:+ "8443")
     = strings.ToLower "Example.COM")
  ∧ (¬ occurs "]" "[2001:DB8::1" → ¬ occurs ":" "" →
     session.normalizeRequestHost ("[2001:DB8::1" +:+ "]" +:+ "")
     = strings.ToLower ("[2001:DB8::1" +:+ "]" +:+ "")).
Proof.
  apply (normalizeRequestHost_strips_port "Example.COM" "8443" "[2001:DB8::1" "");
    reflexivity.
Defined.

(** ** [Get], [Put], [Export] and [Import] of the TLS cache, composed *)

Section CacheComposeFacts.
Import transport.
Context `{TLSLibrary}.

Lemma moveToEnd_sessions (c : PersistableSessionCache) (key : string) :
  sessions (moveToEnd c key) = sessions c.
Proof. unfold moveToEnd. by destruct (cutFirst key (accessOrder c)). Qed.

Lemma moveToEnd_order (c : PersistableSessionCache) (key : string) :
  accessOrder (moveToEnd c key) ≡ₚ accessOrder c.
Proof.
  unfold moveToEnd. destruct (cutFirst key (accessOrder c)) as [rest|] eqn:Hcut; [| done].
  apply cutFirst_Some in Hcut. simpl. by rewrite Hcut, <- Permutation_cons_append.
Qed.

Lemma cutFirst_elem_of (key : string) (order : list string) :
  key ∈ order → ∃ rest, cutFirst key order = Some rest.
Proof.
  induction order as [|k order IH]; intros Hin; [by apply elem_of_nil in Hin |].
  simpl. destruct (String.eqb k key) eqn:Hk; [by eexists |].
  apply String.eqb_neq in Hk.
  apply elem_of_cons in Hin as [-> | Hin]; [done |].
  destruct (IH Hin) as [rest ->]. by eexists.
Qed.

Lemma Put_lookup (c : PersistableSessionCache) (now : Z) (key : string)
    (cs : option ClientSessionState) :
  sessions (Put c now key cs) !! key = Some {| state := cs; createdAt := now |}.
Proof.
  unfold Put. destruct (sessions c !! key).
  - rewrite moveToEnd_sessions. simpl. apply lookup_insert_eq.
  - simpl. apply lookup_insert_eq.
Qed.

Lemma Put_covered (c : PersistableSessionCache) (now : Z) (key : string)
    (cs : option ClientSessionState) :
  dom (sessions c) ⊆ list_to_set (accessOrder c) →
  dom (sessions (Put c now key cs)) ⊆ list_to_set (accessOrder (Put c now key cs)).
Proof.
  intros Hcov. unfold Put. destruct (sessions c !! key) eqn:Hkey.
  - rewrite moveToEnd_sessions. simpl.
    rewrite (moveToEnd_order {| sessions := _; accessOrder := accessOrder c |} key). simpl.
    rewrite dom_insert_L. apply elem_of_dom_2 in Hkey. set_solver.
  - destruct (TLSSessionCacheMaxSize <=? size (sessions c))%nat.
    + destruct (accessOrder c) as [|oldest rest] eqn:Horder; simpl.
      * rewrite dom_insert_L. set_solver.
      * rewrite dom_insert_L, dom_delete_L, list_to_set_app_L.
        rewrite list_to_set_cons in Hcov. set_solver.
    + simpl. rewrite dom_insert_L, list_to_set_app_L. set_solver.
Qed.

Lemma importSessions_covered now entries (c : PersistableSessionCache) :
  dom (sessions c) ⊆ list_to_set (accessOrder c) →
  dom (sessions (importSessions now entries c))
  ⊆ list_to_set (accessOrder (importSessions now entries c)).
Proof.
  revert c. induction entries as [|[k s] entries IH]; intros c Hcov; simpl; [done |].
  apply IH. unfold importEntry.
  destruct (TLSSessionMaxAge <? now - tsCreatedAt s); [done |].
  destruct (decodeSession s); [| done].
  simpl. rewrite dom_insert_L, list_to_set_app_L. set_solver.
Qed.

Lemma enforceMaxSize_covered (m : gmap string cachedSession) (order : list string) :
  dom m ⊆ list_to_set order →
  dom (sessions (enforceMaxSize m order)) ⊆ list_to_set (accessOrder (enforceMaxSize m order))
  ∧ (size (sessions (enforceMaxSize m order)) ≤ TLSSessionCacheMaxSize)%nat.
Proof.
  revert m. induction order as [|oldest order IH]; intros m Hcov; simpl.
  - split; [done |]. rewrite list_to_set_nil in Hcov.
    assert (m = ∅) as -> by (apply dom_empty_iff_L; set_solver).
    rewrite map_size_empty. lia.
  - destruct (TLSSessionCacheMaxSize <? size m)%nat eqn:Hlt.
    + apply IH. rewrite dom_delete_L. rewrite list_to_set_cons in Hcov. set_solver.
    + simpl. split; [done |]. by apply Nat.ltb_ge in Hlt.
Qed.

Lemma applyOps_exact (ops : list lruOp) (c : PersistableSessionCache) :
  orderExact c → (Count c ≤ TLSSessionCacheMaxSize)%nat →
  orderExact (fold_left applyOp ops c).
Proof.
  revert c. induction ops as [|op ops IH]; intros c Hex Hcount; simpl; [done |].
  destruct (applyOp_exact c op Hex Hcount). by apply IH.
Qed.

Lemma applyCacheOp_covered (c : PersistableSessionCache) (op : cacheOp) :
  dom (sessions c) ⊆ list_to_set (accessOrder c) →
  dom (sessions (applyCacheOp c op)) ⊆ list_to_set (accessOrder (applyCacheOp c op)).
Proof.
  intros Hcov. destruct op as [[key | now key cs |] | entries now]; simpl.
  - unfold Get. destruct (sessions c !! key); simpl; [| done].
    by rewrite moveToEnd_sessions, moveToEnd_order.
  - by apply Put_covered.
  - set_solver.
  - unfold ImportInOrder. by apply enforceMaxSize_covered, importSessions_covered.
Qed.

End CacheComposeFacts.

(** X13. Reading a session keeps it from the next eviction.  In a cache whose
    access order is exact, [Get] of a cached key returns its state and leaves
    the sessions as they are; and whatever other key is [Put] next, at
    capacity or not, the session that was read is still cached. *)
Theorem Get_protects_from_eviction `{transport.TLSLibrary}
    (c : transport.PersistableSessionCache) (now : Z) (key other : string)
    (cached : transport.cachedSession) (cs : option transport.ClientSessionState) :
  transport.orderExact c →
  transport.sessions c !! key = Some cached →
  other ≠ key →
  (transport.Get c key).2 = (transport.state cached, true)
  ∧ transport.sessions (transport.Get c key).1 = transport.sessions c
  ∧ transport.sessions (transport.Put (transport.Get c key).1 now other cs) !! key
    = Some cached.
Proof.
  intros Hex Hkey Hne. pose proof (orderExact_size c Hex) as Hsize.
  destruct Hex as [Hnd Hdom].
  assert (Hin : key ∈ transport.accessOrder c).
  { apply (elem_of_list_to_set (C := gset string)). rewrite <- Hdom.
    by eapply elem_of_dom_2. }
  destruct (cutFirst_elem_of key _ Hin) as [rest Hcut].
  pose proof (cutFirst_Some _ _ _ Hcut) as Hperm.
  unfold transport.Get. rewrite Hkey. simpl.
  split; [done |]. split; [apply moveToEnd_sessions |].
  assert (Hord : transport.accessOrder (transport.moveToEnd c key) = rest ++ [key]).
  { unfold transport.moveToEnd. by rewrite Hcut. }
  unfold transport.Put. rewrite moveToEnd_sessions, Hord.
  destruct (transport.sessions c !! other) eqn:Hother.
  - rewrite moveToEnd_sessions. cbn [transport.sessions]. by rewrite lookup_insert_ne.
  - destruct (transport.TLSSessionCacheMaxSize <=? size (transport.sessions c))%nat eqn:Hcap.
    + apply Nat.leb_le in Hcap. rewrite Hperm in Hnd.
      apply NoDup_cons in Hnd as [Hfresh _].
      destruct rest as [|oldest rest].
      * apply Permutation_length in Hperm. rewrite Hperm in Hsize. simpl in Hsize.
        unfold transport.TLSSessionCacheMaxSize in Hcap. lia.
      * cbn [app transport.sessions]. rewrite lookup_insert_ne by done.
        rewrite lookup_delete_ne; [done |].
        intros ->. apply Hfresh. by apply elem_of_cons; left.
    + cbn [transport.sessions]. rewrite moveToEnd_sessions. by rewrite lookup_insert_ne.
Qed.

Lemma Get_protects_from_eviction_witness :
  let c := fold_left (transport.applyOp (H := loopback))
             ((λ i, transport.OpPut 3 (sessionKey i) (Some sampleClientSession)) <$> seq 0 32)
             transport.NewPersistableSessionCache in
  let cached := {| transport.state := Some sampleClientSession; transport.createdAt := 3 |} in
  (transport.Get c (sessionKey 0)).2 = (transport.state cached, true)
  ∧ transport.sessions (transport.Get c (sessionKey 0)).1 = transport.sessions c
  ∧ transport.sessions
      (transport.Put (transport.Get c (sessionKey 0)).1 4 (sessionKey 32) None)
      !! sessionKey 0
    = Some cached.
Proof.
  cbv zeta.
  refine (Get_protects_from_eviction (H := loopback)
            (fold_left (transport.applyOp (H := loopback))
               ((λ i, transport.OpPut 3 (sessionKey i) (Some sampleClientSession))
                  <$> seq 0 32)
               transport.NewPersistableSessionCache) 4 (sessionKey 0) (sessionKey 32)
            {| transport.state := Some sampleClientSession; transport.createdAt := 3 |} None
            _ _ _).
  - apply (applyOps_exact (H := loopback)).
    + split; [constructor | reflexivity].
    + vm_compute. lia.
  - vm_compute. reflexivity.
  - vm_compute. discriminate.
Defined.

(** X14. What [Put] stores is what [Get] returns: right after [Put] of a key
    with a state, [Get] of that key finds it and returns that state, whether
    the key was new or cached, and whether or not a session was evicted. *)
Theorem Put_then_Get `{transport.TLSLibrary}
    (c : transport.PersistableSessionCache) (now : Z) (key : string)
    (cs : option transport.ClientSessionState) :
  (transport.Get (transport.Put c now key cs) key).2 = (cs, true).
Proof. unfold transport.Get. by rewrite Put_lookup. Qed.

(** X15. [Export] writes only sessions that the cache holds with a state,
    each with the creation time it is cached with, so it never writes more
    entries than [Count]; a key last [Put] with the nil state (how a TLS
    stack drops a session) is not exported. *)
Theorem Export_only_live_sessions `{transport.TLSLibrary}
    (c : transport.PersistableSessionCache) (now : Z) (key : string) :
  (∀ k s, transport.Export c !! k = Some s →
          ∃ cached cs, transport.sessions c !! k = Some cached
                       ∧ transport.state cached = Some cs
                       ∧ transport.tsCreatedAt s = transport.createdAt cached)
  ∧ (size (transport.Export c) ≤ transport.Count c)%nat
  ∧ transport.Export (transport.Put c now key None) !! key = None.
Proof.
  split; [| split].
  - intros k s. unfold transport.Export. rewrite lookup_omap.
    destruct (transport.sessions c !! k) as [cached|]; simpl; [| done].
    unfold transport.exportSession.
    destruct (transport.state cached) as [cs|] eqn:Hstate; [| done].
    destruct (transport.ResumptionState cs) as [[[ticket|] [st|]]|]; try done.
    destruct (transport.SessionState_Bytes st); [| done].
    intros [= <-]. by exists cached, cs.
  - unfold transport.Count, transport.Export.
    rewrite <- !size_dom. apply subseteq_size, dom_omap_subseteq.
  - unfold transport.Export. by rewrite lookup_omap, Put_lookup.
Qed.

(** X16. Across every sequence of [Get], [Put], [Clear] and [Import] from the
    empty cache, every cached session is named in [accessOrder], so [Count]
    never exceeds the length of [accessOrder]; and each [Import], whatever
    it is given and in whatever order, returns with at most 32 sessions. *)
Theorem Import_restores_bound `{transport.TLSLibrary} (ops : list transport.cacheOp)
    (entries : list (string * transport.TLSSessionState))
    (snapshot : gmap string transport.TLSSessionState) (now : Z) :
  let c := fold_left transport.applyCacheOp ops transport.NewPersistableSessionCache in
  dom (transport.sessions c) ⊆ list_to_set (transport.accessOrder c)
  ∧ (transport.Count c ≤ length (transport.accessOrder c))%nat
  ∧ (transport.Count (transport.ImportInOrder c entries now) ≤ 32)%nat
  ∧ (transport.Count (transport.Import c snapshot now) ≤ 32)%nat.
Proof.
  cbv zeta.
  assert (Hcov : dom (transport.sessions
                        (fold_left transport.applyCacheOp ops
                           transport.NewPersistableSessionCache))
                 ⊆ list_to_set (transport.accessOrder
                                  (fold_left transport.applyCacheOp ops
                                     transport.NewPersistableSessionCache))).
  { assert (G : ∀ c, dom (transport.sessions c) ⊆ list_to_set (transport.accessOrder c) →
              dom (transport.sessions (fold_left transport.applyCacheOp ops c))
              ⊆ list_to_set (transport.accessOrder (fold_left transport.applyCacheOp ops c))).
    { induction ops as [|op ops IH]; intros c Hc; simpl; [done |].
      by apply IH, applyCacheOp_covered. }
    apply G. simpl. set_solver. }
  split; [done |]. split; [| split].
  - unfold transport.Count. rewrite <- size_dom.
    etrans; [by apply subseteq_size |]. apply size_list_to_set_le.
  - unfold transport.Count, transport.ImportInOrder.
    by apply enforceMaxSize_covered, importSessions_covered.
  - unfold transport.Count, transport.Import, transport.ImportInOrder.
    by apply enforceMaxSize_covered, importSessions_covered.
Qed.

(** ** What [parseSubresources] takes from the page *)

Section WarmupTagFacts.
Import session.
Variable resolveURL : string → string → string.

Lemma getAttr_first (z : list (string * string)) (name v : string) :
  getAttr z name = v → v ≠ "" → firstAttr z name v.
Proof.
  induction z as [|[k val] z IH]; simpl; intros Hget Hv; [congruence |].
  destruct (String.eqb k name) eqn:E.
  - apply String.eqb_eq in E. subst. exists [], z. split; [done |].
    intros v' Hin. by apply elem_of_nil in Hin.
  - apply String.eqb_neq in E. destruct (IH Hget Hv) as (pre & post & -> & Hpre).
    exists ((k, val) :: pre), post. split; [done |].
    intros v' [Heq | Hin]%elem_of_cons; [congruence | by eapply Hpre].
Qed.

Lemma firstAttr_getAttr (z : list (string * string)) (name v : string) :
  firstAttr z name v → getAttr z name = v.
Proof.
  intros (pre & post & -> & Hpre).
  induction pre as [|[k val] pre IH]; simpl; [by rewrite String.eqb_refl |].
  destruct (String.eqb k name) eqn:E.
  - apply String.eqb_eq in E. subst. exfalso. apply (Hpre val). by left.
  - apply IH. intros v' Hin. apply (Hpre v'). by right.
Qed.

Lemma lastAttr_snoc_same (z : list (string * string)) (name v : string) :
  lastAttr (z ++ [(name, v)]) name v.
Proof. exists z, []. split; [done |]. intros v' Hin. by apply elem_of_nil in Hin. Qed.

Lemma lastAttr_snoc_other (z : list (string * string)) (k val name v : string) :
  k ≠ name → lastAttr z name v → lastAttr (z ++ [(k, val)]) name v.
Proof.
  intros Hk (pre & post & -> & Hpost). exists pre, (post ++ [(k, val)]).
  split; [by rewrite <- app_assoc |].
  intros v' [Hin | Hin%list_elem_of_singleton]%elem_of_app; [by eapply Hpost | congruence].
Qed.

Lemma lastAttr_snoc_inv (z : list (string * string)) (k val name v : string) :
  lastAttr (z ++ [(k, val)]) name v →
  (k = name ∧ val = v) ∨ (k ≠ name ∧ lastAttr z name v).
Proof.
  intros (pre & post & Heq & Hpost).
  destruct post as [|y post _] using rev_ind.
  - apply app_inj_tail in Heq as [_ Heq]. left. by injection Heq as -> ->.
  - rewrite app_comm_cons, app_assoc in Heq. apply app_inj_tail in Heq as [-> <-].
    right. split.
    + intros ->. apply (Hpost val), elem_of_app. right. by apply list_elem_of_singleton.
    + exists pre, post. split; [done |].
      intros v' Hin. apply (Hpost v'), elem_of_app. by left.
Qed.

Lemma absent_snoc (z : list (string * string)) (k val name : string) :
  k ≠ name → (∀ v, (name, v) ∉ z) → ∀ v, (name, v) ∉ z ++ [(k, val)].
Proof.
  intros Hk Hz v [Hin | Hin%list_elem_of_singleton]%elem_of_app;
    [by eapply Hz | congruence].
Qed.

Lemma parseLinkAttrs_snoc (z : list (string * string)) (k val : string) :
  parseLinkAttrs (z ++ [(k, val)])
  = let '(href, rel, as_) := parseLinkAttrs z in
    if String.eqb k "href" then (val, rel, as_)
    else if String.eqb k "rel" then (href, strings.ToLower val, as_)
    else if String.eqb k "as" then (href, rel, strings.ToLower val)
    else (href, rel, as_).
Proof.
  unfold parseLinkAttrs. rewrite fold_left_app. simpl.
  by destruct (fold_left _ z _) as [[href rel] as_].
Qed.

(** What [parseLinkAttrs] returns: for each of the three names, the value of
    the last attribute of that name, or the empty string when there is none. *)
Lemma parseLinkAttrs_last (z : list (string * string)) (href rel as_ : string) :
  parseLinkAttrs z = (href, rel, as_) →
  (lastAttr z "href" href ∨ (href = "" ∧ ∀ v, ("href", v) ∉ z))
  ∧ ((∃ v, lastAttr z "rel" v ∧ rel = strings.ToLower v)
     ∨ (rel = "" ∧ ∀ v, ("rel", v) ∉ z))
  ∧ ((∃ v, lastAttr z "as" v ∧ as_ = strings.ToLower v)
     ∨ (as_ = "" ∧ ∀ v, ("as", v) ∉ z)).
Proof.
  revert href rel as_. induction z as [|[k val] z IH] using rev_ind; intros href rel as_.
  { intros [= <- <- <-]. repeat split; right; (split; [done |]);
      intros v Hin; by apply elem_of_nil in Hin. }
  rewrite parseLinkAttrs_snoc.
  destruct (parseLinkAttrs z) as [[h r] a]. destruct (IH h r a eq_refl) as (Hh & Hr & Ha).
  assert (Hkeep : ∀ name (P : string → Prop),
            k ≠ name →
            (∃ v, lastAttr z name v ∧ P v) ∨ (P "" ∧ ∀ v, (name, v) ∉ z) →
            (∃ v, lastAttr (z ++ [(k, val)]) name v ∧ P v)
            ∨ (P "" ∧ ∀ v, (name, v) ∉ z ++ [(k, val)])).
  { intros name P Hk [(v & Hl & HP) | [HP Habs]].
    - left. exists v. split; [by apply lastAttr_snoc_other | done].
    - right. split; [done | by apply absent_snoc]. }
  assert (Hkeep' : ∀ name x,
            k ≠ name →
            lastAttr z name x ∨ (x = "" ∧ ∀ v, (name, v) ∉ z) →
            lastAttr (z ++ [(k, val)]) name x
            ∨ (x = "" ∧ ∀ v, (name, v) ∉ z ++ [(k, val)])).
  { intros name x Hk [Hl | [-> Habs]].
    - left. by apply lastAttr_snoc_other.
    - right. split; [done | by apply absent_snoc]. }
  destruct (String.eqb k "href") eqn:E1.
  { apply String.eqb_eq in E1. subst k. intros [= <- <- <-].
    split; [left; apply lastAttr_snoc_same |].
    split.
    - destruct Hr as [(v & Hl & ->) | [-> Habs]].
      + left. exists v. split; [by apply lastAttr_snoc_other | done].
      + right. split; [done | by apply absent_snoc].
    - destruct Ha as [(v & Hl & ->) | [-> Habs]].
      + left. exists v. split; [by apply lastAttr_snoc_other | done].
      + right. split; [done | by apply absent_snoc]. }
  apply String.eqb_neq in E1.
  destruct (String.eqb k "rel") eqn:E2.
  { apply String.eqb_eq in E2. subst k. intros [= <- <- <-].
    split; [by apply Hkeep' |].
    split; [left; exists val; split; [apply lastAttr_snoc_same | done] |].
    destruct Ha as [(v & Hl & ->) | [-> Habs]].
    - left. exists v. split; [by apply lastAttr_snoc_other | done].
    - right. split; [done | by apply absent_snoc]. }
  apply String.eqb_neq in E2.
  destruct (String.eqb k "as") eqn:E3.
  { apply String.eqb_eq in E3. subst k. intros [= <- <- <-].
    split; [by apply Hkeep' |].
    split; [| left; exists val; split; [apply lastAttr_snoc_same | done]].
    destruct Hr as [(v & Hl & ->) | [-> Habs]].
    - left. exists v. split; [by apply lastAttr_snoc_other | done].
    - right. split; [done | by apply absent_snoc]. }
  apply String.eqb_neq in E3. intros [= <- <- <-].
  split; [by apply Hkeep' |]. split.
  - destruct Hr as [(v & Hl & ->) | [-> Habs]].
    + left. exists v. split; [by apply lastAttr_snoc_other | done].
    + right. split; [done | by apply absent_snoc].
  - destruct Ha as [(v & Hl & ->) | [-> Habs]].
    + left. exists v. split; [by apply lastAttr_snoc_other | done].
    + right. split; [done | by apply absent_snoc].
Qed.

(** And the other way round: the last attribute of a name is what
    [parseLinkAttrs] returns for it. *)
Lemma lastAttr_parseLinkAttrs (z : list (string * string)) (v : string) :
  (lastAttr z "href" v → (parseLinkAttrs z).1.1 = v)
  ∧ (lastAttr z "rel" v → (parseLinkAttrs z).1.2 = strings.ToLower v)
  ∧ (lastAttr z "as" v → (parseLinkAttrs z).2 = strings.ToLower v).
Proof.
  induction z as [|[k val] z IH] using rev_ind.
  { repeat split; intros (pre & post & Heq & _); by destruct pre. }
  destruct IH as (IHh & IHr & IHa). rewrite parseLinkAttrs_snoc.
  destruct (parseLinkAttrs z) as [[h r] a]. simpl in IHh, IHr, IHa.
  repeat split; intros [[-> ->] | [Hk Hl]]%lastAttr_snoc_inv; simpl; try done.
  all: repeat match goal with
       | |- context [String.eqb ?a ?b] =>
           let E := fresh "E" in
           destruct (String.eqb a b) eqn:E;
             [apply String.eqb_eq in E | apply String.eqb_neq in E]
       end; simpl; try congruence; auto.
Qed.


Lemma addResource_cases baseURL ref t seen resources :
  (addResource resolveURL baseURL ref t seen resources = (seen, resources)
   ∧ default false (seen !! resolveURL baseURL ref) = true)
  ∨ addResource resolveURL baseURL ref t seen resources
    = (<[resolveURL baseURL ref := true]> seen,
       resources ++ [ {| url := resolveURL baseURL ref; typ := t |} ]).
Proof.
  unfold addResource.
  destruct (default false (seen !! resolveURL baseURL ref)); simpl; [by left | by right].
Qed.

(** From the words to the code: a tag that asks for a subresource makes
    [visitTag] call [addResource] for it. *)
Lemma visitTag_wants baseURL tok ref t seen resources :
  wants tok ref t →
  visitTag resolveURL baseURL tok seen resources
  = Some (addResource resolveURL baseURL ref t seen resources).
Proof.
  intros [Href Hcases]. apply String.eqb_neq in Href. unfold visitTag.
  destruct Hcases as [(Htag & Hattr & ->) | [(Htag & Hattr & ->) | (Htag & Hhref & Hrel)]];
    rewrite Htag; simpl.
  - by rewrite (firstAttr_getAttr _ _ _ Hattr), Href.
  - by rewrite (firstAttr_getAttr _ _ _ Hattr), Href.
  - destruct Hrel as (rel & Hrel & Hkind).
    destruct (lastAttr_parseLinkAttrs (attrs tok) ref) as (Hh & _ & _).
    destruct (lastAttr_parseLinkAttrs (attrs tok) rel) as (_ & Hr & _).
    specialize (Hh Hhref). specialize (Hr Hrel).
    destruct (parseLinkAttrs (attrs tok)) as [[h r] a] eqn:Hp. simpl in Hh, Hr. subst h r.
    rewrite Href. unfold linkType.
    destruct Hkind as [[-> ->] | [[-> ->] | (-> & as_ & Has & Hkind)]]; simpl; [done | done |].
    destruct (lastAttr_parseLinkAttrs (attrs tok) as_) as (_ & _ & Ha).
    specialize (Ha Has). rewrite Hp in Ha. simpl in Ha. subst a.
    by destruct Hkind as [[-> ->] | [[-> ->] | [[-> ->] | [-> ->]]]].
Qed.

(** From the code to the words: [visitTag] changes nothing, or adds what the
    tag asks for. *)
Lemma visitTag_cases baseURL tok seen resources seen' resources' :
  visitTag resolveURL baseURL tok seen resources = Some (seen', resources') →
  (seen', resources') = (seen, resources)
  ∨ ∃ ref t, wants tok ref t
             ∧ (seen', resources') = addResource resolveURL baseURL ref t seen resources.
Proof.
  unfold visitTag. intros Hv.
  destruct (String.eqb (tagName tok) "link") eqn:Elink.
  { apply String.eqb_eq in Elink.
    destruct (parseLinkAttrs (attrs tok)) as [[href rel] as_] eqn:Hp.
    destruct (parseLinkAttrs_last _ _ _ _ Hp) as (Hh & Hr & Ha).
    destruct (String.eqb href "") eqn:Ehref; [done |]. apply String.eqb_neq in Ehref.
    destruct Hh as [Hh | [-> _]]; [| done].
    destruct (linkType rel as_) as [t matched] eqn:Hlt.
    destruct matched; [| left; by injection Hv as <- <-].
    right. exists href, t. split; [| by injection Hv as <-].
    split; [done |]. right. right. split; [done |]. split; [done |].
    unfold linkType in Hlt.
    destruct (String.eqb rel "stylesheet") eqn:E1.
    { apply String.eqb_eq in E1. injection Hlt as <-.
      destruct Hr as [(v & Hl & Hv') | [-> _]]; [| done].
      exists v. split; [done |]. left. split; [congruence | done]. }
    destruct (String.eqb rel "icon") eqn:E2.
    { apply String.eqb_eq in E2. injection Hlt as <-.
      destruct Hr as [(v & Hl & Hv') | [-> _]]; [| done].
      exists v. split; [done |]. right. left. split; [congruence | done]. }
    destruct (String.eqb rel "preload") eqn:E3; [| done].
    apply String.eqb_eq in E3.
    destruct Hr as [(v & Hl & Hv') | [-> _]]; [| done].
    exists v. split; [done |]. right. right. split; [congruence |].
    destruct (String.eqb as_ "style") eqn:A1.
    { apply String.eqb_eq in A1. injection Hlt as <-.
      destruct Ha as [(w & Hw & Hw') | [-> _]]; [| done].
      exists w. split; [done |]. left. split; [congruence | done]. }
    destruct (String.eqb as_ "script") eqn:A2.
    { apply String.eqb_eq in A2. injection Hlt as <-.
      destruct Ha as [(w & Hw & Hw') | [-> _]]; [| done].
      exists w. split; [done |]. right. left. split; [congruence | done]. }
    destruct (String.eqb as_ "image") eqn:A3.
    { apply String.eqb_eq in A3. injection Hlt as <-.
      destruct Ha as [(w & Hw & Hw') | [-> _]]; [| done].
      exists w. split; [done |]. right. right. left. split; [congruence | done]. }
    destruct (String.eqb as_ "font") eqn:A4; [| done].
    apply String.eqb_eq in A4. injection Hlt as <-.
    destruct Ha as [(w & Hw & Hw') | [-> _]]; [| done].
    exists w. split; [done |]. right. right. right. split; [congruence | done]. }
  destruct (String.eqb (tagName tok) "script") eqn:Escript.
  { apply String.eqb_eq in Escript.
    destruct (String.eqb (getAttr (attrs tok) "src") "") eqn:Esrc; simpl in Hv;
      [left; by injection Hv as <- <- |].
    apply String.eqb_neq in Esrc. right.
    exists (getAttr (attrs tok) "src"), resourceJS. split; [| by injection Hv as <-].
    split; [done |]. left. split; [done |]. split; [by apply getAttr_first | done]. }
  destruct (String.eqb (tagName tok) "img") eqn:Eimg.
  { apply String.eqb_eq in Eimg.
    destruct (String.eqb (getAttr (attrs tok) "src") "") eqn:Esrc; simpl in Hv;
      [left; by injection Hv as <- <- |].
    apply String.eqb_neq in Esrc. right.
    exists (getAttr (attrs tok) "src"), resourceImage. split; [| by injection Hv as <-].
    split; [done |]. right. left. split; [done |]. split; [by apply getAttr_first | done]. }
  left. by injection Hv as <- <-.
Qed.

Lemma addResource_seenSound baseURL ref t seen resources :
  seenSound seen resources →
  seenSound (addResource resolveURL baseURL ref t seen resources).1
            (addResource resolveURL baseURL ref t seen resources).2
  ∧ resolveURL baseURL ref
    ∈ url <$> (addResource resolveURL baseURL ref t seen resources).2
  ∧ ∀ r, r ∈ resources → r ∈ (addResource resolveURL baseURL ref t seen resources).2.
Proof.
  intros Hsound.
  destruct (addResource_cases baseURL ref t seen resources) as [[-> Hseen] | ->]; simpl.
  - split; [done |]. split; [by apply Hsound | done].
  - split; [| split].
    + intros u Hu. rewrite fmap_app. apply elem_of_app.
      destruct (decide (u = resolveURL baseURL ref)) as [-> | Hne].
      * right. simpl. by apply list_elem_of_singleton.
      * left. apply Hsound. by rewrite lookup_insert_ne in Hu.
    + rewrite fmap_app. apply elem_of_app. right. simpl. by apply list_elem_of_singleton.
    + intros r Hr. apply elem_of_app. by left.
Qed.

Lemma visitTag_seenSound baseURL tok seen resources seen' resources' :
  visitTag resolveURL baseURL tok seen resources = Some (seen', resources') →
  seenSound seen resources →
  seenSound seen' resources' ∧ ∀ r, r ∈ resources → r ∈ resources'.
Proof.
  intros Hv Hsound.
  destruct (visitTag_cases _ _ _ _ _ _ Hv) as [[= -> ->] | (ref & t & _ & Heq)]; [done |].
  destruct (addResource_seenSound baseURL ref t seen resources Hsound) as (H1 & _ & H3).
  rewrite <- Heq in H1, H3. done.
Qed.

(** What is in the list stays in it. *)
Lemma scanTokens_incl baseURL tokens seen resources r :
  seenSound seen resources →
  r ∈ resources → r ∈ scanTokens resolveURL baseURL tokens seen resources.
Proof.
  revert seen resources. induction tokens as [|tok tokens IH];
    intros seen resources Hsound Hr; cbn [scanTokens]; [done |].
  destruct (tokenType tok); try (by apply IH); try done.
  all: destruct (attrs tok) as [|a0 rest] eqn:Hattrs; [by apply IH |].
  all: destruct (visitTag resolveURL baseURL tok seen resources) as [[seen' resources']|]
         eqn:Hv; [| by apply IH].
  all: destruct (visitTag_seenSound _ _ _ _ _ _ Hv Hsound) as [Hsound' Hincl].
  all: destruct (maxSubresources <=? length resources')%nat; [by apply Hincl |].
  all: apply IH; [done | by apply Hincl].
Qed.

(** Every entry of the result is asked for by a tag of the page. *)
Lemma scanTokens_sound (Q : subresource → Prop) baseURL tokens seen resources :
  (∀ r, r ∈ resources → Q r) →
  (∀ tok ref t, tok ∈ tokens → asks tok ref t →
                Q {| url := resolveURL baseURL ref; typ := t |}) →
  ∀ r, r ∈ scanTokens resolveURL baseURL tokens seen resources → Q r.
Proof.
  revert seen resources. induction tokens as [|tok tokens IH];
    intros seen resources Hres Htok; cbn [scanTokens]; [done |].
  assert (Htok' : ∀ tok' ref t, tok' ∈ tokens → asks tok' ref t →
                    Q {| url := resolveURL baseURL ref; typ := t |}).
  { intros tok' ref t Hin. apply Htok. by right. }
  destruct (tokenType tok) eqn:Htype; try (by apply IH); try done.
  all: destruct (attrs tok) as [|a0 rest] eqn:Hattrs; [by apply IH |].
  all: destruct (visitTag resolveURL baseURL tok seen resources) as [[seen' resources']|]
         eqn:Hv; [| by apply IH].
  all: assert (Hres' : ∀ r, r ∈ resources' → Q r);
    [ destruct (visitTag_cases _ _ _ _ _ _ Hv) as [[= -> ->] | (ref & t & Hw & Heq)];
        [done |];
      destruct (addResource_cases baseURL ref t seen resources) as [[Ha _] | Ha];
        rewrite Ha in Heq; injection Heq as -> ->; [done |];
      intros r [Hr | ->%list_elem_of_singleton]%elem_of_app; [by apply Hres |];
      apply (Htok tok); [by left | split; [by auto | done]]
    | ].
  all: destruct (maxSubresources <=? length resources')%nat; [done | by apply IH].
Qed.

(** Below the cap, every tag before the end of input is served. *)
Lemma scanTokens_complete baseURL pre tok post ref t seen resources :
  (∀ p, p ∈ pre → tokenType p ≠ ErrorToken) →
  seenSound seen resources →
  asks tok ref t →
  (length (scanTokens resolveURL baseURL (pre ++ tok :: post) seen resources)
   < maxSubresources)%nat →
  resolveURL baseURL ref
  ∈ url <$> scanTokens resolveURL baseURL (pre ++ tok :: post) seen resources.
Proof.
  intros Hpre Hsound [Htype Hw]. revert seen resources Hsound.
  induction pre as [|p pre IH]; intros seen resources Hsound; cbn [app scanTokens].
  - assert (Hattrs : attrs tok ≠ []).
    { destruct Hw as [_ [(_ & (a & b & -> & _) & _) | [(_ & (a & b & -> & _) & _)
                         | (_ & (a & b & -> & _) & _)]]]; by destruct a. }
    rewrite (visitTag_wants baseURL tok ref t seen resources Hw).
    destruct (addResource_seenSound baseURL ref t seen resources Hsound)
      as (Hsound' & Hin & _).
    destruct (addResource resolveURL baseURL ref t seen resources) as [seen' resources'].
    simpl in Hsound', Hin.
    assert (Hgoal : ∀ l, (length l < maxSubresources)%nat →
              l = (if (maxSubresources <=? length resources')%nat then resources'
                   else scanTokens resolveURL baseURL post seen' resources') →
              resolveURL baseURL ref ∈ url <$> l).
    { intros l _ ->. destruct (maxSubresources <=? length resources')%nat; [done |].
      apply list_elem_of_fmap in Hin as (r & -> & Hr).
      apply list_elem_of_fmap. exists r. split; [done |]. by apply scanTokens_incl. }
    destruct (attrs tok) as [|a0 rest]; [done |].
    destruct Htype as [-> | ->]; intros Hlen; by eapply Hgoal.
  - assert (Hp : tokenType p ≠ ErrorToken) by (apply Hpre; by left).
    assert (Hpre' : ∀ q, q ∈ pre → tokenType q ≠ ErrorToken).
    { intros q Hq. apply Hpre. by right. }
    specialize (IH Hpre').
    destruct (tokenType p); try done; try (by apply IH).
    all: destruct (attrs p) as [|a0 rest]; [by apply IH |].
    all: destruct (visitTag resolveURL baseURL p seen resources) as [[seen' resources']|]
           eqn:Hv; [| by apply IH].
    all: destruct (visitTag_seenSound _ _ _ _ _ _ Hv Hsound) as [Hsound' _].
    all: destruct (maxSubresources <=? length resources')%nat eqn:Hcap;
           [apply Nat.leb_le in Hcap; lia | by apply IH].
Qed.


(** The first tag to ask for a URL decides the type it is fetched as. *)
Lemma scanTokens_first baseURL pre tok post ref t seen resources :
  (∀ p, p ∈ pre → tokenType p ≠ ErrorToken) →
  (∀ p ref' t', p ∈ pre → asks p ref' t' →
                resolveURL baseURL ref' ≠ resolveURL baseURL ref) →
  seenSound seen resources →
  (∀ r, r ∈ resources → url r ≠ resolveURL baseURL ref) →
  asks tok ref t →
  (length (scanTokens resolveURL baseURL (pre ++ tok :: post) seen resources)
   < maxSubresources)%nat →
  {| url := resolveURL baseURL ref; typ := t |}
  ∈ scanTokens resolveURL baseURL (pre ++ tok :: post) seen resources.
Proof.
  intros Hpre Hother Hsound Hnew [Htype Hw]. revert seen resources Hsound Hnew.
  induction pre as [|p pre IH]; intros seen resources Hsound Hnew; cbn [app scanTokens].
  - assert (Hattrs : attrs tok ≠ []).
    { destruct Hw as [_ [(_ & (a & b & -> & _) & _) | [(_ & (a & b & -> & _) & _)
                         | (_ & (a & b & -> & _) & _)]]]; by destruct a. }
    rewrite (visitTag_wants baseURL tok ref t seen resources Hw).
    destruct (addResource_seenSound baseURL ref t seen resources Hsound)
      as (Hsound' & _ & _).
    destruct (addResource_cases baseURL ref t seen resources) as [[_ Hseen] | Ha].
    { apply Hsound in Hseen. apply list_elem_of_fmap in Hseen as (r & Hr & Hin).
      by destruct (Hnew r Hin). }
    rewrite Ha in Hsound' |- *. simpl in Hsound'.
    assert (Hgoal : ∀ l,
              l = (if (maxSubresources
                       <=? length (resources
                                   ++ [{| url := resolveURL baseURL ref; typ := t |}]))%nat
                   then resources ++ [{| url := resolveURL baseURL ref; typ := t |}]
                   else scanTokens resolveURL baseURL post
                          (<[resolveURL baseURL ref := true]> seen)
                          (resources ++ [{| url := resolveURL baseURL ref; typ := t |}])) →
              {| url := resolveURL baseURL ref; typ := t |} ∈ l).
    { intros l ->.
      assert (Hin : {| url := resolveURL baseURL ref; typ := t |}
                    ∈ resources ++ [{| url := resolveURL baseURL ref; typ := t |}]).
      { apply elem_of_app. right. by apply list_elem_of_singleton. }
      destruct (maxSubresources <=? _)%nat; [done | by apply scanTokens_incl]. }
    destruct (attrs tok) as [|a0 rest]; [done |].
    destruct Htype as [-> | ->]; intros _; by apply Hgoal.
  - assert (Hp : tokenType p ≠ ErrorToken) by (apply Hpre; by left).
    assert (Hpre' : ∀ q, q ∈ pre → tokenType q ≠ ErrorToken).
    { intros q Hq. apply Hpre. by right. }
    assert (Hother' : ∀ q ref' t', q ∈ pre → asks q ref' t' →
                        resolveURL baseURL ref' ≠ resolveURL baseURL ref).
    { intros q ref' t' Hq. apply Hother. by right. }
    specialize (IH Hpre' Hother').
    destruct (tokenType p) eqn:Htp; try done; try (by apply IH).
    all: destruct (attrs p) as [|a0 rest]; [by apply IH |].
    all: destruct (visitTag resolveURL baseURL p seen resources) as [[seen' resources']|]
           eqn:Hv; [| by apply IH].
    all: destruct (visitTag_seenSound _ _ _ _ _ _ Hv Hsound) as [Hsound' _].
    all: destruct (maxSubresources <=? length resources')%nat eqn:Hcap;
           [apply Nat.leb_le in Hcap; lia |].
    all: apply IH; [done |].
    all: destruct (visitTag_cases _ _ _ _ _ _ Hv) as [[= -> ->] | (ref' & t' & Hw' & Heq)];
           [done |].
    all: destruct (addResource_cases baseURL ref' t' seen resources) as [[Ha _] | Ha];
           rewrite Ha in Heq; injection Heq as -> ->; [done |].
    all: intros r [Hr | ->%list_elem_of_singleton]%elem_of_app; [by apply Hnew |]; simpl.
    all: apply (Hother p ref' t'); [by left | split; [by auto | done]].
Qed.

End WarmupTagFacts.

(** X17. [parseSubresources] fetches nothing the page does not ask for:
    every entry of its result is the resolved reference of a start tag or
    self-closing tag of the page, a [script] or [img] with that [src] or a
    [link] with that [href] and a [rel] of [stylesheet], [icon] or
    [preload], and the entry's type is the one that tag asks for. *)
Theorem parseSubresources_only_asked
    (resolveURL : string → string → string) (Tokenizer : bytes → list session.Token)
    (body : bytes) (baseURL : string) :
  Forall (λ r, ∃ tok ref,
            tok ∈ Tokenizer body
            ∧ asks tok ref (session.typ r)
            ∧ session.url r = resolveURL baseURL ref)
    (session.parseSubresources resolveURL Tokenizer body baseURL).
Proof.
  apply Forall_forall. unfold session.parseSubresources.
  apply (scanTokens_sound resolveURL
           (λ r, ∃ tok ref, tok ∈ Tokenizer body ∧ asks tok ref (session.typ r)
                            ∧ session.url r = resolveURL baseURL ref)).
  - intros r Hr. by apply elem_of_nil in Hr.
  - intros tok ref t Hin Hasks. by exists tok, ref.
Qed.

(** X18. Below the cap nothing is left out.  When [parseSubresources] returns
    fewer than 50 entries, every tag that stands before the end of input and
    asks for a subresource has its resolved URL in the result; and if no
    earlier tag asks for the same resolved URL, the entry carries that tag's
    type (for a URL asked for twice the first tag decides). *)
Theorem parseSubresources_serves_every_tag
    (resolveURL : string → string → string) (Tokenizer : bytes → list session.Token)
    (body : bytes) (baseURL : string)
    (pre post : list session.Token) (tok : session.Token) (ref : string)
    (t : session.resourceType) :
  Tokenizer body = pre ++ tok :: post →
  (∀ p, p ∈ pre → session.tokenType p ≠ session.ErrorToken) →
  asks tok ref t →
  (length (session.parseSubresources resolveURL Tokenizer body baseURL) < 50)%nat →
  resolveURL baseURL ref
  ∈ session.url <$> session.parseSubresources resolveURL Tokenizer body baseURL
  ∧ ((∀ p ref' t', p ∈ pre → asks p ref' t' →
                   resolveURL baseURL ref' ≠ resolveURL baseURL ref) →
     {| session.url := resolveURL baseURL ref; session.typ := t |}
     ∈ session.parseSubresources resolveURL Tokenizer body baseURL).
Proof.
  unfold session.parseSubresources. intros -> Hpre Hasks Hlen.
  assert (Hsound : seenSound ∅ []).
  { intros u Hu. by rewrite lookup_empty in Hu. }
  split.
  - by apply (scanTokens_complete resolveURL baseURL pre tok post ref t).
  - intros Hother. apply scanTokens_first; try done.
    intros r Hr. by apply elem_of_nil in Hr.
Qed.

Lemma parseSubresources_serves_every_tag_witness :
  let resolveURL := λ baseURL ref : string, baseURL +:+ ref in
  let style := {| session.tokenType := session.SelfClosingTagToken;
                  session.tagName := "link";
                  session.attrs := [("rel", "Stylesheet"); ("href", "/a.css")] |} in
  let script := {| session.tokenType := session.StartTagToken;
                   session.tagName := "script";
                   session.attrs := [("async", ""); ("src", "/a.js")] |} in
  let Tokenizer := λ _ : bytes, [style; script] in
  resolveURL "https://example.com" "/a.js"
  ∈ session.url <$> session.parseSubresources resolveURL Tokenizer [] "https://example.com"
  ∧ ((∀ p ref' t', p ∈ [style] → asks p ref' t' →
                   resolveURL "https://example.com" ref'
                   ≠ resolveURL "https://example.com" "/a.js") →
     {| session.url := resolveURL "https://example.com" "/a.js";
        session.typ := session.resourceJS |}
     ∈ session.parseSubresources resolveURL Tokenizer [] "https://example.com").
Proof.
  cbv zeta.
  refine (parseSubresources_serves_every_tag
            (λ baseURL ref : string, baseURL +:+ ref) _ [] "https://example.com"
            [{| session.tokenType := session.SelfClosingTagToken;
                session.tagName := "link";
                session.attrs := [("rel", "Stylesheet"); ("href", "/a.css")] |}]
            [] _ "/a.js" session.resourceJS _ _ _ _).
  - reflexivity.
  - intros p Hp. apply list_elem_of_singleton in Hp. subst p. simpl. discriminate.
  - split; [by left |]. split; [discriminate |]. left. simpl.
    split; [reflexivity |]. split; [| reflexivity].
    exists [("async", "")], []. split; [reflexivity |].
    intros v Hv. apply list_elem_of_singleton in Hv. discriminate.
  - vm_compute. lia.
Defined.

(** ** The handle table of the fast binding *)

Section HandleFacts.
Import clib.

Lemma get_fast_as_finish (t : handles) malloced resp bodyBytes :
  httpcloak_get_fast t malloced (Some (resp, bodyBytes))
  = httpcloak_get_fast_finish t malloced resp bodyBytes.
Proof. reflexivity. Qed.

Lemma finish_handlesBelow (t : handles) malloced resp bodyBytes :
  handlesBelow t →
  handlesBelow (httpcloak_get_fast_finish t malloced resp bodyBytes).1
  ∧ fastResponseID (httpcloak_get_fast_finish t malloced resp bodyBytes).1
    = fastResponseID t + 1.
Proof.
  intros [Hpos Hlive]. unfold handlesBelow, httpcloak_get_fast_finish. simpl.
  split; [| done]. split; [lia |]. intros h Hh.
  destruct (decide (h = fastResponseID t + 1)) as [-> | Hne]; [lia |].
  rewrite lookup_insert_ne in Hh by done. apply Hlive in Hh. lia.
Qed.

Lemma applyHandleOp_handlesBelow (t : handles) (op : handleOp) :
  handlesBelow t →
  handlesBelow (applyHandleOp t op)
  ∧ fastResponseID t ≤ fastResponseID (applyHandleOp t op) ≤ fastResponseID t + 1.
Proof.
  intros Hbelow. destruct op as [malloced resp bodyBytes | malloced [[resp bodyBytes]|] | handle];
    cbn [applyHandleOp].
  - destruct (finish_handlesBelow t malloced resp bodyBytes Hbelow) as [H1 H2].
    split; [done | lia].
  - rewrite get_fast_as_finish.
    destruct (finish_handlesBelow t malloced resp bodyBytes Hbelow) as [H1 H2].
    split; [done | lia].
  - simpl. split; [done | lia].
  - unfold httpcloak_fast_free. destruct (fastResponses t !! handle) eqn:Hh;
      [| split; [done | lia]].
    simpl. split; [| lia]. destruct Hbelow as [Hpos Hlive]. split; [done |].
    simpl. intros h Hsome. apply Hlive.
    destruct (decide (h = handle)) as [-> | Hne]; [by rewrite lookup_delete_eq in Hsome |].
    by rewrite lookup_delete_ne in Hsome.
Qed.

Lemma applyHandleOps_handlesBelow (ops : list handleOp) (t : handles) :
  handlesBelow t →
  handlesBelow (fold_left applyHandleOp ops t)
  ∧ fastResponseID t ≤ fastResponseID (fold_left applyHandleOp ops t)
    ≤ fastResponseID t + Z.of_nat (length ops).
Proof.
  revert t. induction ops as [|op ops IH]; intros t Hbelow; simpl; [split; [done | lia] |].
  destruct (applyHandleOp_handlesBelow t op Hbelow) as [H1 H2].
  destruct (IH _ H1) as [H3 H4]. split; [done | lia].
Qed.

Lemma noHandles_handlesBelow : handlesBelow noHandles.
Proof. split; simpl; [lia |]. intros h Hh. rewrite lookup_empty in Hh. by destruct Hh. Qed.

(** A call that returns a handle other than the error value issues the
    counter's next value. *)
Lemma returned_next (t : handles) (op : handleOp) (id : Z) :
  0 ≤ fastResponseID t →
  returned t op = Some id → id ≠ -1 →
  id = fastResponseID t + 1 ∧ fastResponseID (applyHandleOp t op) = id.
Proof.
  intros Hpos Hret Hid.
  destruct op as [malloced resp bodyBytes | malloced [[resp bodyBytes]|] | handle];
    simpl in Hret; try (by injection Hret as <-); try done.
Qed.

(** A call leaves every handle alone but the one it issues or frees. *)
Lemma applyHandleOp_frame (t : handles) (op : handleOp) (h : Z) :
  h ≤ fastResponseID t → op ≠ OpFree h →
  fastResponses (applyHandleOp t op) !! h = fastResponses t !! h.
Proof.
  intros Hh Hop.
  destruct op as [malloced resp bodyBytes | malloced [[resp bodyBytes]|] | handle];
    cbn [applyHandleOp]; try done.
  - simpl. apply lookup_insert_ne. lia.
  - simpl. apply lookup_insert_ne. lia.
  - unfold httpcloak_fast_free. destruct (fastResponses t !! handle); [| done].
    simpl. apply lookup_delete_ne. congruence.
Qed.

Lemma applyHandleOps_frame (ops : list handleOp) (t : handles) (h : Z) :
  handlesBelow t → h ≤ fastResponseID t → OpFree h ∉ ops →
  fastResponses (fold_left applyHandleOp ops t) !! h = fastResponses t !! h.
Proof.
  revert t. induction ops as [|op ops IH]; intros t Hbelow Hh Hfree; simpl; [done |].
  destruct (applyHandleOp_handlesBelow t op Hbelow) as [H1 H2].
  rewrite IH; [| done | lia | by intros Hin; apply Hfree; right].
  apply applyHandleOp_frame; [done |]. intros ->. apply Hfree. by left.
Qed.

(** A handle that is not live and not above the counter stays dead. *)
Lemma applyHandleOps_dead (ops : list handleOp) (t : handles) (h : Z) :
  handlesBelow t → h ≤ fastResponseID t → fastResponses t !! h = None →
  fastResponses (fold_left applyHandleOp ops t) !! h = None.
Proof.
  revert t. induction ops as [|op ops IH]; intros t Hbelow Hh Hdead; simpl; [done |].
  destruct (applyHandleOp_handlesBelow t op Hbelow) as [H1 H2].
  apply IH; [done | lia |].
  destruct op as [malloced resp bodyBytes | malloced [[resp bodyBytes]|] | handle];
    cbn [applyHandleOp]; try done.
  - simpl. rewrite lookup_insert_ne; [done | lia].
  - simpl. rewrite lookup_insert_ne; [done | lia].
  - unfold httpcloak_fast_free. destruct (fastResponses t !! handle); [| done].
    simpl. apply lookup_delete_None. by right.
Qed.

Lemma protocolToInt_range (p : string) :
  int32_t (protocolToInt p) = protocolToInt p
  ∧ (protocolToInt p = 1 ∨ protocolToInt p = 2 ∨ protocolToInt p = 3).
Proof.
  unfold protocolToInt.
  destruct (_ || _ || _); [split; [reflexivity | by left] |].
  destruct (_ || _ || _); [split; [reflexivity | right; by left] |].
  destruct (_ || _ || _); split; try reflexivity; auto.
Qed.

Lemma int32_t_small (n : Z) : 0 ≤ n < 2 ^ 31 → int32_t n = n.
Proof. intros Hn. unfold int32_t. rewrite Z.mod_small; lia. Qed.

End HandleFacts.

(** X19. Handles are never handed out twice.  From the table the library
    starts with, through any calls: a live handle lies between 1 and the
    number of calls made, so neither 0 nor the error value -1 ever names a
    response; a call that returns -1 leaves the table as it was; and a
    handle returned by [httpcloak_get_fast] or [httpcloak_get_fast_finish]
    was not live before and is smaller than every handle returned later,
    whether or not it has been freed in between. *)
Theorem fast_handles_never_reused (ops more : list clib.handleOp)
    (op1 op2 : clib.handleOp) :
  let t := fold_left clib.applyHandleOp ops clib.noHandles in
  (∀ h, is_Some (clib.httpcloak_fast_get_meta t h) →
        1 ≤ h ≤ clib.fastResponseID t ∧ clib.fastResponseID t ≤ Z.of_nat (length ops))
  ∧ (clib.returned t op1 = Some (-1) → clib.applyHandleOp t op1 = t)
  ∧ (∀ id1 id2,
       clib.returned t op1 = Some id1 → id1 ≠ -1 →
       clib.returned (fold_left clib.applyHandleOp more (clib.applyHandleOp t op1)) op2
       = Some id2 →
       id2 ≠ -1 →
       clib.httpcloak_fast_get_meta t id1 = None
       ∧ is_Some (clib.httpcloak_fast_get_meta (clib.applyHandleOp t op1) id1)
       ∧ id1 < id2).
Proof.
  intros t.
  destruct (applyHandleOps_handlesBelow ops clib.noHandles noHandles_handlesBelow)
    as [Hbelow Hcount]. fold t in Hbelow, Hcount. simpl in Hcount.
  pose proof Hbelow as [Hpos Hlive].
  split; [| split].
  - intros h Hh. unfold clib.httpcloak_fast_get_meta in Hh.
    apply fmap_is_Some in Hh. apply Hlive in Hh. lia.
  - destruct op1 as [malloced resp bodyBytes | malloced [[resp bodyBytes]|] | handle];
      simpl; try done; intros [= Hid]; lia.
  - intros id1 id2 Hret1 Hid1 Hret2 Hid2.
    destruct (returned_next t op1 id1 Hpos Hret1 Hid1) as [-> Hnext].
    destruct (applyHandleOp_handlesBelow t op1 Hbelow) as [Hbelow1 _].
    destruct (applyHandleOps_handlesBelow more _ Hbelow1) as [Hbelow2 Hcount2].
    destruct (returned_next _ op2 id2 (proj1 Hbelow2) Hret2 Hid2) as [-> _].
    split; [| split; [| lia]].
    + unfold clib.httpcloak_fast_get_meta.
      destruct (clib.fastResponses t !! (clib.fastResponseID t + 1)) eqn:Hl; [| done].
      assert (Hs : is_Some (clib.fastResponses t !! (clib.fastResponseID t + 1))) by eauto.
      apply Hlive in Hs. lia.
    + unfold clib.httpcloak_fast_get_meta. apply fmap_is_Some.
      destruct op1 as [malloced resp bodyBytes | malloced [[resp bodyBytes]|] | handle];
        simpl in Hret1 |- *; try done; try (by rewrite lookup_insert_eq).
      injection Hret1 as Hret1. lia.
Qed.

(** X20. A response from its handle to its release.  The handle returned for
    a response (by either copy of the code) gives access to that response,
    its status, protocol number (1, 2 or 3), body length and body, through
    any later calls that do not free it; both body lengths are the length of
    the body as a 32-bit C integer, hence the length itself for a body of
    less than 2^31 bytes; the body pointer is nil exactly when the body is
    empty.  Once freed, the handle reads as nil and length 0 for ever
    after, whatever is requested or freed later. *)
Theorem fast_handle_lifecycle (ops more later : list clib.handleOp)
    (malloced : clib.FastResponseMeta) (resp : clib.Response) (bodyBytes : bytes) :
  let t := fold_left clib.applyHandleOp ops clib.noHandles in
  let issued := clib.httpcloak_get_fast_finish t malloced resp bodyBytes in
  let id := issued.2 in
  clib.OpFree id ∉ more →
  let t1 := fold_left clib.applyHandleOp more issued.1 in
  let t2 := fold_left clib.applyHandleOp later (clib.httpcloak_fast_free t1 id) in
  clib.httpcloak_get_fast t malloced (Some (resp, bodyBytes)) = issued
  ∧ (∃ m, clib.httpcloak_fast_get_meta t1 id = Some m
          ∧ clib.status_code m = clib.int32_t (clib.StatusCode resp)
          ∧ (clib.protocol m = 1 ∨ clib.protocol m = 2 ∨ clib.protocol m = 3)
          ∧ (Z.of_nat (length bodyBytes) < 2 ^ 31 →
             clib.body_len m = Z.of_nat (length bodyBytes)))
  ∧ clib.httpcloak_fast_get_body_len t1 id = clib.int32_t (Z.of_nat (length bodyBytes))
  ∧ (Z.of_nat (length bodyBytes) < 2 ^ 31 →
     clib.httpcloak_fast_get_body_len t1 id = Z.of_nat (length bodyBytes))
  ∧ clib.httpcloak_fast_get_body_ptr t1 id
    = (if decide (bodyBytes = []) then None else Some bodyBytes)
  ∧ clib.httpcloak_fast_get_meta t2 id = None
  ∧ clib.httpcloak_fast_get_body_len t2 id = 0
  ∧ clib.httpcloak_fast_get_body_ptr t2 id = None.
Proof.
  intros t issued id Hfree t1 t2.
  destruct (applyHandleOps_handlesBelow ops clib.noHandles noHandles_handlesBelow)
    as [Hbelow _]. fold t in Hbelow.
  destruct (finish_handlesBelow t malloced resp bodyBytes Hbelow) as [Hbelow1 Hid].
  fold issued in Hbelow1, Hid.
  assert (Hid' : id = clib.fastResponseID issued.1) by (rewrite Hid; reflexivity).
  assert (Hlook : clib.fastResponses t1 !! id = clib.fastResponses issued.1 !! id).
  { apply applyHandleOps_frame; [done | lia | done]. }
  assert (Hissued : clib.fastResponses issued.1 !! id
                    = Some {| clib.meta :=
                                {| clib.status_code := clib.int32_t (clib.StatusCode resp);
                                   clib.body_len :=
                                     clib.int32_t (Z.of_nat (length bodyBytes));
                                   clib.headers_len :=
                                     clib.int32_t (clib.countHeaders (clib.Headers resp));
                                   clib.protocol :=
                                     clib.int32_t (clib.protocolToInt (clib.Protocol resp));
                                   clib.final_url :=
                                     clib.copyFinalURL (clib.FinalURL resp)
                                       (clib.final_url malloced) |};
                              clib.body := bodyBytes;
                              clib.bodyLen := length bodyBytes;
                              clib.headers := clib.Headers resp |}).
  { subst id issued. unfold clib.httpcloak_get_fast_finish. simpl.
    apply lookup_insert_eq. }
  rewrite Hissued in Hlook.
  destruct (applyHandleOps_handlesBelow more _ Hbelow1) as [Hbelow2 Hcount2].
  fold t1 in Hbelow2, Hcount2.
  assert (Hdead : clib.fastResponses t2 !! id = None).
  { apply applyHandleOps_dead.
    - unfold clib.httpcloak_fast_free. rewrite Hlook.
      destruct Hbelow2 as [Hpos Hlive]. split; [done |]. simpl. intros h Hh.
      apply Hlive. destruct (decide (h = id)) as [-> | Hne];
        [by rewrite lookup_delete_eq in Hh | by rewrite lookup_delete_ne in Hh].
    - unfold clib.httpcloak_fast_free. rewrite Hlook. simpl. lia.
    - unfold clib.httpcloak_fast_free. rewrite Hlook. simpl. apply lookup_delete_eq. }
  split; [reflexivity |].
  unfold clib.httpcloak_fast_get_meta, clib.httpcloak_fast_get_body_len,
    clib.httpcloak_fast_get_body_ptr.
  rewrite Hlook, Hdead. simpl.
  split; [| split; [done | split; [| split; [| done]]]].
  - eexists. split; [done |]. simpl. split; [done |].
    destruct (protocolToInt_range (clib.Protocol resp)) as [-> Hp]. split; [done |].
    intros Hsmall. apply int32_t_small. lia.
  - intros Hsmall. apply int32_t_small. lia.
  - destruct bodyBytes; simpl; by rewrite ?decide_True, ?decide_False.
Qed.

Lemma fast_handle_lifecycle_witness :
  let malloced := {| clib.status_code := 0; clib.body_len := 0; clib.headers_len := 0;
                     clib.protocol := 0; clib.final_url := replicate 2048 (-86) |} in
  let resp := {| clib.StatusCode := 200; clib.Protocol := "HTTP/3";
                 clib.FinalURL := "https://example.test/"; clib.Headers := ∅ |} in
  let bodyBytes := [Byte.x68; Byte.x69] in
  let more := [clib.OpFinish malloced resp []; clib.OpFree 2] in
  let later := [clib.OpGetFast malloced (Some (resp, bodyBytes))] in
  let t := fold_left clib.applyHandleOp [] clib.noHandles in
  let issued := clib.httpcloak_get_fast_finish t malloced resp bodyBytes in
  let id := issued.2 in
  let t1 := fold_left clib.applyHandleOp more issued.1 in
  let t2 := fold_left clib.applyHandleOp later (clib.httpcloak_fast_free t1 id) in
  clib.httpcloak_get_fast t malloced (Some (resp, bodyBytes)) = issued
  ∧ (∃ m, clib.httpcloak_fast_get_meta t1 id = Some m
          ∧ clib.status_code m = clib.int32_t (clib.StatusCode resp)
          ∧ (clib.protocol m = 1 ∨ clib.protocol m = 2 ∨ clib.protocol m = 3)
          ∧ (Z.of_nat (length bodyBytes) < 2 ^ 31 →
             clib.body_len m = Z.of_nat (length bodyBytes)))
  ∧ clib.httpcloak_fast_get_body_len t1 id = clib.int32_t (Z.of_nat (length bodyBytes))
  ∧ (Z.of_nat (length bodyBytes) < 2 ^ 31 →
     clib.httpcloak_fast_get_body_len t1 id = Z.of_nat (length bodyBytes))
  ∧ clib.httpcloak_fast_get_body_ptr t1 id
    = (if decide (bodyBytes = []) then None else Some bodyBytes)
  ∧ clib.httpcloak_fast_get_meta t2 id = None
  ∧ clib.httpcloak_fast_get_body_len t2 id = 0
  ∧ clib.httpcloak_fast_get_body_ptr t2 id = None.
Proof.
  cbv zeta.
  refine (fast_handle_lifecycle []
            [clib.OpFinish _ _ []; clib.OpFree 2]
            [clib.OpGetFast _ (Some (_, [Byte.x68; Byte.x69]))]
            {| clib.status_code := 0; clib.body_len := 0; clib.headers_len := 0;
               clib.protocol := 0; clib.final_url := replicate 2048 (-86) |}
            {| clib.StatusCode := 200; clib.Protocol := "HTTP/3";
               clib.FinalURL := "https://example.test/"; clib.Headers := ∅ |}
            [Byte.x68; Byte.x69] _).
  simpl. intros Hin. apply elem_of_cons in Hin as [Hin | Hin]; [discriminate |].
  apply list_elem_of_singleton in Hin. discriminate.
Defined.

(** ** The session evicted is the least recently used *)

Section RecencyFacts.
Import transport.
Context `{TLSLibrary}.

Lemma lastUse_snoc (ops : list lruOp) (op : lruOp) (key : string) :
  lastUse (ops ++ [op]) key = if uses op key then S (length ops) else lastUse ops key.
Proof.
  induction ops as [|o ops IH]; simpl; [by destruct (uses op key) |].
  rewrite IH. by destruct (uses op key).
Qed.

Lemma lastUse_le (ops : list lruOp) (key : string) :
  (lastUse ops key ≤ length ops)%nat.
Proof.
  induction ops as [|o ops IH]; simpl; [lia |].
  destruct (lastUse ops key); [destruct (uses o key) |]; lia.
Qed.

Lemma cutFirst_split (key : string) (order rest : list string) :
  cutFirst key order = Some rest →
  ∃ pre post, order = pre ++ key :: post ∧ rest = pre ++ post.
Proof.
  revert rest. induction order as [|k order IH]; intros rest; simpl; [done |].
  destruct (String.eqb k key) eqn:Hk.
  - apply String.eqb_eq in Hk as ->. intros [= ->]. by exists [], rest.
  - destruct (cutFirst key order) as [rest'|]; [| done].
    intros [= <-]. destruct (IH rest' eq_refl) as (pre & post & -> & ->).
    by exists (k :: pre), post.
Qed.

Lemma cutFirst_None (key : string) (order : list string) :
  cutFirst key order = None → key ∉ order.
Proof.
  induction order as [|k order IH]; simpl; [intros _ Hin; by apply elem_of_nil in Hin |].
  destruct (String.eqb k key) eqn:Hk; [done |]. apply String.eqb_neq in Hk.
  destruct (cutFirst key order); [done |]. intros _ [-> | Hin]%elem_of_cons; [done |].
  by apply IH.
Qed.

Lemma StronglySorted_impl_in {A} (R S : A → A → Prop) (l : list A) :
  (∀ a b, a ∈ l → b ∈ l → R a b → S a b) → StronglySorted R l → StronglySorted S l.
Proof.
  induction l as [|x l IH]; intros HRS Hs; [constructor |].
  apply StronglySorted_cons in Hs as [Hall Hs]. apply StronglySorted_cons. split.
  - apply Forall_forall. intros b Hb. rewrite Forall_forall in Hall.
    apply HRS; [by left | by right | by apply Hall].
  - apply IH; [| done]. intros a b Ha Hb. apply HRS; by right.
Qed.

(** Keys the call does not use keep their order. *)
Lemma sorted_unused (ops : list lruOp) (op : lruOp) (l : list string) :
  (∀ a, a ∈ l → uses op a = false) →
  StronglySorted (λ a b, (lastUse ops a < lastUse ops b)%nat) l →
  StronglySorted (λ a b, (lastUse (ops ++ [op]) a < lastUse (ops ++ [op]) b)%nat) l.
Proof.
  intros Hun. apply StronglySorted_impl_in. intros a b Ha Hb.
  by rewrite !lastUse_snoc, !Hun.
Qed.

(** The key the call uses goes last. *)
Lemma sorted_used_last (ops : list lruOp) (op : lruOp) (key : string) (l : list string) :
  usesOnly op key → key ∉ l →
  StronglySorted (λ a b, (lastUse ops a < lastUse ops b)%nat) l →
  StronglySorted (λ a b, (lastUse (ops ++ [op]) a < lastUse (ops ++ [op]) b)%nat)
    (l ++ [key]).
Proof.
  intros [Hkey Hother] Hfresh Hs.
  assert (Hun : ∀ a, a ∈ l → uses op a = false).
  { intros a Ha. apply Hother. by intros ->. }
  apply StronglySorted_app_2.
  - intros a b Ha ->%list_elem_of_singleton.
    rewrite !lastUse_snoc, Hkey, (Hun a Ha). pose proof (lastUse_le ops a). lia.
  - by apply sorted_unused.
  - repeat constructor.
Qed.

Lemma sorted_moved (ops : list lruOp) (op : lruOp) (key : string)
    (order rest : list string) :
  usesOnly op key → NoDup order → cutFirst key order = Some rest →
  StronglySorted (λ a b, (lastUse ops a < lastUse ops b)%nat) order →
  StronglySorted (λ a b, (lastUse (ops ++ [op]) a < lastUse (ops ++ [op]) b)%nat)
    (rest ++ [key]).
Proof.
  intros Huses Hnd Hcut Hs.
  destruct (cutFirst_split _ _ _ Hcut) as (pre & post & -> & ->).
  apply NoDup_app in Hnd as (Hpre & Hcross & Hpost).
  apply NoDup_cons in Hpost as [Hkpost Hpost].
  apply StronglySorted_app in Hs as (Hx & Hspre & Hspost).
  apply StronglySorted_cons in Hspost as [_ Hspost].
  apply sorted_used_last; [done | |].
  - intros [Hin | Hin]%elem_of_app; [| done]. apply (Hcross key Hin). by left.
  - apply StronglySorted_app_2; [| done | done].
    intros a b Ha Hb. apply Hx; [done | by right].
Qed.

Lemma moveToEnd_sorted (ops : list lruOp) (op : lruOp) (key : string)
    (c : PersistableSessionCache) :
  usesOnly op key → NoDup (accessOrder c) →
  StronglySorted (λ a b, (lastUse ops a < lastUse ops b)%nat) (accessOrder c) →
  StronglySorted (λ a b, (lastUse (ops ++ [op]) a < lastUse (ops ++ [op]) b)%nat)
    (accessOrder (moveToEnd c key)).
Proof.
  intros Huses Hnd Hs. unfold moveToEnd.
  destruct (cutFirst key (accessOrder c)) as [rest|] eqn:Hcut; simpl.
  - by eapply sorted_moved.
  - apply cutFirst_None in Hcut. apply sorted_unused; [| done].
    intros a Ha. apply Huses. by intros ->.
Qed.

Lemma applyOp_sorted (ops : list lruOp) (op : lruOp) (c : PersistableSessionCache) :
  orderExact c →
  StronglySorted (λ a b, (lastUse ops a < lastUse ops b)%nat) (accessOrder c) →
  StronglySorted (λ a b, (lastUse (ops ++ [op]) a < lastUse (ops ++ [op]) b)%nat)
    (accessOrder (applyOp c op)).
Proof.
  intros [Hnd Hdom] Hs.
  assert (Hfresh : ∀ key, sessions c !! key = None → key ∉ accessOrder c).
  { intros key Hkey Hin. apply not_elem_of_dom in Hkey. apply Hkey. rewrite Hdom.
    by apply elem_of_list_to_set. }
  destruct op as [key | now key cs |]; simpl.
  - assert (Huses : usesOnly (OpGet key) key).
    { split; simpl; [apply String.eqb_refl |]. intros a Ha. by apply String.eqb_neq. }
    unfold Get. destruct (sessions c !! key) eqn:Hkey; simpl.
    + by apply moveToEnd_sorted.
    + apply sorted_unused; [| done]. intros a Ha. apply Huses.
      intros ->. by apply (Hfresh key).
  - assert (Huses : usesOnly (OpPut now key cs) key).
    { split; simpl; [apply String.eqb_refl |]. intros a Ha. by apply String.eqb_neq. }
    unfold Put. destruct (sessions c !! key) eqn:Hkey.
    + by apply moveToEnd_sorted.
    + specialize (Hfresh key Hkey).
      destruct (TLSSessionCacheMaxSize <=? size (sessions c))%nat.
      * destruct (accessOrder c) as [|oldest rest] eqn:Horder; simpl.
        -- rewrite Horder. by apply sorted_used_last.
        -- apply StronglySorted_cons in Hs as [_ Hs].
           apply sorted_used_last; [done | | done].
           intros Hin. apply Hfresh. by right.
      * simpl. by apply sorted_used_last.
  - constructor.
Qed.

(** From the empty cache, [accessOrder] lists the cached keys from the
    least to the most recently used. *)
Lemma accessOrder_by_recency (ops : list lruOp) :
  orderExact (fold_left applyOp ops NewPersistableSessionCache)
  ∧ (Count (fold_left applyOp ops NewPersistableSessionCache) ≤ TLSSessionCacheMaxSize)%nat
  ∧ StronglySorted (λ a b, (lastUse ops a < lastUse ops b)%nat)
      (accessOrder (fold_left applyOp ops NewPersistableSessionCache)).
Proof.
  induction ops as [|op ops IH] using rev_ind.
  { simpl. split; [split; simpl; [constructor | set_solver] |].
    split; [| constructor]. unfold Count. simpl. rewrite map_size_empty. lia. }
  rewrite fold_left_app. simpl. destruct IH as (Hex & Hcount & Hs).
  destruct (applyOp_exact _ op Hex Hcount) as [Hex' Hcount'].
  split; [done |]. split; [done |]. by apply applyOp_sorted.
Qed.

End RecencyFacts.

(** X2. At capacity, [Put] evicts the least recently used session.  In a
    cache reached from the empty one by [Get], [Put] and [Clear] calls,
    [Put] of a key that is not cached, when 32 sessions are cached, removes
    the session at the front of [accessOrder] and no other, then inserts
    the new one last; and the session removed is the one whose last use (a
    [Get] that found it or a [Put]) lies further back than the last use of
    every other cached session. *)
Theorem Put_evicts_least_recently_used `{transport.TLSLibrary}
    (ops : list transport.lruOp) (now : Z) (key : string)
    (cs : option transport.ClientSessionState) :
  let c := fold_left transport.applyOp ops transport.NewPersistableSessionCache in
  transport.sessions c !! key = None →
  (32 ≤ size (transport.sessions c))%nat →
  ∃ oldest rest,
    transport.accessOrder c = oldest :: rest
    ∧ is_Some (transport.sessions c !! oldest)
    ∧ (∀ k, is_Some (transport.sessions c !! k) → k ≠ oldest →
            (lastUse ops oldest < lastUse ops k)%nat)
    ∧ transport.Put c now key cs
      = {| transport.sessions :=
             <[key := {| transport.state := cs; transport.createdAt := now |}]>
               (delete oldest (transport.sessions c));
           transport.accessOrder := rest ++ [key] |}.
Proof.
  intros c Hkey Hcap.
  destruct (accessOrder_by_recency ops) as (Hex & _ & Hs). fold c in Hex, Hs.
  pose proof (orderExact_size c Hex) as Hsize. destruct Hex as [Hnd Hdom].
  destruct (transport.accessOrder c) as [|oldest rest] eqn:Horder;
    [simpl in Hsize; lia |].
  exists oldest, rest. split; [done |].
  apply StronglySorted_cons in Hs as [Hall _]. rewrite Forall_forall in Hall.
  split; [| split].
  - apply elem_of_dom. rewrite Hdom. apply elem_of_list_to_set. by left.
  - intros k Hk Hne. apply Hall.
    apply elem_of_dom in Hk. rewrite Hdom in Hk. apply elem_of_list_to_set in Hk.
    by apply elem_of_cons in Hk as [-> | Hk].
  - by apply Put_at_capacity.
Qed.

Lemma Put_evicts_least_recently_used_witness :
  let ops := (λ i, transport.OpPut (H := loopback) 3 (sessionKey i)
                     (Some sampleClientSession)) <$> seq 0 32 in
  let c := fold_left transport.applyOp ops transport.NewPersistableSessionCache in
  ∃ oldest rest,
    transport.accessOrder c = oldest :: rest
    ∧ is_Some (transport.sessions c !! oldest)
    ∧ (∀ k, is_Some (transport.sessions c !! k) → k ≠ oldest →
            (lastUse ops oldest < lastUse ops k)%nat)
    ∧ transport.Put c 4 (sessionKey 32) None
      = {| transport.sessions :=
             <[sessionKey 32 := {| transport.state := None; transport.createdAt := 4 |}]>
               (delete oldest (transport.sessions c));
           transport.accessOrder := rest ++ [sessionKey 32] |}.
Proof.
  cbv zeta.
  refine (Put_evicts_least_recently_used (H := loopback)
            ((λ i, transport.OpPut (H := loopback) 3 (sessionKey i)
                     (Some sampleClientSession)) <$> seq 0 32)
            4 (sessionKey 32) None _ _).
  - vm_compute. reflexivity.
  - vm_compute. lia.
Defined.
